(** * pyrate: sequential ray tracing through an optical element

    A shallow embedding of the parts of [pyrateoptics.raytracer] that carry
    the bookkeeping of a trace: [OpticalElement] (registration of surfaces
    and materials, the hit list of a surface sequence, [seqtrace] and the
    pilot-ray matrices of [calculateXYUV]) and of [surface_shape] (the
    closed-form intersections of [Conic] and [Cylinder], the solver calls
    of [ExplicitShape] and [ImplicitShape], sags and gradients, the Zernike
    index conversions).

    Python dictionaries are stdpp [gmap]s, Python exceptions are the [Raise]
    outcome of a small error monad, and the objects whose identity the code
    inspects carry an explicit identity field.  The floating-point numbers
    of the shapes are read as real numbers; where a float is turned into an
    integer index (the Zernike conversions) it is an IEEE 754 binary64
    number with its rounding. *)

From Stdlib Require Import ZArith QArith Reals Lra Lia.
From Stdlib Require Import Floats.SpecFloat.
From stdpp Require Import gmap strings list fin_maps.

(* ===================================================================== *)
(** * Part I: definitions                                                 *)
(* ===================================================================== *)

(** ** Exceptions *)

(** The exceptions the embedded code can let escape. *)
Inductive exn : Type :=
  | KeyError
  | IndexError
  | ValueError
  | OverflowError
  | LinAlgError
  | Exception (msg : string).

(** Outcome of a call that may raise. *)
Inductive result (A : Type) : Type :=
  | Ok (a : A)
  | Raise (e : exn).
Arguments Ok {A} a.
Arguments Raise {A} e.

#[global] Instance result_ret : MRet result := fun _ a => Ok a.
#[global] Instance result_bind : MBind result := fun _ _ f m =>
  match m with
  | Ok a => f a
  | Raise e => Raise e
  end.
#[global] Instance result_fmap : FMap result := fun _ _ f m =>
  match m with
  | Ok a => Ok (f a)
  | Raise e => Raise e
  end.

(** [d[k]]: a dictionary access that raises [KeyError] on a missing key. *)
Definition getitem `{Countable K} {V} (d : gmap K V) (k : K) : result V :=
  match d !! k with
  | Some v => Ok v
  | None => Raise KeyError
  end.

(** [l[i]] for a non-negative index. *)
Definition list_getitem {A} (l : list A) (i : nat) : result A :=
  match l !! i with
  | Some v => Ok v
  | None => Raise IndexError
  end.

(** [l[-1]]. *)
Definition list_last {A} (l : list A) : result A :=
  match last l with
  | Some v => Ok v
  | None => Raise IndexError
  end.

(** ** External collaborators *)

(** The tree of local coordinate systems.  [LocalCoordinates] objects are
    compared by identity; [returnConnectedChildren] is the list of frames
    reachable from a frame. *)
Class LocalCoordinatesTree := {
  LocalCoordinates : Type;
  LocalCoordinates_eq_dec :: EqDecision LocalCoordinates;
  returnConnectedChildren : LocalCoordinates → list LocalCoordinates
}.

(** A surface object: its identity, and the frame it lives in. *)
Record Surface `{LocalCoordinatesTree} := {
  surf_id : nat;
  surf_rootcoordinatesystem : LocalCoordinates
}.

(** A material object: its identity ([id(mat)] in Python), its frame, its
    comment and its optical data ([mat_value] stands for everything a
    value comparison of two materials would look at). *)
Record Material `{LocalCoordinatesTree} := {
  mat_id : nat;
  mat_lc : LocalCoordinates;
  mat_comment : string;
  mat_value : Z
}.

Definition set_comment `{LocalCoordinatesTree} (m : Material) (c : string) : Material :=
  {| mat_id := mat_id m; mat_lc := mat_lc m; mat_comment := c;
     mat_value := mat_value m |}.

(** The interface of materials that the trace consumes.  [propagate]
    changes the bundle it is given in place (it returns the changed
    bundle here); [refract] and [reflect] return new bundles. *)
Class MaterialInterface `{LocalCoordinatesTree} := {
  RayBundle : Type;
  propagate : Material → RayBundle → Surface → RayBundle;
  refract : Material → RayBundle → Surface → bool → list RayBundle;
  reflect : Material → RayBundle → Surface → bool → list RayBundle
}.

(** ** RayPath *)

Record RayPath `{MaterialInterface} := { raybundles : list RayBundle }.

(** [RayPath(raybundle)] *)
Definition RayPath_init `{MaterialInterface} (raybundle : RayBundle) : RayPath :=
  {| raybundles := [raybundle] |}.

Definition appendRayBundle `{MaterialInterface} (rp : RayPath) (rb : RayBundle) : RayPath :=
  {| raybundles := raybundles rp ++ [rb] |}.

(** ** OpticalElement *)

(** Surface keys are strings; a material key is a string or [None]. *)
Abbreviation matkey := (option string).

(** The per-hit option dictionary of a sequence entry. *)
Abbreviation options_dict := (gmap string bool).

Record OpticalElement `{LocalCoordinatesTree} := {
  surfaces : gmap string Surface;
  materials : gmap matkey Material;
  surf_mat_connection : gmap string (matkey * matkey);
  rootcoordinatesystem : LocalCoordinates;
  logged : list string
}.

(** [OpticalElement.p(lc)] *)
Definition OpticalElement_p `{LocalCoordinatesTree} (lc : LocalCoordinates) : OpticalElement :=
  {| surfaces := ∅; materials := ∅; surf_mat_connection := ∅;
     rootcoordinatesystem := lc; logged := [] |}.

(** Methods that change the element: a state and error monad over it.  An
    exception leaves the element as the method had changed it so far. *)
Definition method `{LocalCoordinatesTree} (A : Type) : Type :=
  OpticalElement → result A * OpticalElement.

#[global] Instance method_ret `{LocalCoordinatesTree} : MRet method :=
  fun _ a self => (Ok a, self).
#[global] Instance method_bind `{LocalCoordinatesTree} : MBind method :=
  fun _ _ f m self =>
    match m self with
    | (Ok a, self') => f a self'
    | (Raise e, self') => (Raise e, self')
    end.

Section element_methods.
Context `{LocalCoordinatesTree}.

Definition raise {A} (e : exn) : method A := fun self => (Raise e, self).
Definition read {A} (f : OpticalElement → A) : method A :=
  fun self => (Ok (f self), self).
Definition update (f : OpticalElement → OpticalElement) : method unit :=
  fun self => (Ok tt, f self).

Definition set_surfaces (f : gmap string Surface → gmap string Surface)
    (self : OpticalElement) : OpticalElement :=
  {| surfaces := f (surfaces self); materials := materials self;
     surf_mat_connection := surf_mat_connection self;
     rootcoordinatesystem := rootcoordinatesystem self;
     logged := logged self |}.

Definition set_materials (f : gmap matkey Material → gmap matkey Material)
    (self : OpticalElement) : OpticalElement :=
  {| surfaces := surfaces self; materials := f (materials self);
     surf_mat_connection := surf_mat_connection self;
     rootcoordinatesystem := rootcoordinatesystem self;
     logged := logged self |}.

Definition set_surf_mat_connection
    (f : gmap string (matkey * matkey) → gmap string (matkey * matkey))
    (self : OpticalElement) : OpticalElement :=
  {| surfaces := surfaces self; materials := materials self;
     surf_mat_connection := f (surf_mat_connection self);
     rootcoordinatesystem := rootcoordinatesystem self;
     logged := logged self |}.

(** [self.warning(msg)]: the message goes to the log. *)
Definition warning (msg : string) : method unit :=
  update (λ self,
    {| surfaces := surfaces self; materials := materials self;
       surf_mat_connection := surf_mat_connection self;
       rootcoordinatesystem := rootcoordinatesystem self;
       logged := logged self ++ [msg] |}).

(** [LocalCoordinatesTreeBase.checkForRootConnection] *)
Definition checkForRootConnection (self : OpticalElement)
    (lc : LocalCoordinates) : bool :=
  let allconnectedchildren := returnConnectedChildren (rootcoordinatesystem self) in
  bool_decide (lc ∈ allconnectedchildren).

(** [OpticalElement.addSurface] *)
Definition addSurface (key : string) (surface_object : Surface)
    (materialkeys : matkey * matkey) : method unit :=
  let '(minusNmat_key, plusNmat_key) := materialkeys in
  connected ← read (λ self,
    checkForRootConnection self (surf_rootcoordinatesystem surface_object));
  (if connected : bool
   then update (set_surfaces <[key := surface_object]>)
   else raise (Exception
     "surface coordinate system should be connected to OpticalElement root coordinate system"));;
  update (set_surf_mat_connection <[key := (minusNmat_key, plusNmat_key)]>).

(** [OpticalElement.changeMaterialsForSurface] *)
Definition changeMaterialsForSurface (key : string)
    (materialkeys : matkey * matkey) : method unit :=
  let '(minusNmat_key, plusNmat_key) := materialkeys in
  present ← read (λ self, bool_decide (is_Some (surf_mat_connection self !! key)));
  if present : bool
  then update (set_surf_mat_connection <[key := (minusNmat_key, plusNmat_key)]>)
  else mret tt.

(** [OpticalElement.getConnection] *)
Definition getConnection (self : OpticalElement) (key : string)
    : result (matkey * matkey) :=
  getitem (surf_mat_connection self) key.

(** An assignment to the attribute [comment] of the object
    [material_object], seen from another reference [m]: the object is
    shared, so a reference to the same object (the same [mat_id]) shows
    the new comment, and a reference to another object does not. *)
Definition assign_comment (material_object : Material) (comment : string)
    (m : Material) : Material :=
  if decide (mat_id m = mat_id material_object) then set_comment m comment else m.

(** [OpticalElement.addMaterial]; [key_str] is [str(key)].  The comment
    is written into the object that has just been stored, so every entry
    of [materials] that holds this object shows it. *)
Definition addMaterial (key : matkey) (key_str : string)
    (material_object : Material) (comment : string) : method unit :=
  connected ← read (λ self, checkForRootConnection self (mat_lc material_object));
  if connected : bool then
    taken ← read (λ self, bool_decide (is_Some (materials self !! key)));
    if taken : bool then
      warning ("Material key " +:+ key_str +:+
               " already taken. Material will not be added.")
    else
      update (set_materials <[key := material_object]>);;
      update (set_materials (fmap (assign_comment material_object comment)))
  else
    raise (Exception
      "material coordinate system should be connected to OpticalElement root coordinate system").

(** [OpticalElement.findoutWhichMaterial]: a comparison of [id]s. *)
Definition findoutWhichMaterial (mat1 mat2 current_mat : Material) : Material :=
  if decide (mat_id mat1 = mat_id current_mat) then mat2 else mat1.

(** [OpticalElement.sequence_to_hitlist]: the loop over consecutive
    entries, with the three containers it fills. *)
Fixpoint sequence_to_hitlist_loop
    (pairs : list ((string * options_dict) * (string * options_dict)))
    (hitlist_dict : gmap (string * string) nat)
    (hitlist : list (string * string * nat))
    (optionshitlistdict : gmap (string * string * nat) (options_dict * options_dict))
    : list (string * string * nat) *
      gmap (string * string * nat) (options_dict * options_dict) :=
  match pairs with
  | [] => (hitlist, optionshitlistdict)
  | ((sb, optsb), (se, optse)) :: rest =>
      let hit := default 0 (hitlist_dict !! (sb, se)) in
      let hit := hit + 1 in
      let hitlist_dict := <[(sb, se) := hit]> hitlist_dict in
      sequence_to_hitlist_loop rest hitlist_dict
        (hitlist ++ [(sb, se, hit)])
        (<[(sb, se, hit) := (optsb, optse)]> optionshitlistdict)
  end.

Definition sequence_to_hitlist (seq : list (string * options_dict))
    : list (string * string * nat) *
      gmap (string * string * nat) (options_dict * options_dict) :=
  let surfnames := seq in
  sequence_to_hitlist_loop (zip (removelast surfnames) (tail surfnames)) ∅ [] ∅.

End element_methods.

(** ** The sequential trace *)

Section trace.
Context `{MaterialInterface}.

(** [deepcopy(rp)]: paths are values here, so the copy is the value; an
    object of the active-path list is identified by its position. *)
Definition deepcopy (rp : RayPath) : RayPath := rp.

(** First inner loop of [seqtrace]: [propagate] changes the last bundle
    of the path in place. *)
Definition propagate_path (current_material : Material)
    (current_surface : Surface) (rp : RayPath) : result RayPath :=
  current_bundle ← list_last (raybundles rp);
  mret {| raybundles := removelast (raybundles rp) ++
            [propagate current_material current_bundle current_surface] |}.

(** Second inner loop of [seqtrace]; returns the active paths as the loop
    leaves them, and [rpaths_new]. *)
Fixpoint deflect_loop (deflection : RayBundle → list RayBundle)
    (rpaths rpaths_new : list RayPath) : result (list RayPath * list RayPath) :=
  match rpaths with
  | [] => Ok ([], rpaths_new)
  | rp :: rest =>
      current_bundle ← list_last (raybundles rp);
      let raybundles_ := deflection current_bundle in
      let rpaths_new := rpaths_new ++
        map (λ rb, let rpathprime := deepcopy rp in appendRayBundle rpathprime rb)
            (tail raybundles_) in
      rb0 ← list_getitem raybundles_ 0;
      let rp := appendRayBundle rp rb0 in
      '(rest', rpaths_new) ← deflect_loop deflection rest rpaths_new;
      mret (rp :: rest', rpaths_new)
  end.

(** Body of the loop over the sequence. *)
Definition seqtrace_body (self : OpticalElement) (background_medium : Material)
    (splitup : bool) (state : Material * list RayPath)
    (entry : string * options_dict) : result (Material * list RayPath) :=
  let '(current_material, rpaths) := state in
  let '(surfkey, surfoptions) := entry in
  let refract_flag := negb (default false (surfoptions !! "is_mirror")) in
  current_surface ← getitem (surfaces self) surfkey;
  conn ← getitem (surf_mat_connection self) surfkey;
  let '(mnmat, pnmat) := conn in
  let mnmat := default background_medium (materials self !! mnmat) in
  let pnmat := default background_medium (materials self !! pnmat) in
  rpaths ← mapM (propagate_path current_material current_surface) rpaths;
  let current_material :=
    if refract_flag
    then findoutWhichMaterial mnmat pnmat current_material
    else current_material in
  let current_material_deflection (flag : bool) :=
    if flag then refract current_material else reflect current_material in
  res ← deflect_loop
    (λ current_bundle,
       current_material_deflection refract_flag current_bundle current_surface splitup)
    rpaths [];
  let '(rpaths, rpaths_new) := res in
  mret (current_material, rpaths ++ rpaths_new).

Fixpoint seqtrace_loop (self : OpticalElement) (background_medium : Material)
    (splitup : bool) (sequence : list (string * options_dict))
    (state : Material * list RayPath) : result (Material * list RayPath) :=
  match sequence with
  | [] => Ok state
  | entry :: rest =>
      state ← seqtrace_body self background_medium splitup state entry;
      seqtrace_loop self background_medium splitup rest state
  end.

(** [OpticalElement.seqtrace] *)
Definition seqtrace (self : OpticalElement) (raybundle : RayBundle)
    (sequence : list (string * options_dict)) (background_medium : Material)
    (splitup : bool) : result (list RayPath) :=
  let current_material := background_medium in
  let rpath := RayPath_init raybundle in
  let rpaths := [rpath] in
  state ← seqtrace_loop self background_medium splitup sequence
            (current_material, rpaths);
  mret state.2.

End trace.

(** ** Pilot-ray transfer matrices *)

(** What [calculateXYUV] takes from numpy and from the frames: arrays,
    the last position and wave vector of a bundle, the maps into a frame,
    and the matrix operations. *)
Class PilotNumerics `{MaterialInterface} := {
  array : Type;
  x_last : RayBundle → array;
  k_last : RayBundle → array;
  returnGlobalToLocalPoints : LocalCoordinates → array → array;
  returnGlobalToLocalDirections : LocalCoordinates → array → array;
  generate_matrix_6xN : string → array → array → array;
  einsum_ij_kj : array → array → array;
  transpose : array → array;
  dot : array → array → array;
  linalg_inv : array → result array
}.

Section pilot.
Context `{PilotNumerics}.

(** The local function [bestfit_transfer] of [calculateXYUV]. *)
Definition bestfit_transfer (X Y : array) : result array :=
  let XX := transpose (einsum_ij_kj X X) in
  let YX := transpose (einsum_ij_kj X Y) in
  XXinv ← linalg_inv XX;
  let transfer := dot YX XXinv in
  mret transfer.

(** The loop of [calculateXYUV] over the hits of the pilot path. *)
Fixpoint calculateXYUV_loop (self : OpticalElement) (pilotbundle_generation : string)
    (hits : list (RayBundle * RayBundle * (string * string * nat)))
    (XYUVmatrices : gmap (string * string * nat) array)
    : result (gmap (string * string * nat) array) :=
  match hits with
  | [] => Ok XYUVmatrices
  | (pb1, pb2, (s1, s2, numhit)) :: rest =>
      surf1 ← getitem (surfaces self) s1;
      let lcstart := surf_rootcoordinatesystem surf1 in
      surf2 ← getitem (surfaces self) s2;
      let lcend := surf_rootcoordinatesystem surf2 in
      let startx := returnGlobalToLocalPoints lcstart (x_last pb1) in
      let startk := returnGlobalToLocalDirections lcstart (k_last pb1) in
      let endx := returnGlobalToLocalPoints lcend (x_last pb2) in
      let endk := returnGlobalToLocalDirections lcend (k_last pb2) in
      let startmatrix := generate_matrix_6xN pilotbundle_generation startx startk in
      let endmatrix := generate_matrix_6xN pilotbundle_generation endx endk in
      transfer ← bestfit_transfer startmatrix endmatrix;
      invtransfer ← bestfit_transfer endmatrix startmatrix;
      invtransfer2 ← linalg_inv transfer;
      let XYUVmatrices := <[(s1, s2, numhit) := transfer]> XYUVmatrices in
      let XYUVmatrices := <[(s2, s1, numhit) := invtransfer]> XYUVmatrices in
      calculateXYUV_loop self pilotbundle_generation rest XYUVmatrices
  end.

(** [OpticalElement.calculateXYUV] *)
Definition calculateXYUV (self : OpticalElement) (pilotinitbundle : RayBundle)
    (sequence : list (string * options_dict)) (background_medium : Material)
    (pilotraypath_nr : nat) (pilotbundle_generation : string)
    : result (RayPath * gmap (string * string * nat) array) :=
  let '(hitlist, optionshitlistdict) := sequence_to_hitlist sequence in
  pilotraypaths ← seqtrace self pilotinitbundle sequence background_medium true;
  pilotraypath ← list_getitem pilotraypaths pilotraypath_nr;
  let startpilotbundle := removelast (raybundles pilotraypath) in
  let endpilotbundle := tail (raybundles pilotraypath) in
  XYUVmatrices ← calculateXYUV_loop self pilotbundle_generation
                   (zip (zip startpilotbundle endpilotbundle) hitlist) ∅;
  mret (pilotraypath, XYUVmatrices).

End pilot.

(** ** Surface shapes *)

(** A column of a 3xN array: [v[0]], [v[1]], [v[2]] of one ray. *)
Record vec3 := mkvec3 { c0 : R; c1 : R; c2 : R }.

(** The maps of the shape's [lc] that [intersect] uses, for one column. *)
Record LocalFrame := {
  lc_returnGlobalToLocalPoints : vec3 → vec3;
  lc_returnGlobalToLocalDirections : vec3 → vec3;
  lc_returnLocalToGlobalPoints : vec3 → vec3
}.

(** What [intersect] reads from and appends to a ray bundle: the last
    position, wave vector and field of every ray, the last direction
    ([returnKtoD()[-1]]), the attributes [rayDir], [o] and [d], and
    [append]. *)
Class RayBundleAccess := {
  Bundle : Type;
  kvec : Type;
  evec : Type;
  bundle_x_last : Bundle → list vec3;
  bundle_k_last : Bundle → list kvec;
  bundle_Efield_last : Bundle → list evec;
  bundle_returnKtoD_last : Bundle → list vec3;
  bundle_rayDir : Bundle → list vec3;
  bundle_o : Bundle → list vec3;
  bundle_d : Bundle → list vec3;
  bundle_append : Bundle → list vec3 → list kvec → list evec → list bool → Bundle
}.

(** [scipy.optimize.fsolve(func, x0, xtol=..., maxfev=...)]; [maxfev] is
    the cap on function evaluations, and its default 0 stands for
    100*(N+1) with N the length of [x0]. *)
Class RootFinder := {
  fsolve : (list R → list R) → list R → R → nat → list R
}.

Section shapes.
Context `{RayBundleAccess} `{RootFinder}.
Local Open Scope R_scope.

(** numpy comparisons of one entry. *)
Definition np_ge (a b : R) : bool := if Rge_dec a b then true else false.
Definition np_gt (a b : R) : bool := if Rgt_dec a b then true else false.

(** [r0 + rayDir * t] for one ray. *)
Definition ray_at (r0 rayDir : vec3) (t : R) : vec3 :=
  mkvec3 (c0 r0 + c0 rayDir * t) (c1 r0 + c1 rayDir * t) (c2 r0 + c2 rayDir * t).

(** [Shape.getLocalRayBundleForIntersect] *)
Definition getLocalRayBundleForIntersect (lc : LocalFrame) (raybundle : Bundle)
    : list vec3 * list vec3 :=
  let localo := map (lc_returnGlobalToLocalPoints lc) (bundle_x_last raybundle) in
  let globald := bundle_returnKtoD_last raybundle in
  let locald := map (lc_returnGlobalToLocalDirections lc) globald in
  (localo, locald).

Record Conic := {
  curvature : R;
  conic : R;
  conic_lc : LocalFrame
}.

(** The three coefficients of [Conic.intersect] for one ray. *)
Definition Conic_F (self : Conic) (r0 rayDir : vec3) : R :=
  let curv := curvature self in
  let cc := conic self in
  c2 rayDir - curv * (c0 rayDir * c0 r0 + c1 rayDir * c1 r0 + c2 rayDir * c2 r0 * (1 + cc)).
Definition Conic_G (self : Conic) (r0 rayDir : vec3) : R :=
  let curv := curvature self in
  let cc := conic self in
  curv * ((c0 r0)^2 + (c1 r0)^2 + (c2 r0)^2 * (1 + cc)) - 2 * c2 r0.
Definition Conic_H (self : Conic) (r0 rayDir : vec3) : R :=
  let curv := curvature self in
  let cc := conic self in
  - curv - cc * curv * (c2 rayDir)^2.

Definition Conic_square (self : Conic) (r0 rayDir : vec3) : R :=
  (Conic_F self r0 rayDir)^2 + Conic_H self r0 rayDir * Conic_G self r0 rayDir.

(** The path length [t] of one ray. *)
Definition Conic_t (self : Conic) (r0 rayDir : vec3) : R :=
  let division_part := Conic_F self r0 rayDir + sqrt (Conic_square self r0 rayDir) in
  Conic_G self r0 rayDir / division_part.

(** [validIndices] of [Conic.intersect]. *)
Definition Conic_validIndices (self : Conic) (r0 rayDir : list vec3) : list bool :=
  zip_with (λ o d, np_ge (Conic_square self o d) 0) r0 rayDir.

(** [Conic.intersect] *)
Definition Conic_intersect (self : Conic) (raybundle : Bundle) : Bundle :=
  let '(r0, rayDir) := getLocalRayBundleForIntersect (conic_lc self) raybundle in
  let t := zip_with (Conic_t self) r0 rayDir in
  let intersection := zip_with (λ od t, ray_at od.1 od.2 t) (zip r0 rayDir) t in
  let validIndices := Conic_validIndices self r0 rayDir in
  let globalinter := map (lc_returnLocalToGlobalPoints (conic_lc self)) intersection in
  bundle_append raybundle globalinter (bundle_k_last raybundle)
    (bundle_Efield_last raybundle) validIndices.

(** [Cylinder] inherits the parameters of [Conic] and overrides
    [intersect]. *)
Definition Cylinder_F (self : Conic) (r0 rayDir : vec3) : R :=
  let curv := curvature self in
  let cc := conic self in
  c2 rayDir - curv * (c1 rayDir * c1 r0 + c2 rayDir * c2 r0 * (1 + cc)).
Definition Cylinder_G (self : Conic) (r0 rayDir : vec3) : R :=
  let curv := curvature self in
  let cc := conic self in
  curv * ((c1 r0)^2 + (c2 r0)^2 * (1 + cc)) - 2 * c2 r0.
Definition Cylinder_H (self : Conic) (r0 rayDir : vec3) : R :=
  let curv := curvature self in
  let cc := conic self in
  - curv - cc * curv * (c2 rayDir)^2.

Definition Cylinder_square (self : Conic) (r0 rayDir : vec3) : R :=
  (Cylinder_F self r0 rayDir)^2 + Cylinder_H self r0 rayDir * Cylinder_G self r0 rayDir.

Definition Cylinder_t (self : Conic) (r0 rayDir : vec3) : R :=
  Cylinder_G self r0 rayDir /
    (Cylinder_F self r0 rayDir + sqrt (Cylinder_square self r0 rayDir)).

(** [validIndices] of [Cylinder.intersect]. *)
Definition Cylinder_validIndices (self : Conic) (r0 rayDir : list vec3) : list bool :=
  zip_with (λ o d, np_gt (Cylinder_square self o d) 0) r0 rayDir.

(** [Cylinder.intersect] *)
Definition Cylinder_intersect (self : Conic) (raybundle : Bundle) : Bundle :=
  let '(r0, rayDir) := getLocalRayBundleForIntersect (conic_lc self) raybundle in
  let t := zip_with (Cylinder_t self) r0 rayDir in
  let intersection :=
    zip_with (λ od t, ray_at od.1 od.2 t) (zip r0 (bundle_rayDir raybundle)) t in
  let validIndices := Cylinder_validIndices self r0 rayDir in
  let globalinter := map (lc_returnLocalToGlobalPoints (conic_lc self)) intersection in
  bundle_append raybundle globalinter (bundle_k_last raybundle)
    (bundle_Efield_last raybundle) validIndices.

(** [ExplicitShape]: the annotations ["tol"] and ["iterations"] of
    [FreeShape.createAnnotationsAndStructure], the sag function [F] and
    the frame. *)
Record ExplicitShape := {
  tol : R;
  iterations : nat;
  F : R → R → R;
  explicit_lc : LocalFrame
}.

(** The local function [Fwrapper] of [ExplicitShape.intersect], for one
    ray and for the batch. *)
Definition Fwrapper_ray (self : ExplicitShape) (t : R) (r0 rayDir : vec3) : R :=
  c2 r0 + t * c2 rayDir - F self (c0 r0 + t * c0 rayDir) (c1 r0 + t * c1 rayDir).

Definition Fwrapper (self : ExplicitShape) (t : list R) (r0 rayDir : list vec3) : list R :=
  zip_with (λ t od, Fwrapper_ray self t od.1 od.2) t (zip r0 rayDir).

(** [validIndices] of [ExplicitShape.intersect]: [np.ones_like(r0[0])]. *)
Definition ExplicitShape_validIndices (r0 : list vec3) : list bool :=
  map (λ _, true) r0.

(** The path lengths of [ExplicitShape.intersect]: the call of [fsolve]. *)
Definition ExplicitShape_t (self : ExplicitShape) (r0 rayDir : list vec3) : list R :=
  let t := map (λ _, 0) r0 in
  fsolve (λ t, Fwrapper self t r0 rayDir) t (tol self) 0%nat.

(** [ExplicitShape.intersect] *)
Definition ExplicitShape_intersect (self : ExplicitShape) (raybundle : Bundle) : Bundle :=
  let '(r0, rayDir) := getLocalRayBundleForIntersect (explicit_lc self) raybundle in
  let t := ExplicitShape_t self r0 rayDir in
  let globalinter :=
    map (lc_returnLocalToGlobalPoints (explicit_lc self))
        (zip_with (λ od t, ray_at od.1 od.2 t) (zip r0 rayDir) t) in
  let validIndices := ExplicitShape_validIndices r0 in
  bundle_append raybundle globalinter (bundle_k_last raybundle)
    (bundle_Efield_last raybundle) validIndices.

(** [ImplicitShape]: the attribute [tol] that [intersect] reads, the
    annotation ["iterations"] of [FreeShape.createAnnotationsAndStructure],
    the implicit function [F], and the normal as [Shape.getNormal] returns
    it for the shape (it goes through [implicitsolver], with its random
    start values, and through the [gradF] of a subclass; it is taken as
    given). *)
Record ImplicitShape := {
  implicit_tol : R;
  implicit_iterations : nat;
  implicit_F : R → R → R → R;
  implicit_getNormal : list R → list R → list vec3
}.

(** The local function [Fwrapper] of [ImplicitShape.intersect], for one
    ray and for the batch. *)
Definition ImplicitShape_Fwrapper_ray (self : ImplicitShape) (t : R)
    (r0 rayDir : vec3) : R :=
  implicit_F self (c0 r0 + t * c0 rayDir) (c1 r0 + t * c1 rayDir)
                  (c2 r0 + t * c2 rayDir).

Definition ImplicitShape_Fwrapper (self : ImplicitShape) (t : list R)
    (r0 rayDir : list vec3) : list R :=
  zip_with (λ t od, ImplicitShape_Fwrapper_ray self t od.1 od.2) t (zip r0 rayDir).

(** [validIndices] of [ImplicitShape.intersect]: [np.ones_like(r0[0])],
    then the assignment [validIndices[0] = True], which raises
    [IndexError] on a bundle without rays. *)
Definition ImplicitShape_validIndices (r0 : list vec3) : result (list bool) :=
  let validIndices := map (λ _, true) r0 in
  if decide (0 < length validIndices)%nat
  then Ok (<[0%nat := true]> validIndices)
  else Raise IndexError.

(** The path lengths of [ImplicitShape.intersect]: the call of [fsolve]. *)
Definition ImplicitShape_t (self : ImplicitShape) (r0 rayDir : list vec3) : list R :=
  let t := map (λ _, 0) r0 in
  fsolve (λ t, ImplicitShape_Fwrapper self t r0 rayDir) t (implicit_tol self) 0%nat.

(** [ImplicitShape.intersect]: it returns the points, the path lengths,
    the normals and the flags, and appends nothing to the bundle. *)
Definition ImplicitShape_intersect (self : ImplicitShape) (raybundle : Bundle)
    : result (list vec3 * list R * list vec3 * list bool) :=
  let rayDir := bundle_d raybundle in
  let r0 := bundle_o raybundle in
  let t := ImplicitShape_t self r0 rayDir in
  let intersection := zip_with (λ od t, ray_at od.1 od.2 t) (zip r0 rayDir) t in
  validIndices ← ImplicitShape_validIndices r0;
  let normal := implicit_getNormal self (map c0 intersection) (map c1 intersection) in
  mret (intersection, t, normal, validIndices).

End shapes.

(** ** Zernike index conversions *)

Section zernike.
Local Open Scope Z_scope.

(** A Python [float] is an IEEE 754 binary64 number: a [spec_float] with
    53 bits of precision and the exponent bound 1024.  Every operation
    rounds to the nearest float, ties to even. *)
Definition float : Type := spec_float.
Definition float_prec : Z := 53.
Definition float_emax : Z := 1024.

Definition float_add : float → float → float := SFadd float_prec float_emax.
Definition float_sub : float → float → float := SFsub float_prec float_emax.
Definition float_mul : float → float → float := SFmul float_prec float_emax.

(** The conversion of an [int] to a [float], as [math.sqrt(j)] and the
    arithmetic of an [int] with a [float] make it: the nearest float, and
    [OverflowError] when the integer is too large. *)
Definition float_of_int (i : Z) : result float :=
  match binary_normalize float_prec float_emax i 0 false with
  | S754_infinity _ => Raise OverflowError
  | x => Ok x
  end.

(** [i / 2] of an [int]: the true quotient, rounded once. *)
Definition int_truediv_2 (i : Z) : result float :=
  match binary_normalize float_prec float_emax i (-1) false with
  | S754_infinity _ => Raise OverflowError
  | x => Ok x
  end.

(** The float literals of the code. *)
Definition float_1 : float := binary_normalize float_prec float_emax 1 0 false.
Definition float_2 : float := binary_normalize float_prec float_emax 2 0 false.
Definition float_8 : float := binary_normalize float_prec float_emax 8 0 false.
Definition float_half : float := binary_normalize float_prec float_emax 1 (-1) false.

(** [math.sqrt]: [ValueError] below zero. *)
Definition math_sqrt (x : float) : result float :=
  match x with
  | S754_finite true _ _ | S754_infinity true => Raise ValueError
  | _ => Ok (SFsqrt float_prec float_emax x)
  end.

(** A float as an [int], the quotient by the power of two taken with
    [quotient]: [OverflowError] for an infinity, [ValueError] for a nan. *)
Definition int_of_float (quotient : Z → Z → Z) (x : float) : result Z :=
  match x with
  | S754_zero _ => Ok 0
  | S754_finite s m e =>
      let v := if s then Z.neg m else Z.pos m in
      Ok (if decide (0 ≤ e) then v * 2 ^ e else quotient v (2 ^ (- e)))
  | S754_infinity _ => Raise OverflowError
  | S754_nan => Raise ValueError
  end.

(** [math.floor], [math.ceil] and [int] of a float. *)
Definition math_floor : float → result Z := int_of_float Z.div.
Definition math_ceil : float → result Z := int_of_float (λ a b, - ((- a) `div` b)).
Definition py_int : float → result Z := int_of_float Z.quot.

(** The C library that the interpreter calls for a power of a float.
    [c_pow_2 x] is [pow(x, 2.0)]; its rounding is the library's own. *)
Class CMathLibrary := {
  c_pow_2 : float → float
}.

(** [x**2] of a float: [pow(x, 2.0)], and [OverflowError] when the result
    is too large. *)
Definition float_square `{CMathLibrary} (x : float) : result float :=
  match c_pow_2 x with
  | S754_infinity _ => Raise OverflowError
  | y => Ok y
  end.

(** [ZernikeFringe.jtonm] *)
Definition ZernikeFringe_jtonm (j : Z) : result (Z * Z) :=
  j_float ← float_of_int j;
  root ← math_sqrt j_float;
  ceiling ← math_ceil root;
  let next_sq := ceiling ^ 2 in
  next_sq_float ← float_of_int next_sq;
  root ← math_sqrt next_sq_float;
  m_plus_n ← py_int (float_sub (float_mul float_2 root) float_2);
  half ← int_truediv_2 (next_sq - j);
  m ← math_ceil half;
  let n := m_plus_n - m in
  let m := (-1) ^ ((next_sq - j) `mod` 2) * m in
  Ok (n, m).

(** [ZernikeFringe.nmtoj]; [(1 - np.sign(m))/2] is 0.0, 0.5 or 1.0. *)
Definition ZernikeFringe_nmtoj `{CMathLibrary} (n_m_pair : Z * Z) : result Z :=
  let '(n, m) := n_m_pair in
  half ← int_truediv_2 (n + Z.abs m);
  square ← float_square (float_add half float_1);
  twice ← float_of_int (2 * Z.abs m);
  sign_part ← int_truediv_2 (1 - Z.sgn m);
  py_int (float_add (float_sub square twice) sign_part).

(** [ZernikeANSI.jtonm] *)
Definition ZernikeANSI_jtonm (j : Z) : result (Z * Z) :=
  let j := j - 1 in
  j_float ← float_of_int j;
  root ← math_sqrt (float_add float_1 (float_mul float_8 j_float));
  n ← math_floor (float_mul (float_add (SFopp float_1) root) float_half);
  let m := n - 2 * j + n * (n + 1) in
  Ok (n, - m).

(** [ZernikeANSI.nmtoj] *)
Definition ZernikeANSI_nmtoj (n_m_pair : Z * Z) : result Z :=
  let '(n, m) := n_m_pair in
  half ← int_truediv_2 ((n + 2) * n + m);
  j ← py_int half;
  let j := j + 1 in
  Ok j.

End zernike.


(** ** Further methods of [OpticalElement] *)

Section element_more.
Context `{LocalCoordinatesTree}.

(** The loop of [OpticalElement.hitlist_to_sequence] over
    [enumerate(hitlist)]; [len_hitlist] is [len(hitlist)]. *)
Fixpoint hitlist_to_sequence_loop (len_hitlist : nat)
    (optionshitlistdict : gmap (string * string * nat) (options_dict * options_dict))
    (enumerated : list (nat * (string * string * nat)))
    (seq : list (string * bool * options_dict))
    : result (list (string * bool * options_dict)) :=
  match enumerated with
  | [] => Ok seq
  | (ind, (sb, se, hit)) :: rest =>
      opts ← getitem optionshitlistdict (sb, se, hit);
      let pair := (sb, true, opts.1) in
      let seq := seq ++ [pair] in
      seq ← (if decide (ind = len_hitlist - 1)
             then opts ← getitem optionshitlistdict (sb, se, hit);
                  let pair := (se, true, opts.2) in
                  mret (seq ++ [pair])
             else mret seq);
      hitlist_to_sequence_loop len_hitlist optionshitlistdict rest seq
  end.

(** [OpticalElement.hitlist_to_sequence] *)
Definition hitlist_to_sequence
    (xxx_todo_changeme : list (string * string * nat) *
                         gmap (string * string * nat) (options_dict * options_dict))
    : result (list (string * bool * options_dict)) :=
  let '(hitlist, optionshitlistdict) := xxx_todo_changeme in
  hitlist_to_sequence_loop (length hitlist) optionshitlistdict
    (zip (seq 0 (length hitlist)) hitlist) [].

End element_more.

(** ** Sag, gradient and normal of the conic shapes *)

Section conic_more.
Local Open Scope R_scope.

(** numpy's [a <= b] on one entry. *)
Definition np_le (a b : R) : bool := if Rle_dec a b then true else false.

(** [np.sqrt] on one entry: not a number below zero ([None] stands for
    [nan]). *)
Definition np_sqrt (a : R) : option R :=
  if Rle_dec 0 a then Some (sqrt a) else None.

(** [Conic.conic_function] on one entry of [rsquared].  The two masked
    assignments put [nan] where the term under the root is not positive
    and clear that term there. *)
Definition conic_function (self : Conic) (rsquared : R) : option R :=
  let sqrtterm := 1 - (1 + conic self) * (curvature self)^2 * rsquared in
  let rsquared := if np_le sqrtterm 0 then None else Some rsquared in
  let sqrtterm := if np_le sqrtterm 0 then 0 else sqrtterm in
  z ← rsquared;
  Some (curvature self * z / (1 + sqrt sqrtterm)).

(** [Conic.getSag] *)
Definition Conic_getSag (self : Conic) (x y : R) : option R :=
  conic_function self (x^2 + y^2).


(** [Conic.getGrad]: the first two components do not depend on the sag,
    the third is [nan] where the sag is. *)
Definition Conic_getGrad (self : Conic) (x y : R) : R * R * option R :=
  let z := Conic_getSag self x y in
  let curv := curvature self in
  let cc := conic self in
  (- curv * x, - curv * y, (λ z, 1 - curv * z * (1 + cc)) <$> z).

(** [Shape.getNormal] for the gradient of a conic: [gradient/absgradient],
    all of whose components are [nan] when one of the gradient is. *)
Definition Conic_getNormal (self : Conic) (x y : R) : option vec3 :=
  let '(gx, gy, gz) := Conic_getGrad self x y in
  gz ← gz;
  let absgradient := sqrt (gx^2 + gy^2 + gz^2) in
  Some (mkvec3 (gx / absgradient) (gy / absgradient) (gz / absgradient)).

(** [Asphere]: curvature, conic constant and the polynomial coefficients
    A2, A4, ... in their order. *)
Record Asphere := {
  asphere_curv : R;
  asphere_cc : R;
  asphere_acoeffs : list R
}.

(** [Asphere.sqrtfun] *)
Definition Asphere_sqrtfun (self : Asphere) (r2 : R) : option R :=
  np_sqrt (1 - (asphere_curv self)^2 * (1 + asphere_cc self) * r2).

(** The loop of [Asphere.F] over [enumerate(acoeffs)]. *)
Fixpoint Asphere_F_loop (r2 : R) (enumerated : list (nat * R)) (res : R) : R :=
  match enumerated with
  | [] => res
  | (n, an) :: rest => Asphere_F_loop r2 rest (res + an * r2 ^ (n + 1))
  end.

(** [Asphere.F] *)
Definition Asphere_F (self : Asphere) (x y : R) : option R :=
  let r2 := x^2 + y^2 in
  sq ← Asphere_sqrtfun self r2;
  let res := asphere_curv self * r2 / (1 + sq) in
  Some (Asphere_F_loop r2
          (zip (seq 0 (length (asphere_acoeffs self))) (asphere_acoeffs self)) res).

End conic_more.

(** ** Gradients of the explicit shapes *)

Section explicit_more.
Local Open Scope R_scope.

(** numpy's [a / b] on one entry: not a finite number for a divisor 0
    ([None] stands for [nan] and for [inf]). *)
Definition np_divide (a b : R) : option R :=
  if Req_EM_T b 0 then None else Some (a / b).

(** Python's [a / b] on two floats: it raises [ZeroDivisionError] for a
    divisor 0 ([None] stands for the exception). *)
Definition py_divide (a b : R) : option R :=
  if Req_EM_T b 0 then None else Some (a / b).

(** [np.where(condition, a, b)] on one entry. *)
Definition np_where (condition : bool) (a b : R) : R :=
  if condition then a else b.

(** The loop of [Asphere.gradF] over [enumerate(acoeffs)] on [res[0]] and
    [res[1]]. *)
Fixpoint Asphere_gradF_loop (x y r2 : R) (enumerated : list (nat * R))
    (res : R * R) : R * R :=
  match enumerated with
  | [] => res
  | (n, an) :: rest =>
      Asphere_gradF_loop x y r2 rest
        (res.1 + - 2 * x * INR (n + 1) * an * r2 ^ n,
         res.2 + - 2 * y * INR (n + 1) * an * r2 ^ n)
  end.

(** [Asphere.gradF]; [z] is not used.  The result is [None] where one of
    its entries is not a finite number. *)
Definition Asphere_gradF (self : Asphere) (x y z : R) : option vec3 :=
  let r2 := x^2 + y^2 in
  sq ← Asphere_sqrtfun self r2;
  res0 ← np_divide (- asphere_curv self * x) sq;
  res1 ← np_divide (- asphere_curv self * y) sq;
  let res := Asphere_gradF_loop x y r2
               (zip (seq 0 (length (asphere_acoeffs self))) (asphere_acoeffs self))
               (res0, res1) in
  Some (mkvec3 res.1 res.2 1).

(** [XYPolynomials]: the norm radius and the coefficients as
    [getXYParameters] returns them, (xpow, ypow, coefficient).  The powers
    are natural numbers, as the keys [CX<xpow>Y<ypow>] are written. *)
Record XYPolynomials := {
  xy_normradius : R;
  xy_coeffs : list (nat * nat * R)
}.

(** The loop of [XYPolynomials.F] over the coefficients.  [None] stands
    for the [ZeroDivisionError] of the normalization. *)
Fixpoint XYPolynomials_F_loop (normradius x y : R) (coeffs : list (nat * nat * R))
    (res : R) : option R :=
  match coeffs with
  | [] => Some res
  | (xpow, ypow, coefficient) :: rest =>
      normalization ← py_divide 1 (normradius ^ (xpow + ypow));
      XYPolynomials_F_loop normradius x y rest
        (res + x ^ xpow * y ^ ypow * coefficient * normalization)
  end.

(** [XYPolynomials.F] *)
Definition XYPolynomials_F (self : XYPolynomials) (x y : R) : option R :=
  XYPolynomials_F_loop (xy_normradius self) x y (xy_coeffs self) 0.

(** The loop of [XYPolynomials.gradF] over the coefficients on [res[0]]
    and [res[1]]. *)
Fixpoint XYPolynomials_gradF_loop (normradius x y : R)
    (coeffs : list (nat * nat * R)) (res : R * R) : option (R * R) :=
  match coeffs with
  | [] => Some res
  | (xpow, ypow, coefficient) :: rest =>
      normalization ← py_divide 1 (normradius ^ (xpow + ypow));
      let xpm1 := np_where (bool_decide (1 ≤ xpow)%nat) (x ^ (xpow - 1)) 0 in
      let ypm1 := np_where (bool_decide (1 ≤ ypow)%nat) (y ^ (ypow - 1)) 0 in
      XYPolynomials_gradF_loop normradius x y rest
        (res.1 + - INR xpow * xpm1 * y ^ ypow * coefficient * normalization,
         res.2 + - INR ypow * x ^ xpow * ypm1 * coefficient * normalization)
  end.

(** [XYPolynomials.gradF]; [z] is not used.  [None] as in
    [XYPolynomials_F_loop]. *)
Definition XYPolynomials_gradF (self : XYPolynomials) (x y z : R) : option vec3 :=
  res ← XYPolynomials_gradF_loop (xy_normradius self) x y (xy_coeffs self) (0, 0);
  Some (mkvec3 res.1 res.2 1).

(** The loop of [XYPolynomials.hessF] over the coefficients on
    [res[0, 0]], [res[0, 1]] and [res[1, 1]]. *)
Fixpoint XYPolynomials_hessF_loop (normradius x y : R)
    (coeffs : list (nat * nat * R)) (res : R * R * R) : option (R * R * R) :=
  match coeffs with
  | [] => Some res
  | (xpow, ypow, coefficient) :: rest =>
      normalization ← py_divide 1 (normradius ^ (xpow + ypow));
      let xpm1 := np_where (bool_decide (1 ≤ xpow)%nat) (x ^ (xpow - 1)) 0 in
      let ypm1 := np_where (bool_decide (1 ≤ ypow)%nat) (y ^ (ypow - 1)) 0 in
      let xpm2 := np_where (bool_decide (2 ≤ xpow)%nat) (x ^ (xpow - 2)) 0 in
      let ypm2 := np_where (bool_decide (2 ≤ ypow)%nat) (y ^ (ypow - 2)) 0 in
      XYPolynomials_hessF_loop normradius x y rest
        (res.1.1 + - INR xpow * (INR xpow - 1) * xpm2 * y ^ ypow
                   * coefficient * normalization,
         res.1.2 + - INR xpow * INR ypow * xpm1 * ypm1 * coefficient * normalization,
         res.2 + - INR ypow * (INR ypow - 1) * x ^ xpow * ypm2
                 * coefficient * normalization)
  end.

(** [XYPolynomials.hessF]: the three rows of the matrix; [z] is not used.
    After the loop [res[1, 0]] is set to [res[0, 1]]; the other entries
    stay 0.  [None] as in [XYPolynomials_F_loop]. *)
Definition XYPolynomials_hessF (self : XYPolynomials) (x y z : R)
    : option (vec3 * vec3 * vec3) :=
  res ← XYPolynomials_hessF_loop (xy_normradius self) x y (xy_coeffs self) (0, 0, 0);
  Some (mkvec3 res.1.1 res.1.2 0, mkvec3 res.1.2 res.2 0, mkvec3 0 0 0).

(** [Biconic]: the parameters as [getBiconicParameters] returns them; the
    coefficients are the pairs (A2, B2), (A4, B4), ... in their order. *)
Record Biconic := {
  biconic_curvx : R;
  biconic_curvy : R;
  biconic_ccx : R;
  biconic_ccy : R;
  biconic_coeffs : list (R * R)
}.

(** [Biconic.sqrtfun] *)
Definition Biconic_sqrtfun (self : Biconic) (x y : R) : option R :=
  np_sqrt (1 - (biconic_curvx self)^2 * (1 + biconic_ccx self) * x^2
             - (biconic_curvy self)^2 * (1 + biconic_ccy self) * y^2).

(** The loop of [Biconic.F] over [enumerate(coeffs)]. *)
Fixpoint Biconic_F_loop (r2 ast2 : R) (enumerated : list (nat * (R * R))) (res : R) : R :=
  match enumerated with
  | [] => res
  | (n, (an, bn)) :: rest =>
      Biconic_F_loop r2 ast2 rest (res + an * (r2 - bn * ast2) ^ (n + 1))
  end.

(** [Biconic.F] *)
Definition Biconic_F (self : Biconic) (x y : R) : option R :=
  let r2 := x^2 + y^2 in
  let ast2 := x^2 - y^2 in
  sq ← Biconic_sqrtfun self x y;
  let res := (biconic_curvx self * x^2 + biconic_curvy self * y^2) / (1 + sq) in
  Some (Biconic_F_loop r2 ast2
          (zip (seq 0 (length (biconic_coeffs self))) (biconic_coeffs self)) res).

(** The loop of [Biconic.gradF] over [enumerate(coeffs)] on [res[0]] and
    [res[1]]. *)
Fixpoint Biconic_gradF_loop (x y r2 ast2 : R) (enumerated : list (nat * (R * R)))
    (res : R * R) : R * R :=
  match enumerated with
  | [] => res
  | (n, (an, bn)) :: rest =>
      Biconic_gradF_loop x y r2 ast2 rest
        (res.1 + 2 * an * INR (n + 1) * x * (bn - 1) * (- bn * ast2 + r2) ^ n,
         res.2 + - 2 * an * INR (n + 1) * y * (bn + 1) * (- bn * ast2 + r2) ^ n)
  end.

(** [Biconic.gradF]; [z] is not used.  [None] as in [Asphere_gradF]. *)
Definition Biconic_gradF (self : Biconic) (x y z : R) : option vec3 :=
  let cx := biconic_curvx self in
  let cy := biconic_curvy self in
  let ccx := biconic_ccx self in
  let ccy := biconic_ccy self in
  let r2 := x^2 + y^2 in
  let ast2 := x^2 - y^2 in
  sq ← Biconic_sqrtfun self x y;
  res0 ← np_divide (- cx * x * (cx * (ccx + 1) * (cx * x^2 + cy * y^2)
                                + 2 * (sq + 1) * sq))
                   ((sq + 1)^2 * sq);
  res1 ← np_divide (- cy * y * (cy * (ccy + 1) * (cx * x^2 + cy * y^2)
                                + 2 * (sq + 1) * sq))
                   ((sq + 1)^2 * sq);
  let res := Biconic_gradF_loop x y r2 ast2
               (zip (seq 0 (length (biconic_coeffs self))) (biconic_coeffs self))
               (res0, res1) in
  Some (mkvec3 res.1 res.2 1).

End explicit_more.

(** ** Vocabulary of the hit-list properties *)

(** The consecutive ordered key pairs of a sequence. *)
Definition transitions (seq : list (string * options_dict)) : list (string * string) :=
  zip (removelast seq.*1) (tail seq.*1).

(** How often the ordered pair [p] occurs in [l]. *)
Definition occurrences (p : string * string) (l : list (string * string)) : nat :=
  length (filter (λ q, q = p) l).

(** The hits of the transitions [todo] that follow the transitions [seen]:
    each carries the number of its occurrences so far, itself included. *)
Fixpoint hits_from (seen todo : list (string * string)) : list (string * string * nat) :=
  match todo with
  | [] => []
  | p :: rest => (p.1, p.2, occurrences p (seen ++ [p])) :: hits_from (seen ++ [p]) rest
  end.

(** ** Vocabulary of the trace properties *)

Section trace_vocabulary.
Context `{MaterialInterface}.

(** The deflection that [seqtrace] calls at a sequence entry. *)
Definition deflection_at (current_material : Material) (surfoptions : options_dict)
    (current_surface : Surface) (splitup : bool) (b : RayBundle) : list RayBundle :=
  if negb (default false (surfoptions !! "is_mirror"))
  then refract current_material b current_surface splitup
  else reflect current_material b current_surface splitup.

(** The material in force behind a sequence entry. *)
Definition material_behind (self : OpticalElement) (background_medium : Material)
    (conn : matkey * matkey) (surfoptions : options_dict)
    (current_material : Material) : Material :=
  if negb (default false (surfoptions !! "is_mirror"))
  then findoutWhichMaterial
         (default background_medium (materials self !! conn.1))
         (default background_medium (materials self !! conn.2))
         current_material
  else current_material.

(** The material in force after the entries of a sequence, starting from
    [current_material]: entry by entry the material behind the entry.  (An
    entry without a material pair on record ends a run; it leaves the
    material as it is here.) *)
Fixpoint material_after (self : OpticalElement) (background_medium : Material)
    (sequence : list (string * options_dict)) (current_material : Material)
    : Material :=
  match sequence with
  | [] => current_material
  | (surfkey, surfoptions) :: rest =>
      material_after self background_medium rest
        (match surf_mat_connection self !! surfkey with
         | Some conn =>
             material_behind self background_medium conn surfoptions current_material
         | None => current_material
         end)
  end.

(** [r] is the path [rp] once [propagate] has brought its last bundle
    to the surface: the earlier bundles are those of [rp]. *)
Definition advanced_to (current_material : Material) (current_surface : Surface)
    (rp r : RayPath) : Prop :=
  ∃ front b, raybundles rp = front ++ [b] ∧
             raybundles r = front ++ [propagate current_material b current_surface].

(** The branch paths that a path gives rise to at a deflection: one copy
    of the path per returned bundle after the first, each extended with
    its bundle. *)
Definition branches (deflection : RayBundle → list RayBundle) (r : RayPath)
    : list RayPath :=
  match last (raybundles r) with
  | Some b => (λ rb, appendRayBundle (deepcopy r) rb) <$> tail (deflection b)
  | None => []
  end.

End trace_vocabulary.

(** ** Vocabulary of the pilot-ray properties *)

Section pilot_vocabulary.
Context `{PilotNumerics}.

(** The reduced coordinates of a bundle at a surface: the matrix that
    [calculateXYUV] builds from the last position and wave vector of the
    bundle in the frame of the surface. *)
Definition reduced_coordinates (pilotbundle_generation : string)
    (surface : Surface) (pb : RayBundle) : array :=
  let lc := surf_rootcoordinatesystem surface in
  generate_matrix_6xN pilotbundle_generation
    (returnGlobalToLocalPoints lc (x_last pb))
    (returnGlobalToLocalDirections lc (k_last pb)).

End pilot_vocabulary.

(** ** Vocabulary of the shape properties *)

Section shape_vocabulary.
Local Open Scope R_scope.

(** The same shape with another configured iteration count. *)
Definition with_iterations (n : nat) (self : ExplicitShape) : ExplicitShape :=
  {| tol := tol self; iterations := n; F := F self; explicit_lc := explicit_lc self |}.

(** The same for an implicit shape. *)
Definition with_implicit_iterations (n : nat) (self : ImplicitShape) : ImplicitShape :=
  {| implicit_tol := implicit_tol self; implicit_iterations := n;
     implicit_F := implicit_F self; implicit_getNormal := implicit_getNormal self |}.

End shape_vocabulary.

(** ** Vocabulary of the Zernike properties *)

Section zernike_vocabulary.
Local Open Scope Z_scope.

(** The square of [x] is a float: the rounded product [x * x] is the
    product itself. *)
Definition square_is_float (x : float) : bool :=
  match x, float_mul x x with
  | S754_zero _, _ => true
  | S754_finite _ m e, S754_finite _ m' e' =>
      if decide (2 * e ≤ e')
      then bool_decide (Z.pos m * Z.pos m = Z.pos m' * 2 ^ (e' - 2 * e))
      else bool_decide (Z.pos m * Z.pos m * 2 ^ (2 * e - e') = Z.pos m')
  | _, _ => false
  end.

(** The library's [pow] returns the square of [x] wherever the square is a
    float, as every [pow] does whose error is below one unit in the last
    place. *)
Definition accurate_pow `{CMathLibrary} : Prop :=
  ∀ x, square_is_float x = true → c_pow_2 x = float_mul x x.

(** A library whose [pow(x, 2.0)] is the rounded product [x * x]. *)
Definition rounding_library : CMathLibrary := {| c_pow_2 := λ x, float_mul x x |}.

(** The float that [ZernikeFringe.nmtoj] squares has a square that is a
    float. *)
Definition fringe_square_is_float (n_m_pair : Z * Z) : bool :=
  match int_truediv_2 (n_m_pair.1 + Z.abs n_m_pair.2) with
  | Ok half => square_is_float (float_add half float_1)
  | Raise _ => true
  end.

(** [f] holds of [count] consecutive integers from [start] on. *)
Fixpoint all_from (f : Z → bool) (start : Z) (count : nat) : bool :=
  match count with
  | O => true
  | S k => f start && all_from f (start + 1) k
  end.

(** [(n, m)] is a double index: [n >= 0], [|m| <= n] and [n - m] even. *)
Definition double_index_ok (nm : Z * Z) : bool :=
  bool_decide (0 ≤ nm.1) && bool_decide (- nm.1 ≤ nm.2 ≤ nm.1)
  && bool_decide ((nm.1 - nm.2) `mod` 2 = 0).

(** [jtonm] gives a double index for [j], on which [side] holds, and
    [nmtoj] takes it back to [j]. *)
Definition index_ok (jtonm : Z → result (Z * Z)) (nmtoj : Z * Z → result Z)
    (side : Z * Z → bool) (j : Z) : bool :=
  match jtonm j with
  | Ok nm =>
      double_index_ok nm && side nm &&
      match nmtoj nm with
      | Ok j' => bool_decide (j' = j)
      | Raise _ => false
      end
  | Raise _ => false
  end.

(** [side] holds on [(n, m)], [nmtoj] gives a single index from 1 on for
    it, and [jtonm] takes that back to [(n, m)]. *)
Definition pair_ok (jtonm : Z → result (Z * Z)) (nmtoj : Z * Z → result Z)
    (side : Z * Z → bool) (n m : Z) : bool :=
  side (n, m) &&
  match nmtoj (n, m) with
  | Ok j =>
      bool_decide (1 ≤ j) &&
      match jtonm j with
      | Ok nm => bool_decide (nm = (n, m))
      | Raise _ => false
      end
  | Raise _ => false
  end.

(** Both orderings pass on the single index [j], the Fringe ordering with
    the rounding library, on squares that are floats. *)
Definition single_index_ok (j : Z) : bool :=
  index_ok ZernikeFringe_jtonm (@ZernikeFringe_nmtoj rounding_library)
    fringe_square_is_float j
  && index_ok ZernikeANSI_jtonm ZernikeANSI_nmtoj (λ _, true) j.

(** Both orderings pass on all the pairs of the order [n]. *)
Definition order_ok (n : Z) : bool :=
  all_from (λ m, negb (bool_decide ((n - m) `mod` 2 = 0))
                 || (pair_ok ZernikeFringe_jtonm (@ZernikeFringe_nmtoj rounding_library)
                       fringe_square_is_float n m
                     && pair_ok ZernikeANSI_jtonm ZernikeANSI_nmtoj (λ _, true) n m))
           (- n) (Z.to_nat (2 * n + 1)).

End zernike_vocabulary.

(** ** Vocabulary of the construction properties *)

Section construction_vocabulary.
Context `{LocalCoordinatesTree}.

(** A call of one of the methods that build up an element. *)
Inductive construction_call : Type :=
  | CallAddSurface (key : string) (surface_object : Surface)
      (materialkeys : matkey * matkey)
  | CallAddMaterial (key : matkey) (key_str : string)
      (material_object : Material) (comment : string)
  | CallChangeMaterialsForSurface (key : string) (materialkeys : matkey * matkey).

Definition run_call (c : construction_call) : method unit :=
  match c with
  | CallAddSurface key surface_object materialkeys =>
      addSurface key surface_object materialkeys
  | CallAddMaterial key key_str material_object comment =>
      addMaterial key key_str material_object comment
  | CallChangeMaterialsForSurface key materialkeys =>
      changeMaterialsForSurface key materialkeys
  end.

(** The element after a series of calls, each made on the element that
    the call before has left, whether that call returned or raised. *)
Fixpoint after_calls (calls : list construction_call) (self : OpticalElement)
    : OpticalElement :=
  match calls with
  | [] => self
  | c :: rest => after_calls rest (run_call c self).2
  end.

End construction_vocabulary.

(** ** Vocabulary of the conic properties *)

Section conic_vocabulary.
Local Open Scope R_scope.

(** The equation of the conic surface, as [Conic.getGrad] quotes it:
    [-1/2 (1+cc) c z^2 + z - 1/2 c (x^2 + y^2) = 0]. *)
Definition on_conic (self : Conic) (p : vec3) : Prop :=
  - (1 / 2) * (1 + conic self) * curvature self * (c2 p)^2 + c2 p
  - (1 / 2) * curvature self * ((c0 p)^2 + (c1 p)^2) = 0.


End conic_vocabulary.

(** ** Vocabulary of the gradient properties *)

Section gradient_vocabulary.
Local Open Scope R_scope.

(** The value of a sag where it is a number (and 0 where it is not). *)
Definition sag_value (z : option R) : R := from_option (λ z, z) 0 z.

(** The derivative of the polynomial part of an asphere with respect to
    the squared radius: the sum of [(n+1) an r2^n]. *)
Fixpoint asphere_polynomial_slope (r2 : R) (enumerated : list (nat * R)) : R :=
  match enumerated with
  | [] => 0
  | (n, an) :: rest => INR (n + 1) * an * r2 ^ n + asphere_polynomial_slope r2 rest
  end.

End gradient_vocabulary.

(** ** A small optical system for the worked examples *)

(** Frames are numbered: frame 0 is the root, with the frames 1 and 2
    below it; any other frame is connected to itself only. *)
Definition example_tree : LocalCoordinatesTree :=
  {| LocalCoordinates := nat;
     returnConnectedChildren := λ root,
       if decide (root = 0%nat) then [0; 1; 2]%nat else [root] |}.

(** A material interface whose bundles are logs: [propagate] notes the
    surface reached, a deflection starts a new bundle that notes the
    material and the branch; with [splitup] a deflection returns two
    bundles. *)
Definition example_materials : @MaterialInterface example_tree :=
  {| RayBundle := list nat;
     propagate := λ m b s, b ++ [surf_id s];
     refract := λ m b s splitup,
       if splitup then [[mat_id m; 0]; [mat_id m; 1]]%nat else [[mat_id m; 0]]%nat;
     reflect := λ m b s splitup,
       if splitup then [[mat_id m; 2]; [mat_id m; 3]]%nat else [[mat_id m; 2]]%nat |}.

Section examples.
#[local] Existing Instance example_tree.

Definition surfA : Surface := {| surf_id := 1; surf_rootcoordinatesystem := 1%nat |}.
Definition surfB : Surface := {| surf_id := 2; surf_rootcoordinatesystem := 2%nat |}.
(** A surface whose frame hangs on no element. *)
Definition surf_loose : Surface := {| surf_id := 3; surf_rootcoordinatesystem := 7%nat |}.

Definition air : Material :=
  {| mat_id := 10; mat_lc := 0%nat; mat_comment := ""; mat_value := 1 |}.
Definition glass : Material :=
  {| mat_id := 11; mat_lc := 1%nat; mat_comment := ""; mat_value := 2 |}.
(** A second object with the optical data of [glass]. *)
Definition glass_twin : Material :=
  {| mat_id := 12; mat_lc := 2%nat; mat_comment := ""; mat_value := 2 |}.
Definition mat_loose : Material :=
  {| mat_id := 13; mat_lc := 7%nat; mat_comment := ""; mat_value := 3 |}.

(** An element with the material ["glass"] and the surfaces ["A"] (air
    to glass) and ["B"] (glass to air). *)
Definition example_element : OpticalElement :=
  ((addMaterial (Some "glass") "glass" glass "" ;;
    addSurface "A" surfA (None, Some "glass") ;;
    addSurface "B" surfB (Some "glass", None)) (OpticalElement_p 0%nat)).2.

(** Sequences that go from ["A"] to ["B"] and back. *)
Definition seq_ABA : list (string * options_dict) :=
  [("A", ∅); ("B", ∅); ("A", ∅)].
Definition seq_ABAB : list (string * options_dict) :=
  [("A", ∅); ("B", ∅); ("A", ∅); ("B", ∅)].

(** The seed bundle of the example traces. *)
Definition example_seed : @RayBundle _ example_materials := [0%nat].

End examples.

(** A second material interface, with numbers for bundles: a bundle is the
    offset of the one neighbour ray from the chief ray.  [propagate] keeps
    it, a refraction at the surface number [i] magnifies it [i + 1] times,
    a reflection flips it. *)
Definition scalar_materials : @MaterialInterface example_tree :=
  {| RayBundle := Q;
     propagate := λ m b s, b;
     refract := λ m b s splitup, [Qred (b * inject_Z (Z.of_nat (surf_id s) + 1))];
     reflect := λ m b s splitup, [Qred (- b)] |}.

(** The matrices of that interface are 1x1. *)
Definition scalar_numerics : @PilotNumerics example_tree scalar_materials :=
  @Build_PilotNumerics example_tree scalar_materials
    Q                                               (* array *)
    (λ b : Q, b)                                    (* x_last *)
    (λ b : Q, b)                                    (* k_last *)
    (λ lc (a : Q), a)                               (* returnGlobalToLocalPoints *)
    (λ lc (a : Q), a)                               (* returnGlobalToLocalDirections *)
    (λ gen (x k : Q), x)                            (* generate_matrix_6xN *)
    (λ X Y : Q, Qred (X * Y))                       (* einsum_ij_kj *)
    (λ X : Q, X)                                    (* transpose *)
    (λ X Y : Q, Qred (X * Y))                       (* dot *)
    (λ X : Q, if Qeq_bool X 0 then Raise LinAlgError else Ok (Qred (/ X))).

(** The pilot bundle of the example and the four bundles of its path. *)
Definition scalar_seed : @RayBundle _ scalar_materials := 1%Q.
Definition scalar_bundle (q : Q) : @RayBundle _ scalar_materials := q.
Definition scalar_path : @RayPath _ scalar_materials :=
  @Build_RayPath _ scalar_materials
    [scalar_bundle 1; scalar_bundle 2; scalar_bundle 6; scalar_bundle 12].

(** The two matrices that the pilot trace of the example returns. *)
Definition scalar_XYUV : gmap (string * string * nat) (@array _ _ scalar_numerics) :=
  <[("B", "A", 1%nat) := 3%Q]> (<[("A", "B", 1%nat) := (1 # 3)%Q]> ∅).

(** ** Shapes and rays for the worked examples *)

Section shape_examples.
Local Open Scope R_scope.

(** A shape frame that coincides with the global frame. *)
Definition identity_frame : LocalFrame :=
  {| lc_returnGlobalToLocalPoints := λ v, v;
     lc_returnGlobalToLocalDirections := λ v, v;
     lc_returnLocalToGlobalPoints := λ v, v |}.

(** A flat surface ([curv = 0]) and a ray along +z that starts at
    z = -5. *)
Definition flat_conic : Conic :=
  {| curvature := 0; conic := 0; conic_lc := identity_frame |}.
Definition ray_origin_axis : vec3 := mkvec3 0 0 (-5).
Definition ray_dir_axis : vec3 := mkvec3 0 0 1.

(** A circular cylinder of radius 1 ([curv = 1], [cc = 0]; its axis is
    the line y = 0, z = 1) and the ray along +z through (0, 1, 0), which
    touches it in the point (0, 1, 1). *)
Definition unit_cylinder : Conic :=
  {| curvature := 1; conic := 0; conic_lc := identity_frame |}.
Definition ray_origin_tangent : vec3 := mkvec3 0 1 0.
Definition ray_dir_tangent : vec3 := mkvec3 0 0 1.

(** The explicit surface z = 1 and a ray in the plane z = 0 along +x,
    which never reaches it. *)
Definition plane_at_one : ExplicitShape :=
  {| tol := 1 / 1000000; iterations := 10; F := λ x y, 1;
     explicit_lc := identity_frame |}.
Definition ray_origin_parallel : vec3 := mkvec3 0 0 0.
Definition ray_dir_parallel : vec3 := mkvec3 1 0 0.

(** The implicit surface x^2 + y^2 + z^2 + 1 = 0, which has no point. *)
Definition pointless_sphere : ImplicitShape :=
  {| implicit_tol := 1 / 1000000; implicit_iterations := 10;
     implicit_F := λ x y z, x^2 + y^2 + z^2 + 1;
     implicit_getNormal := λ x y, map (λ _, mkvec3 0 0 1) x |}.

(** Bundles for the worked examples: the rays as pairs of position and
    direction, and the validity masks appended so far. *)
Definition example_bundles : RayBundleAccess :=
  {| Bundle := list (vec3 * vec3) * list (list bool);
     kvec := unit;
     evec := unit;
     bundle_x_last := λ b, b.1.*1;
     bundle_k_last := λ b, map (λ _, tt) b.1;
     bundle_Efield_last := λ b, map (λ _, tt) b.1;
     bundle_returnKtoD_last := λ b, b.1.*2;
     bundle_rayDir := λ b, b.1.*2;
     bundle_o := λ b, b.1.*1;
     bundle_d := λ b, b.1.*2;
     bundle_append := λ b x k E validIndices, (zip x b.1.*2, b.2 ++ [validIndices]) |}.

(** A root finder that gives up at once and returns its start values. *)
Definition example_finder : RootFinder :=
  {| fsolve := λ func x0 xtol maxfev, x0 |}.

(** The bundle of the one ray in the plane z = 0 along +x. *)
Definition parallel_bundle : @Bundle example_bundles :=
  ([(ray_origin_parallel, ray_dir_parallel)], []).

End shape_examples.

(** ** Further worked examples *)

Section more_examples.
#[local] Existing Instance example_tree.

(** A series of calls on a new element with the root frame 0: one
    material, one surface, a surface on a loose frame (which raises) and a
    change of the material pair of a key that is not registered. *)
Definition example_calls : list construction_call :=
  [ CallAddMaterial (Some "glass") "glass" glass "";
    CallAddSurface "A" surfA (None, Some "glass");
    CallAddSurface "C" surf_loose (None, None);
    CallChangeMaterialsForSurface "Z" (None, None) ].

(** A straight sequence through the two surfaces of the example. *)
Definition seq_AB : list (string * options_dict) := [("A", ∅); ("B", ∅)].

(** A sequence that names a key that is not registered. *)
Definition seq_AZ : list (string * options_dict) := [("A", ∅); ("Z", ∅)].

End more_examples.

(** The paths of the example trace with splitting through ["A"] and
    ["B"]. *)
Definition example_split_paths : list (@RayPath _ example_materials) :=
  Eval vm_compute in
    match @seqtrace _ example_materials example_element example_seed seq_AB air true with
    | Ok rpaths => rpaths
    | Raise _ => []
    end.

(** The pilot path and the matrices of the scalar example for the straight
    sequence through ["A"] and ["B"]. *)
Definition scalar_path_AB : @RayPath _ scalar_materials :=
  @Build_RayPath _ scalar_materials [scalar_bundle 1; scalar_bundle 2; scalar_bundle 6].

Definition scalar_XYUV_AB : gmap (string * string * nat) (@array _ _ scalar_numerics) :=
  <[("B", "A", 1%nat) := (1 # 2)%Q]> (<[("A", "B", 1%nat) := 2%Q]> ∅).

Section conic_examples_more.
Local Open Scope R_scope.

(** The sphere of radius 2 through the vertex ([curv = 1/2], [cc = 0]). *)
Definition sphere_radius_two : Conic :=
  {| curvature := 1 / 2; conic := 0; conic_lc := identity_frame |}.

End conic_examples_more.

Section explicit_examples_more.
Local Open Scope R_scope.

(** The asphere on the sphere of radius 2 with the one coefficient
    A2 = 1. *)
Definition example_asphere : Asphere :=
  {| asphere_curv := 1 / 2; asphere_cc := 0; asphere_acoeffs := [1] |}.

(** The polynomial [x^2 / 4 + 3 x y / 4] (norm radius 2). *)
Definition example_xypolynomial : XYPolynomials :=
  {| xy_normradius := 2; xy_coeffs := [(2%nat, 0%nat, 1); (1%nat, 1%nat, 3)] |}.

(** A biconic with the radii 2 and 4 and one pair of coefficients. *)
Definition example_biconic : Biconic :=
  {| biconic_curvx := 1 / 2; biconic_curvy := 1 / 4;
     biconic_ccx := 0; biconic_ccy := 0; biconic_coeffs := [(1, 2)] |}.

End explicit_examples_more.
(* ===================================================================== *)
(** * Part II: properties                                                 *)
(* ===================================================================== *)

(** ** Registration of surfaces and materials *)

Section element_facts.
Context `{LocalCoordinatesTree}.

Lemma checkForRootConnection_false (self : OpticalElement) (lc : LocalCoordinates) :
  lc ∉ returnConnectedChildren (rootcoordinatesystem self) →
  checkForRootConnection self lc = false.
Proof. intros Hn. unfold checkForRootConnection. by apply bool_decide_eq_false. Qed.

Lemma checkForRootConnection_true (self : OpticalElement) (lc : LocalCoordinates) :
  lc ∈ returnConnectedChildren (rootcoordinatesystem self) →
  checkForRootConnection self lc = true.
Proof. intros Hn. unfold checkForRootConnection. by apply bool_decide_eq_true. Qed.

(** What [addSurface] does with a connected surface. *)
Lemma addSurface_connected (self : OpticalElement) key surface_object mkeys :
  surf_rootcoordinatesystem surface_object
    ∈ returnConnectedChildren (rootcoordinatesystem self) →
  addSurface key surface_object mkeys self =
    (Ok tt, set_surf_mat_connection <[key := mkeys]>
              (set_surfaces <[key := surface_object]> self)).
Proof.
  intros Hc. destruct mkeys as [mn pn].
  unfold addSurface, mbind, method_bind, read, update; cbn.
  by rewrite checkForRootConnection_true.
Qed.

(** ** C7 *)

(** C7.  Registering a surface, or a material, whose coordinate frame is
    not connected to the root frame of the element raises an exception,
    and the element (so its surfaces, its materials and its
    surface-to-material connections) is left as it was. *)
Theorem C7_unconnected_registration_raises (self : OpticalElement) :
  (∀ key surface_object materialkeys,
     surf_rootcoordinatesystem surface_object
       ∉ returnConnectedChildren (rootcoordinatesystem self) →
     ∃ msg, addSurface key surface_object materialkeys self
            = (Raise (Exception msg), self)) ∧
  (∀ key key_str material_object comment,
     mat_lc material_object
       ∉ returnConnectedChildren (rootcoordinatesystem self) →
     ∃ msg, addMaterial key key_str material_object comment self
            = (Raise (Exception msg), self)).
Proof.
  split.
  - intros key s [mn pn] Hn. eexists.
    unfold addSurface, mbind, method_bind, read; cbn.
    rewrite checkForRootConnection_false by done. reflexivity.
  - intros key key_str m comment Hn. eexists.
    unfold addMaterial, mbind, method_bind, read; cbn.
    rewrite checkForRootConnection_false by done. reflexivity.
Qed.

(** ** C8 *)

(** C8, as the code has it.  [addSurface] with a connected surface stores
    the new surface object under the key and records the new material
    pair under the key, whether or not the key was registered before;
    the entries of the other keys and the materials are untouched. *)
Theorem C8_addSurface_overwrites_surface_and_pair
    (self : OpticalElement) key surface_object materialkeys :
  surf_rootcoordinatesystem surface_object
    ∈ returnConnectedChildren (rootcoordinatesystem self) →
  ∃ self',
    addSurface key surface_object materialkeys self = (Ok tt, self') ∧
    surfaces self' !! key = Some surface_object ∧
    surf_mat_connection self' !! key = Some materialkeys ∧
    (∀ key', key' ≠ key →
       surfaces self' !! key' = surfaces self !! key' ∧
       surf_mat_connection self' !! key' = surf_mat_connection self !! key') ∧
    materials self' = materials self.
Proof.
  intros Hc. eexists. split; [by apply addSurface_connected|].
  cbn. rewrite !lookup_insert_eq. repeat split; try done.
  all: by rewrite lookup_insert_ne.
Qed.

(** The operation that changes the material pair only. *)
Lemma changeMaterialsForSurface_keeps_surfaces (self : OpticalElement) key mkeys :
  surfaces (changeMaterialsForSurface key mkeys self).2 = surfaces self.
Proof.
  destruct mkeys as [mn pn].
  unfold changeMaterialsForSurface, mbind, method_bind, read, update; cbn.
  by case_bool_decide.
Qed.

(** ** C3 *)

(** C3.  [findoutWhichMaterial] compares object identities: when the
    current material is the object [mat1] it returns [mat2]; when it is
    the object [mat2] it returns the object [mat1]; so whenever one of
    the two bound materials is another object than the current material,
    the material returned is another object than the current one.  A
    current material that is another object than [mat1] is not taken for
    [mat1], even when the two are equal in value: the answer is then
    [mat1]. *)
Theorem C3_findoutWhichMaterial_by_identity (mat1 mat2 current_mat : Material) :
  (mat_id current_mat = mat_id mat1 →
     findoutWhichMaterial mat1 mat2 current_mat = mat2) ∧
  (mat_id current_mat = mat_id mat2 →
     mat_id (findoutWhichMaterial mat1 mat2 current_mat) = mat_id mat1) ∧
  (mat_id mat1 ≠ mat_id current_mat ∨ mat_id mat2 ≠ mat_id current_mat →
     mat_id (findoutWhichMaterial mat1 mat2 current_mat) ≠ mat_id current_mat) ∧
  (mat_id current_mat ≠ mat_id mat1 →
     mat_value current_mat = mat_value mat1 →
     findoutWhichMaterial mat1 mat2 current_mat = mat1).
Proof.
  unfold findoutWhichMaterial. repeat split.
  - intros E. by rewrite decide_True.
  - intros E. case_decide; congruence.
  - intros E. case_decide; destruct E; congruence.
  - intros E _. by rewrite decide_False.
Qed.

End element_facts.

Section element_examples.
#[local] Existing Instance example_tree.

Lemma C7_unconnected_registration_raises_witness :
  (∃ msg, addSurface "C" surf_loose (None, None) example_element
          = (Raise (Exception msg), example_element)) ∧
  (∃ msg, addMaterial (Some "m") "m" mat_loose "" example_element
          = (Raise (Exception msg), example_element)).
Proof.
  destruct (C7_unconnected_registration_raises example_element) as [HS HM].
  split.
  - apply HS. compute_done.
  - apply HM. compute_done.
Defined.

(** C8, counterexample.  The key ["A"] holds [surfA]; registering the
    connected surface [surfB] under ["A"] succeeds and ["A"] then holds
    [surfB]: the stored surface object did not stay. *)
Lemma C8_counterexample :
  surfaces example_element !! "A" = Some surfA ∧
  ∃ self', addSurface "A" surfB (None, None) example_element = (Ok tt, self') ∧
           surfaces self' !! "A" = Some surfB ∧
           surfaces self' !! "A" ≠ Some surfA.
Proof.
  split; [by vm_compute|].
  eexists. split; [by vm_compute|]. split; [by vm_compute|].
  vm_compute. discriminate.
Qed.

Lemma C8_addSurface_overwrites_surface_and_pair_witness :
  ∃ self',
    addSurface "A" surfB (None, None) example_element = (Ok tt, self') ∧
    surfaces self' !! "A" = Some surfB ∧
    surf_mat_connection self' !! "A" = Some (None, None) ∧
    (∀ key', key' ≠ "A" →
       surfaces self' !! key' = surfaces example_element !! key' ∧
       surf_mat_connection self' !! key' = surf_mat_connection example_element !! key') ∧
    materials self' = materials example_element.
Proof.
  apply (C8_addSurface_overwrites_surface_and_pair example_element "A" surfB (None, None)).
  compute_done.
Defined.

Lemma C3_findoutWhichMaterial_by_identity_witness :
  findoutWhichMaterial glass air glass = air ∧
  mat_id (findoutWhichMaterial glass air air) = mat_id glass ∧
  mat_id (findoutWhichMaterial glass air air) ≠ mat_id air ∧
  findoutWhichMaterial glass air glass_twin = glass.
Proof.
  destruct (C3_findoutWhichMaterial_by_identity glass air glass) as (H1 & _ & _ & _).
  destruct (C3_findoutWhichMaterial_by_identity glass air air) as (_ & H2 & H3 & _).
  destruct (C3_findoutWhichMaterial_by_identity glass air glass_twin) as (_ & _ & _ & H4).
  split; [apply H1; reflexivity|].
  split; [apply H2; reflexivity|].
  split; [apply H3; left; vm_compute; lia|].
  apply H4; [vm_compute; lia | reflexivity].
Defined.

End element_examples.
(** ** The hit list of a sequence *)

Section hitlist_facts.

Lemma occurrences_snoc_same p l : occurrences p (l ++ [p]) = S (occurrences p l).
Proof.
  unfold occurrences. rewrite filter_app, length_app.
  rewrite filter_cons_True by done. cbn. lia.
Qed.

Lemma occurrences_snoc_other p q l : q ≠ p → occurrences p (l ++ [q]) = occurrences p l.
Proof.
  intros Hne. unfold occurrences. rewrite filter_app, length_app.
  rewrite filter_cons_False by done. cbn. lia.
Qed.

(** Consecutive pairs, one element at a time. *)
Lemma consecutive_cons {A} (a b : A) (l : list A) :
  zip (removelast (a :: b :: l)) (tail (a :: b :: l))
  = (a, b) :: zip (removelast (b :: l)) (tail (b :: l)).
Proof. reflexivity. Qed.

Lemma consecutive_lookup {A} (l : list A) (i : nat) (a b : A) :
  zip (removelast l) (tail l) !! i = Some (a, b)
  ↔ l !! i = Some a ∧ l !! S i = Some b.
Proof.
  revert i. induction l as [|x l IH]; intros i.
  - cbn. split; [done | by intros [? _]].
  - destruct l as [|y l].
    + cbn. split; [done | by intros [_ ?]].
    + rewrite consecutive_cons. destruct i as [|i].
      * cbn. split; [by intros [= -> ->] | by intros [[= ->] [= ->]]].
      * cbn [lookup list_lookup]. apply IH.
Qed.

Lemma consecutive_length {A} (l : list A) :
  length (zip (removelast l) (tail l)) = length l - 1.
Proof.
  induction l as [|x l IH]; [done|].
  destruct l as [|y l]; [done|].
  rewrite consecutive_cons. cbn [length]. rewrite IH. cbn. lia.
Qed.

Lemma consecutive_fmap {A B} (f : A → B) (l : list A) :
  zip (removelast (f <$> l)) (tail (f <$> l))
  = (λ ab, (f ab.1, f ab.2)) <$> zip (removelast l) (tail l).
Proof.
  induction l as [|x l IH]; [done|].
  destruct l as [|y l]; [done|].
  rewrite !fmap_cons, !consecutive_cons, fmap_cons. f_equal. apply IH.
Qed.

Lemma hits_from_length seen todo : length (hits_from seen todo) = length todo.
Proof. revert seen. induction todo as [|p todo IH]; intros seen; cbn; by rewrite ?IH. Qed.

Lemma hits_from_lookup seen todo i sb se n :
  hits_from seen todo !! i = Some (sb, se, n) →
  todo !! i = Some (sb, se) ∧ n = occurrences (sb, se) (seen ++ take (S i) todo).
Proof.
  revert seen i. induction todo as [|[a b] todo IH]; intros seen i; [done|].
  destruct i as [|i]; cbn.
  - by intros [= -> -> <-].
  - intros Hi. destruct (IH _ _ Hi) as [? ->]. split; [done|].
    by rewrite <- app_assoc.
Qed.

(** The loop, run on a dictionary that holds the counts of the
    transitions already seen, appends the hits of the remaining ones. *)
Lemma sequence_to_hitlist_loop_hits pairs hitlist_dict hitlist optionshitlistdict seen :
  (∀ p, default 0 (hitlist_dict !! p) = occurrences p seen) →
  (sequence_to_hitlist_loop pairs hitlist_dict hitlist optionshitlistdict).1
  = hitlist ++ hits_from seen ((λ x, (x.1.1, x.2.1)) <$> pairs).
Proof.
  revert hitlist_dict hitlist optionshitlistdict seen.
  induction pairs as [|[[sb optsb] [se optse]] pairs IH];
    intros d hl od seen Hd; cbn.
  - by rewrite app_nil_r.
  - rewrite (IH _ _ _ (seen ++ [(sb, se)])).
    + rewrite <- app_assoc. cbn. rewrite occurrences_snoc_same, Hd.
      by replace (occurrences (sb, se) seen + 1) with (S (occurrences (sb, se) seen)) by lia.
    + intros p. destruct (decide (p = (sb, se))) as [->|Hne].
      * rewrite lookup_insert_eq, occurrences_snoc_same, Hd. cbn. lia.
      * rewrite lookup_insert_ne by done.
        by rewrite occurrences_snoc_other.
Qed.

Lemma sequence_to_hitlist_hits (seq : list (string * options_dict)) :
  (sequence_to_hitlist seq).1 = hits_from [] (transitions seq).
Proof.
  unfold sequence_to_hitlist.
  rewrite (sequence_to_hitlist_loop_hits _ _ _ _ []) by done.
  cbn. f_equal. unfold transitions.
  by rewrite consecutive_fmap.
Qed.

(** A surface left and reached again: two different transitions. *)
Lemma sequence_to_hitlist_there_and_back (A B : string) (optsA optsB optsA' : options_dict) :
  A ≠ B →
  (sequence_to_hitlist [(A, optsA); (B, optsB); (A, optsA')]).1
  = [(A, B, 1); (B, A, 1)].
Proof.
  intros Hne. rewrite sequence_to_hitlist_hits. cbn.
  unfold occurrences. cbn.
  rewrite !decide_True by done.
  rewrite decide_False.
  2:{ intros [= E _]. by apply Hne. }
  by rewrite decide_True.
Qed.

(** ** C2 *)

(** C2.  The hit list has one entry per consecutive pair of sequence
    entries; its i-th entry names the keys of the entries i and i+1, and
    its occurrence index is the number of times this ordered pair of
    keys has occurred among the transitions up to and including the
    i-th, so it starts at 1.  For two different keys A and B the
    sequence [A, B, A] gives the hits (A, B, 1) and (B, A, 1). *)
Theorem C2_sequence_to_hitlist_occurrences (seq : list (string * options_dict)) :
  length (sequence_to_hitlist seq).1 = length seq - 1 ∧
  (∀ i sb se n,
     (sequence_to_hitlist seq).1 !! i = Some (sb, se, n) →
     (∃ optsb optse, seq !! i = Some (sb, optsb) ∧ seq !! S i = Some (se, optse)) ∧
     n = occurrences (sb, se) (take (S i) (transitions seq)) ∧
     1 ≤ n) ∧
  (∀ A B optsA optsB optsA',
     A ≠ B →
     (sequence_to_hitlist [(A, optsA); (B, optsB); (A, optsA')]).1
     = [(A, B, 1); (B, A, 1)]).
Proof.
  rewrite sequence_to_hitlist_hits. split; [|split].
  - rewrite hits_from_length. unfold transitions.
    by rewrite consecutive_length, length_fmap.
  - intros i sb se n Hi.
    apply hits_from_lookup in Hi as [Ht ->]. cbn [app].
    split; [|split; [done|]].
    + unfold transitions in Ht. apply consecutive_lookup in Ht as [Hb He].
      rewrite !list_lookup_fmap in Hb, He.
      destruct (seq !! i) as [[sb' ob]|] eqn:E1; [|done].
      destruct (seq !! S i) as [[se' oe]|] eqn:E2; [|done].
      cbn in Hb, He. injection Hb as ->. injection He as ->. eauto.
    + rewrite (take_S_r _ _ _ Ht), occurrences_snoc_same. lia.
  - intros A B oA oB oA' Hne. by apply sequence_to_hitlist_there_and_back.
Qed.

Lemma C2_sequence_to_hitlist_occurrences_witness :
  ((∃ optsb optse,
      seq_ABAB !! 2 = Some ("A", optsb) ∧ seq_ABAB !! 3 = Some ("B", optse)) ∧
   2 = occurrences ("A", "B") (take 3 (transitions seq_ABAB)) ∧
   1 ≤ 2) ∧
  (sequence_to_hitlist seq_ABA).1 = [("A", "B", 1); ("B", "A", 1)].
Proof.
  split.
  - apply (proj1 (proj2 (C2_sequence_to_hitlist_occurrences seq_ABAB)) 2 "A" "B" 2).
    vm_compute. reflexivity.
  - apply (C2_sequence_to_hitlist_occurrences []). discriminate.
Defined.

End hitlist_facts.
(** ** The sequential trace *)

Section trace_facts.
Context `{MaterialInterface}.

Lemma list_last_Ok {A} (l : list A) (b : A) :
  list_last l = Ok b ↔ ∃ front, l = front ++ [b].
Proof.
  unfold list_last. rewrite <- last_Some.
  destruct (last l); split; (congruence || by intros [= ->]).
Qed.

Lemma propagate_path_Ok current_material current_surface rp rp' :
  propagate_path current_material current_surface rp = Ok rp' ↔
  ∃ front b, raybundles rp = front ++ [b] ∧
             raybundles rp' = front ++ [propagate current_material b current_surface].
Proof.
  unfold propagate_path. split.
  - destruct (list_last (raybundles rp)) as [b|] eqn:E; [|done].
    apply list_last_Ok in E as [front E]. cbn. intros [= <-].
    exists front, b. split; [done|]. cbn. by rewrite E, removelast_last.
  - intros (front & b & E & E'). rewrite E.
    destruct (list_last (front ++ [b])) as [b'|] eqn:El.
    + apply list_last_Ok in El as [front' El].
      apply app_inj_tail in El as [-> ->]. cbn.
      rewrite removelast_last. destruct rp' as [l']. cbn in E'. by rewrite E'.
    + unfold list_last in El. by rewrite last_snoc in El.
Qed.

Lemma mapM_result_Ok {A B} (f : A → result B) (l : list A) (k : list B) :
  mapM f l = Ok k ↔ Forall2 (λ a b, f a = Ok b) l k.
Proof.
  revert k. induction l as [|a l IH]; intros k.
  - cbn. split; [intros [= <-]; constructor | by intros ->%Forall2_nil_inv_l].
  - change (mapM f (a :: l)) with (y ← f a; k ← mapM f l; mret (y :: k)).
    split.
    + destruct (f a) as [b|] eqn:Ea; [|done].
      destruct (mapM f l) as [k'|] eqn:Ek; [|done].
      cbn. intros [= <-]. constructor; [done|]. by apply IH.
    + intros (b & k' & Ea & Hk & ->)%Forall2_cons_inv_l.
      rewrite Ea. apply IH in Hk. by rewrite Hk.
Qed.

(** The second inner loop: every active path receives the first bundle
    of its deflection; the further bundles extend copies of the path as
    it stood, collected behind [rpaths_new] in the order of the paths. *)
Lemma deflect_loop_Ok deflection rpaths rpaths_new rpaths' rpaths_new' :
  deflect_loop deflection rpaths rpaths_new = Ok (rpaths', rpaths_new') →
  Forall2 (λ rp rp', ∃ b rb0 rbs,
             last (raybundles rp) = Some b ∧ deflection b = rb0 :: rbs ∧
             rp' = appendRayBundle rp rb0) rpaths rpaths' ∧
  rpaths_new' = rpaths_new ++ mjoin (branches deflection <$> rpaths).
Proof.
  revert rpaths_new rpaths' rpaths_new'.
  induction rpaths as [|rp rpaths IH]; intros acc rpaths' acc'; cbn.
  - intros [= <- <-]. split; [constructor | by rewrite app_nil_r].
  - unfold list_last. destruct (last (raybundles rp)) as [b|] eqn:El; [|done]. cbn.
    unfold list_getitem. destruct (deflection b) as [|rb0 rbs] eqn:Ed; [done|]. cbn.
    match goal with |- context [deflect_loop _ _ ?a] => set (acc1 := a) end.
    destruct (deflect_loop deflection rpaths acc1) as [[r n]|] eqn:Er; [|done]. cbn.
    intros [= <- <-]. destruct (IH _ _ _ Er) as [HF ->]. split.
    + constructor; [|done]. exists b, rb0, rbs. by rewrite Ed.
    + subst acc1. unfold branches at 2. rewrite El, Ed. by rewrite <- app_assoc.
Qed.

Lemma deflect_loop_Raise deflection rpaths rpaths_new e :
  deflect_loop deflection rpaths rpaths_new = Raise e →
  ∃ rp, rp ∈ rpaths ∧
    (raybundles rp = [] ∨ ∃ b, last (raybundles rp) = Some b ∧ deflection b = []).
Proof.
  revert rpaths_new. induction rpaths as [|rp rpaths IH]; intros acc; cbn; [done|].
  unfold list_last. destruct (last (raybundles rp)) as [b|] eqn:El; cbn.
  - unfold list_getitem. destruct (deflection b) as [|rb0 rbs] eqn:Ed; cbn.
    + intros _. exists rp. split; [by left|]. right. by exists b.
    + match goal with |- context [deflect_loop _ _ ?a] => set (acc1 := a) end.
      destruct (deflect_loop deflection rpaths acc1) as [[r n]|] eqn:Er; [done|].
      cbn. intros [= ->]. destruct (IH _ Er) as (rp' & Hin & Hrp').
      exists rp'. split; [by right | done].
  - intros _. exists rp. split; [by left|]. left. by apply last_None.
Qed.

(** One sequence entry, taken apart. *)
Lemma seqtrace_body_Ok self background_medium splitup current_material rpaths
    surfkey surfoptions current_material' rpaths' :
  seqtrace_body self background_medium splitup (current_material, rpaths)
    (surfkey, surfoptions) = Ok (current_material', rpaths') →
  ∃ current_surface conn readied rpaths1 rpaths_new,
    surfaces self !! surfkey = Some current_surface ∧
    surf_mat_connection self !! surfkey = Some conn ∧
    current_material'
      = material_behind self background_medium conn surfoptions current_material ∧
    mapM (propagate_path current_material current_surface) rpaths = Ok readied ∧
    deflect_loop (deflection_at current_material' surfoptions current_surface splitup)
      readied [] = Ok (rpaths1, rpaths_new) ∧
    rpaths' = rpaths1 ++ rpaths_new.
Proof.
  unfold seqtrace_body, getitem.
  destruct (surfaces self !! surfkey) as [current_surface|] eqn:Es; [|done]. cbn.
  destruct (surf_mat_connection self !! surfkey) as [[mn pn]|] eqn:Ec; [|done]. cbn.
  destruct (mapM _ rpaths) as [readied|] eqn:Ep; [|done]. cbn.
  match goal with |- context [deflect_loop ?d readied []] =>
    destruct (deflect_loop d readied []) as [[r n]|] eqn:Ed; [|done] end.
  cbn. intros [= <- <-].
  exists current_surface, (mn, pn), readied, r, n.
  repeat split; try done.
  unfold deflection_at.
  destruct (negb (default false (surfoptions !! "is_mirror"))); exact Ed.
Qed.

(** Every path grows by one bundle at a sequence entry, the branch
    paths included. *)
Lemma seqtrace_body_lengths self background_medium splitup current_material rpaths
    entry current_material' rpaths' (n : nat) :
  Forall (λ rp, length (raybundles rp) = n) rpaths →
  seqtrace_body self background_medium splitup (current_material, rpaths) entry
    = Ok (current_material', rpaths') →
  Forall (λ rp, length (raybundles rp) = S n) rpaths'.
Proof.
  intros Hn E. destruct entry as [surfkey surfoptions].
  apply seqtrace_body_Ok in E
    as (surf & conn & readied & r1 & rn & _ & _ & _ & Hp & Hd & ->).
  apply mapM_result_Ok in Hp. apply deflect_loop_Ok in Hd as [HF ->].
  assert (Hr : Forall (λ rp, length (raybundles rp) = n) readied).
  { apply Forall_forall. intros r Hin.
    apply list_elem_of_lookup in Hin as [i Hi].
    destruct (Forall2_lookup_r _ _ _ _ _ Hp Hi) as (rp & Hrp & Hpp).
    apply propagate_path_Ok in Hpp as (front & b & E1 & E2).
    rewrite Forall_forall in Hn.
    specialize (Hn rp ltac:(by eapply list_elem_of_lookup_2)).
    rewrite E2, length_app. rewrite E1, length_app in Hn. done. }
  rewrite Forall_forall in Hr.
  apply Forall_app. split; apply Forall_forall.
  - intros r' Hin. apply list_elem_of_lookup in Hin as [i Hi].
    destruct (Forall2_lookup_r _ _ _ _ _ HF Hi) as (r & Hri & b & rb0 & rbs & _ & _ & ->).
    cbn. rewrite length_app. cbn.
    rewrite (Hr r) by (by eapply list_elem_of_lookup_2). lia.
  - intros r' Hin. cbn in Hin.
    apply list_elem_of_join in Hin as (l & Hin & Hl).
    apply list_elem_of_fmap in Hl as (r & -> & Hr').
    unfold branches in Hin. destruct (last (raybundles r)); [|by apply elem_of_nil in Hin].
    apply list_elem_of_fmap in Hin as (rb & -> & _).
    cbn. unfold deepcopy. rewrite length_app. cbn. rewrite (Hr r Hr'). lia.
Qed.

Lemma seqtrace_loop_lengths self background_medium splitup sequence
    current_material rpaths current_material' rpaths' (n : nat) :
  Forall (λ rp, length (raybundles rp) = n) rpaths →
  seqtrace_loop self background_medium splitup sequence (current_material, rpaths)
    = Ok (current_material', rpaths') →
  Forall (λ rp, length (raybundles rp) = n + length sequence) rpaths'.
Proof.
  revert current_material rpaths n.
  induction sequence as [|entry sequence IH]; intros cm rpaths n Hn; cbn [seqtrace_loop].
  - intros [= <- <-]. cbn. by rewrite Nat.add_0_r.
  - destruct (seqtrace_body _ _ _ _ _) as [[cm1 rpaths1]|] eqn:Eb; [|done]. cbn.
    intros E. apply (seqtrace_body_lengths _ _ _ _ _ _ _ _ _ Hn) in Eb.
    apply (IH _ _ _ Eb) in E. cbn [length].
    by replace (n + S (length sequence)) with (S n + length sequence) by lia.
Qed.

(** Every path that [seqtrace] returns stores the seed and one bundle
    per sequence entry. *)
Lemma seqtrace_path_lengths self raybundle sequence background_medium splitup rpaths :
  seqtrace self raybundle sequence background_medium splitup = Ok rpaths →
  Forall (λ rp, length (raybundles rp) = 1 + length sequence) rpaths.
Proof.
  unfold seqtrace.
  destruct (seqtrace_loop _ _ _ _ _) as [[cm rpaths']|] eqn:E; [|done].
  cbn. intros [= <-].
  apply (seqtrace_loop_lengths _ _ _ _ _ _ _ _ 1) in E; [done|].
  by repeat constructor.
Qed.

Lemma seqtrace_body_single self background_medium splitup current_material rp
    surfkey surfoptions :
  (∀ m b s, length (refract m b s splitup) = 1) →
  (∀ m b s, length (reflect m b s splitup) = 1) →
  raybundles rp ≠ [] →
  match seqtrace_body self background_medium splitup (current_material, [rp])
          (surfkey, surfoptions) with
  | Ok (_, rpaths') =>
      ∃ rp', rpaths' = [rp'] ∧ length (raybundles rp') = S (length (raybundles rp))
  | Raise _ =>
      surfaces self !! surfkey = None ∨ surf_mat_connection self !! surfkey = None
  end.
Proof.
  intros Hr Hl Hne.
  destruct (seqtrace_body _ _ _ _ _) as [[cm' rpaths']|e] eqn:E.
  - apply seqtrace_body_Ok in E
      as (surf & conn & readied & r1 & rn & _ & _ & _ & Hp & Hd & ->).
    apply mapM_result_Ok in Hp.
    apply Forall2_cons_inv_l in Hp as (r & ? & Hr1 & ->%Forall2_nil_inv_l & ->).
    apply propagate_path_Ok in Hr1 as (front & b & Erp & Er).
    apply deflect_loop_Ok in Hd as [HF ->].
    apply Forall2_cons_inv_l in HF as (r' & ? & (b' & rb0 & rbs & Hb' & Hd & ->)
                                         & ->%Forall2_nil_inv_l & ->).
    assert (rbs = []) as ->.
    { assert (Hlen : length (deflection_at cm' surfoptions surf splitup b') = 1).
      { unfold deflection_at. by destruct (negb _). }
      rewrite Hd in Hlen. by destruct rbs. }
    cbn. unfold branches. rewrite Hb', Hd. cbn.
    eexists. split; [done|]. cbn.
    rewrite Er, Erp, !length_app. cbn. lia.
  - revert E. unfold seqtrace_body, getitem.
    destruct (surfaces self !! surfkey) as [surf|]; [|by left]. cbn.
    destruct (surf_mat_connection self !! surfkey) as [[mn pn]|]; [|by right]. cbn.
    destruct (list_last (raybundles rp)) as [b|] eqn:El.
    2:{ unfold list_last in El. destruct (last (raybundles rp)) eqn:El'; [done|].
        by apply last_None in El'. }
    unfold propagate_path. rewrite El. cbn. unfold list_last.
    rewrite last_snoc. cbn.
    match goal with |- context [list_getitem ?l 0] =>
      assert (Hlen : length l = 1) by (by destruct (negb _));
      destruct l as [|rb0 [|]]; try done end.
Qed.

Lemma seqtrace_loop_single self background_medium splitup sequence
    current_material rp :
  (∀ m b s, length (refract m b s splitup) = 1) →
  (∀ m b s, length (reflect m b s splitup) = 1) →
  raybundles rp ≠ [] →
  match seqtrace_loop self background_medium splitup sequence
          (current_material, [rp]) with
  | Ok (_, rpaths') =>
      ∃ rp', rpaths' = [rp'] ∧
             length (raybundles rp') = length (raybundles rp) + length sequence
  | Raise _ =>
      ∃ surfkey surfoptions, (surfkey, surfoptions) ∈ sequence ∧
        (surfaces self !! surfkey = None ∨ surf_mat_connection self !! surfkey = None)
  end.
Proof.
  intros Hr Hl. revert current_material rp.
  induction sequence as [|[surfkey surfoptions] sequence IH];
    intros current_material rp Hne; cbn [seqtrace_loop].
  - exists rp. split; [done|]. cbn. lia.
  - pose proof (seqtrace_body_single self background_medium splitup current_material
                  rp surfkey surfoptions Hr Hl Hne) as Hb.
    destruct (seqtrace_body _ _ _ _ _) as [[cm' rpaths']|e]; cbn.
    + destruct Hb as (rp' & -> & Hlen).
      assert (Hne' : raybundles rp' ≠ []) by (by destruct (raybundles rp')).
      specialize (IH cm' rp' Hne').
      destruct (seqtrace_loop _ _ _ _ _) as [[cm'' rpaths'']|e].
      * destruct IH as (rp'' & -> & Hlen'). exists rp''. split; [done|].
        rewrite Hlen', Hlen. cbn. lia.
      * destruct IH as (k & o & Hin & Hk). exists k, o. split; [by right | done].
    + exists surfkey, surfoptions. split; [by left | done].
Qed.

Lemma mapM_result_total {A B} (f : A → result B) (l : list A) :
  Forall (λ a, ∃ b, f a = Ok b) l → ∃ k, mapM f l = Ok k.
Proof.
  induction 1 as [|a l [b Hb] _ [k Hk]]; [by exists []|].
  exists (b :: k).
  change (mapM f (a :: l)) with (y ← f a; k ← mapM f l; mret (y :: k)).
  by rewrite Hb, Hk.
Qed.

(** A sequence entry whose key is registered is processed without an
    exception when no path is empty and no deflection returns an empty
    list. *)
Lemma seqtrace_body_total self background_medium splitup current_material rpaths
    surfkey surfoptions :
  is_Some (surfaces self !! surfkey) →
  is_Some (surf_mat_connection self !! surfkey) →
  (∀ m b s, refract m b s splitup ≠ []) →
  (∀ m b s, reflect m b s splitup ≠ []) →
  Forall (λ rp, raybundles rp ≠ []) rpaths →
  ∃ state, seqtrace_body self background_medium splitup (current_material, rpaths)
             (surfkey, surfoptions) = Ok state.
Proof.
  intros [surf Hs] [[mn pn] Hc] Hr Hl Hne.
  unfold seqtrace_body, getitem. rewrite Hs, Hc. cbn.
  destruct (mapM_result_total (propagate_path current_material surf) rpaths)
    as [readied Hp].
  { eapply Forall_impl; [exact Hne|]. intros rp Hrp. cbn in Hrp.
    unfold propagate_path, list_last.
    destruct (last (raybundles rp)) as [b|] eqn:El; cbn; [eauto|].
    by apply last_None in El. }
  rewrite Hp. cbn.
  match goal with |- context [deflect_loop ?d readied []] =>
    destruct (deflect_loop d readied []) as [[r n]|e] eqn:Ed end.
  - cbn. eauto.
  - apply deflect_loop_Raise in Ed as (r & Hin & Hbad). exfalso.
    apply mapM_result_Ok in Hp.
    apply list_elem_of_lookup in Hin as [i Hi].
    destruct (Forall2_lookup_r _ _ _ _ _ Hp Hi) as (rp & _ & Hpp).
    apply propagate_path_Ok in Hpp as (front & b & _ & E2).
    destruct Hbad as [Hbad|(b' & _ & Hbad)].
    + rewrite E2 in Hbad. by destruct front.
    + revert Hbad. destruct (negb _); [apply Hr | apply Hl].
Qed.

Lemma seqtrace_loop_total self background_medium splitup sequence
    current_material rpaths (n : nat) :
  (∀ surfkey surfoptions, (surfkey, surfoptions) ∈ sequence →
     is_Some (surfaces self !! surfkey) ∧
     is_Some (surf_mat_connection self !! surfkey)) →
  (∀ m b s, refract m b s splitup ≠ []) →
  (∀ m b s, reflect m b s splitup ≠ []) →
  Forall (λ rp, length (raybundles rp) = S n) rpaths →
  ∃ state, seqtrace_loop self background_medium splitup sequence
             (current_material, rpaths) = Ok state.
Proof.
  intros Hreg Hr Hl. revert current_material rpaths n Hreg.
  induction sequence as [|[surfkey surfoptions] sequence IH];
    intros cm rpaths n Hreg Hn; cbn [seqtrace_loop]; [eauto|].
  destruct (Hreg surfkey surfoptions ltac:(by left)) as [Hs Hc].
  destruct (seqtrace_body_total self background_medium splitup cm rpaths
              surfkey surfoptions Hs Hc Hr Hl) as [[cm' rpaths'] Hb].
  { eapply Forall_impl; [exact Hn|]. intros rp Hrp. cbn in Hrp.
    by destruct (raybundles rp). }
  rewrite Hb. cbn.
  apply (IH cm' rpaths' (S n)).
  - intros k o Hin. apply (Hreg k o). by right.
  - by eapply seqtrace_body_lengths.
Qed.

(** The loop over a sequence with one more entry at its end. *)
Lemma seqtrace_loop_snoc self background_medium splitup sequence entry state :
  seqtrace_loop self background_medium splitup (sequence ++ [entry]) state
  = (state' ← seqtrace_loop self background_medium splitup sequence state;
     seqtrace_body self background_medium splitup state' entry).
Proof.
  revert state. induction sequence as [|e sequence IH]; intros state; cbn.
  - by destruct (seqtrace_body _ _ _ _ _).
  - destruct (seqtrace_body self background_medium splitup state e) as [state1|]; [|done].
    cbn. apply IH.
Qed.

(** The material that the loop carries is the material in force after
    the entries it has gone through. *)
Lemma seqtrace_loop_material self background_medium splitup sequence
    current_material rpaths current_material' rpaths' :
  seqtrace_loop self background_medium splitup sequence (current_material, rpaths)
    = Ok (current_material', rpaths') →
  current_material' = material_after self background_medium sequence current_material.
Proof.
  revert current_material rpaths.
  induction sequence as [|[surfkey surfoptions] sequence IH];
    intros cm rpaths; cbn [seqtrace_loop material_after].
  - by intros [= <- _].
  - destruct (seqtrace_body _ _ _ _ _) as [[cm1 rpaths1]|] eqn:Eb; [|done]. cbn.
    intros E. apply IH in E as ->.
    apply seqtrace_body_Ok in Eb as (surf & conn & ? & ? & ? & _ & Hc & -> & _).
    by rewrite Hc.
Qed.

(** A run over a sequence with one more entry at its end is the run over
    the sequence followed by the step for that entry. *)
Lemma seqtrace_snoc_Ok self raybundle sequence surfkey surfoptions
    background_medium splitup rpaths' :
  seqtrace self raybundle (sequence ++ [(surfkey, surfoptions)]) background_medium splitup
    = Ok rpaths' →
  ∃ rpaths,
    seqtrace self raybundle sequence background_medium splitup = Ok rpaths ∧
    seqtrace_body self background_medium splitup
      (material_after self background_medium sequence background_medium, rpaths)
      (surfkey, surfoptions)
    = Ok (material_after self background_medium (sequence ++ [(surfkey, surfoptions)])
            background_medium, rpaths').
Proof.
  unfold seqtrace.
  destruct (seqtrace_loop _ _ _ (sequence ++ _) _) as [[cm' rp']|] eqn:E; [|done].
  cbn. intros [= <-].
  pose proof (seqtrace_loop_material _ _ _ _ _ _ _ _ E) as Hcm'.
  rewrite seqtrace_loop_snoc in E.
  destruct (seqtrace_loop _ _ _ sequence _) as [[cm rpaths]|] eqn:E0; [|done].
  cbn in E. pose proof (seqtrace_loop_material _ _ _ _ _ _ _ _ E0) as Hcm.
  exists rpaths. split; [done|]. by rewrite <- Hcm, <- Hcm'.
Qed.

(** ** C1 *)

(** C1.  (a) When every deflection returns exactly one bundle, a run of
    [seqtrace] that returns gives exactly one path, and that path stores
    one bundle more than the sequence has entries (the seed and one
    crossing per entry); the run does return when the keys of the
    sequence are registered with the element.
    (b) At one sequence entry, every active path has its last bundle
    advanced to the surface and is then extended, at its own place in
    the list, with the first bundle of its deflection; every further
    bundle extends a copy of the path as it stood before this
    extension, and these copies come behind all the paths that were
    active, in the order of their paths and bundles.
    (c) A run over registered keys in which no deflection returns an
    empty list does return, and every path it returns, a branch or not,
    stores one bundle more than the sequence has entries.
    (d) A run is made of these steps and of nothing else: over the empty
    sequence it returns the one path that stores the seed; and a run
    that returns over a sequence with one more entry at its end has
    returned over the sequence, and its paths come from the paths of
    that shorter run as (b) says, for the material in force there: each
    of them advanced and extended in place with the first bundle of its
    deflection, the copies for the further bundles behind them all. *)
Theorem C1_seqtrace_paths (self : OpticalElement) (background_medium : Material)
    (splitup : bool) :
  (∀ raybundle sequence,
     (∀ m b s, length (refract m b s splitup) = 1) →
     (∀ m b s, length (reflect m b s splitup) = 1) →
     (∀ rpaths,
        seqtrace self raybundle sequence background_medium splitup = Ok rpaths →
        ∃ rp, rpaths = [rp] ∧ length (raybundles rp) = 1 + length sequence) ∧
     ((∀ surfkey surfoptions, (surfkey, surfoptions) ∈ sequence →
         is_Some (surfaces self !! surfkey) ∧
         is_Some (surf_mat_connection self !! surfkey)) →
      ∃ rp, seqtrace self raybundle sequence background_medium splitup = Ok [rp])) ∧
  (∀ current_material rpaths surfkey surfoptions current_material' rpaths',
     seqtrace_body self background_medium splitup (current_material, rpaths)
       (surfkey, surfoptions) = Ok (current_material', rpaths') →
     ∃ current_surface readied,
       surfaces self !! surfkey = Some current_surface ∧
       Forall2 (advanced_to current_material current_surface) rpaths readied ∧
       (∀ i r, readied !! i = Some r →
          ∃ b rb0 rbs,
            last (raybundles r) = Some b ∧
            deflection_at current_material' surfoptions current_surface splitup b
              = rb0 :: rbs ∧
            rpaths' !! i = Some (appendRayBundle r rb0)) ∧
       drop (length rpaths) rpaths'
         = mjoin (branches (deflection_at current_material' surfoptions
                              current_surface splitup) <$> readied)) ∧
  (∀ raybundle sequence,
     (∀ surfkey surfoptions, (surfkey, surfoptions) ∈ sequence →
        is_Some (surfaces self !! surfkey) ∧
        is_Some (surf_mat_connection self !! surfkey)) →
     (∀ m b s, refract m b s splitup ≠ []) →
     (∀ m b s, reflect m b s splitup ≠ []) →
     ∃ rpaths,
       seqtrace self raybundle sequence background_medium splitup = Ok rpaths ∧
       Forall (λ rp, length (raybundles rp) = 1 + length sequence) rpaths) ∧
  (∀ raybundle,
     seqtrace self raybundle [] background_medium splitup
     = Ok [RayPath_init raybundle]) ∧
  (∀ raybundle sequence surfkey surfoptions rpaths',
     seqtrace self raybundle (sequence ++ [(surfkey, surfoptions)])
       background_medium splitup = Ok rpaths' →
     let current_material :=
       material_after self background_medium sequence background_medium in
     let current_material' :=
       material_after self background_medium (sequence ++ [(surfkey, surfoptions)])
         background_medium in
     ∃ rpaths current_surface readied,
       seqtrace self raybundle sequence background_medium splitup = Ok rpaths ∧
       surfaces self !! surfkey = Some current_surface ∧
       Forall2 (advanced_to current_material current_surface) rpaths readied ∧
       (∀ i r, readied !! i = Some r →
          ∃ b rb0 rbs,
            last (raybundles r) = Some b ∧
            deflection_at current_material' surfoptions current_surface splitup b
              = rb0 :: rbs ∧
            rpaths' !! i = Some (appendRayBundle r rb0)) ∧
       length rpaths' = length rpaths + length (drop (length rpaths) rpaths') ∧
       drop (length rpaths) rpaths'
         = mjoin (branches (deflection_at current_material' surfoptions
                              current_surface splitup) <$> readied)).
Proof.
  assert (Hstep : ∀ current_material rpaths surfkey surfoptions current_material' rpaths',
     seqtrace_body self background_medium splitup (current_material, rpaths)
       (surfkey, surfoptions) = Ok (current_material', rpaths') →
     ∃ current_surface readied,
       surfaces self !! surfkey = Some current_surface ∧
       Forall2 (advanced_to current_material current_surface) rpaths readied ∧
       (∀ i r, readied !! i = Some r →
          ∃ b rb0 rbs,
            last (raybundles r) = Some b ∧
            deflection_at current_material' surfoptions current_surface splitup b
              = rb0 :: rbs ∧
            rpaths' !! i = Some (appendRayBundle r rb0)) ∧
       drop (length rpaths) rpaths'
         = mjoin (branches (deflection_at current_material' surfoptions
                              current_surface splitup) <$> readied)).
  { intros cm rpaths surfkey surfoptions cm' rpaths' E.
    apply seqtrace_body_Ok in E
      as (surf & conn & readied & r1 & rn & Hs & _ & _ & Hp & Hd & ->).
    apply mapM_result_Ok in Hp. apply deflect_loop_Ok in Hd as [HF ->].
    exists surf, readied. split; [done|].
    assert (Hadv : Forall2 (advanced_to cm surf) rpaths readied).
    { eapply Forall2_impl; [exact Hp|]. intros rp r Hr.
      by apply propagate_path_Ok in Hr. }
    split; [done|]. split.
    + intros i r Hi.
      destruct (Forall2_lookup_l _ _ _ _ _ HF Hi) as (r' & Hi' & b & rb0 & rbs & ? & ? & ->).
      exists b, rb0, rbs. split; [done|]. split; [done|].
      by rewrite lookup_app_l by (by eapply lookup_lt_Some).
    + rewrite (Forall2_length _ _ _ Hadv), (Forall2_length _ _ _ HF).
      by rewrite drop_app_length. }
  split; [|split; [exact Hstep|split; [|split]]].
  - intros raybundle sequence Hr Hl.
    pose proof (seqtrace_loop_single self background_medium splitup sequence
                  background_medium (RayPath_init raybundle) Hr Hl
                  ltac:(done)) as Hrun.
    unfold seqtrace.
    destruct (seqtrace_loop _ _ _ _ _) as [[cm rpaths']|e]; cbn; split.
    + intros rpaths [= <-]. destruct Hrun as (rp & -> & Hlen). eauto.
    + intros _. destruct Hrun as (rp & -> & _). eauto.
    + done.
    + intros Hreg. destruct Hrun as (k & o & Hin & Hk).
      destruct (Hreg k o Hin) as [[? Hs] [? Hc]]. destruct Hk; congruence.
  - intros raybundle sequence Hreg Hr Hl.
    destruct (seqtrace_loop_total self background_medium splitup sequence
                background_medium [RayPath_init raybundle] 0 Hreg Hr Hl)
      as [[cm rpaths] Hrun]; [by repeat constructor|].
    exists rpaths.
    assert (Hs : seqtrace self raybundle sequence background_medium splitup = Ok rpaths)
      by (unfold seqtrace; by rewrite Hrun).
    split; [done|]. by eapply seqtrace_path_lengths.
  - done.
  - intros raybundle sequence surfkey surfoptions rpaths' E cm cm'.
    apply seqtrace_snoc_Ok in E as (rpaths & Erun & Ebody).
    pose proof Ebody as Ebody'.
    apply Hstep in Ebody as (surf & readied & Hs & Hadv & Hext & Hdrop).
    exists rpaths, surf, readied. repeat (split; [done|]). split; [|done].
    rewrite length_drop.
    enough (length rpaths ≤ length rpaths') by lia.
    apply seqtrace_body_Ok in Ebody'
      as (? & ? & readied' & r1 & rn & _ & _ & _ & Hp & Hd & ->).
    apply mapM_result_Ok in Hp. apply deflect_loop_Ok in Hd as [HF _].
    rewrite length_app, <- (Forall2_length _ _ _ HF), <- (Forall2_length _ _ _ Hp). lia.
Qed.

End trace_facts.

Section trace_examples.
#[local] Existing Instance example_tree.
#[local] Existing Instance example_materials.

Lemma C1_seqtrace_paths_witness :
  (∃ rpaths,
     seqtrace example_element example_seed seq_ABA air true = Ok rpaths ∧
     Forall (λ rp, length (raybundles rp) = 1 + length seq_ABA) rpaths) ∧
  (∃ rp, seqtrace example_element example_seed [("A", ∅); ("B", ∅)] air false = Ok [rp]) ∧
  (∃ current_surface readied,
     surfaces example_element !! "A" = Some current_surface ∧
     Forall2 (advanced_to air current_surface) [RayPath_init example_seed] readied ∧
     (∀ i r, readied !! i = Some r →
        ∃ b rb0 rbs,
          last (raybundles r) = Some b ∧
          deflection_at glass ∅ current_surface true b = rb0 :: rbs ∧
          [ {| raybundles := [[0; 1]; [11; 0]] |};
            {| raybundles := [[0; 1]; [11; 1]] |} ] !! i
            = Some (appendRayBundle r rb0)) ∧
     drop (length [RayPath_init example_seed])
          [ {| raybundles := [[0; 1]; [11; 0]] |};
            {| raybundles := [[0; 1]; [11; 1]] |} ]
       = mjoin (branches (deflection_at glass ∅ current_surface true) <$> readied)) ∧
  (let current_material := material_after example_element air [("A", ∅)] air in
   let current_material' :=
     material_after example_element air ([("A", ∅)] ++ [("B", ∅)]) air in
   ∃ rpaths current_surface readied,
     seqtrace example_element example_seed [("A", ∅)] air true = Ok rpaths ∧
     surfaces example_element !! "B" = Some current_surface ∧
     Forall2 (advanced_to current_material current_surface) rpaths readied ∧
     (∀ i r, readied !! i = Some r →
        ∃ b rb0 rbs,
          last (raybundles r) = Some b ∧
          deflection_at current_material' ∅ current_surface true b = rb0 :: rbs ∧
          example_split_paths !! i = Some (appendRayBundle r rb0)) ∧
     length example_split_paths
       = length rpaths + length (drop (length rpaths) example_split_paths) ∧
     drop (length rpaths) example_split_paths
       = mjoin (branches (deflection_at current_material' ∅ current_surface true)
                  <$> readied)).
Proof.
  destruct (C1_seqtrace_paths example_element air false) as (Hsingle & _ & _).
  destruct (C1_seqtrace_paths example_element air true)
    as (_ & Hbranch & Hrun & _ & Hstep).
  split; [|split; [|split]].
  - apply (Hrun example_seed seq_ABA).
    + intros surfkey surfoptions Hin.
      assert (surfkey = "A" ∨ surfkey = "B") as [-> | ->].
      { unfold seq_ABA in Hin. rewrite !elem_of_cons in Hin.
        destruct Hin as [[= -> _]|[[= -> _]|[[= -> _]|Hin]]]; auto.
        by apply elem_of_nil in Hin. }
      all: split; vm_compute; eauto.
    + intros m b s. discriminate.
    + intros m b s. discriminate.
  - apply (Hsingle example_seed [("A", ∅); ("B", ∅)]).
    + intros m b s. reflexivity.
    + intros m b s. reflexivity.
    + intros surfkey surfoptions Hin.
      apply elem_of_cons in Hin as [[= -> ->]|Hin].
      { split; vm_compute; eauto. }
      apply list_elem_of_singleton in Hin as [= -> ->].
      split; vm_compute; eauto.
  - apply (Hbranch air [RayPath_init example_seed] "A" ∅ glass).
    vm_compute. reflexivity.
  - apply (Hstep example_seed [("A", ∅)] "B" ∅ example_split_paths).
    vm_compute. reflexivity.
Defined.

End trace_examples.
(** ** Pilot-ray transfer matrices *)

Section pilot_facts.
Context `{PilotNumerics}.

(** One round of the loop of [calculateXYUV]: the forward fit goes under
    the key of the hit, the fit of the reverse direction under the key
    with the two surfaces swapped. *)
Lemma calculateXYUV_loop_cons self gen pb1 pb2 s1 s2 numhit rest XYUVmatrices result_ :
  calculateXYUV_loop self gen ((pb1, pb2, (s1, s2, numhit)) :: rest) XYUVmatrices
    = Ok result_ →
  ∃ surf1 surf2 transfer invtransfer,
    surfaces self !! s1 = Some surf1 ∧
    surfaces self !! s2 = Some surf2 ∧
    bestfit_transfer (reduced_coordinates gen surf1 pb1)
                     (reduced_coordinates gen surf2 pb2) = Ok transfer ∧
    bestfit_transfer (reduced_coordinates gen surf2 pb2)
                     (reduced_coordinates gen surf1 pb1) = Ok invtransfer ∧
    calculateXYUV_loop self gen rest
      (<[(s2, s1, numhit) := invtransfer]> (<[(s1, s2, numhit) := transfer]> XYUVmatrices))
      = Ok result_.
Proof.
  cbn [calculateXYUV_loop]. unfold getitem.
  destruct (surfaces self !! s1) as [surf1|]; [|done]. cbn.
  destruct (surfaces self !! s2) as [surf2|]; [|done]. cbn.
  fold (reduced_coordinates gen surf1 pb1). fold (reduced_coordinates gen surf2 pb2).
  destruct (bestfit_transfer (reduced_coordinates gen surf1 pb1) _)
    as [transfer|] eqn:Et; [|done]. cbn.
  destruct (bestfit_transfer (reduced_coordinates gen surf2 pb2) _)
    as [invtransfer|] eqn:Ei; [|done]. cbn.
  destruct (linalg_inv transfer) as [invtransfer2|]; [|done]. cbn.
  intros E. by exists surf1, surf2, transfer, invtransfer.
Qed.

(** ** C9 *)

(** C9, on the sequence [A, B, A] of two different surfaces.  The pilot
    path has the hits (A, B, 1) and (B, A, 1).  When [calculateXYUV]
    returns, the mapping holds under (A, B, 1) the fit of the reverse
    direction of the second hit (from the bundle that reaches A again,
    back to the bundle at B), which has replaced the forward fit of the
    first hit; under (B, A, 1) it holds the forward fit of the second
    hit. *)
Theorem C9_there_and_back_overwrites_forward
    (self : OpticalElement) (A B : string) (optsA optsB optsA' : options_dict)
    (pilotinitbundle : RayBundle) (background_medium : Material)
    (pilotraypath_nr : nat) (gen : string)
    (pilotraypath : RayPath) (XYUVmatrices : gmap (string * string * nat) array) :
  A ≠ B →
  calculateXYUV self pilotinitbundle [(A, optsA); (B, optsB); (A, optsA')]
    background_medium pilotraypath_nr gen = Ok (pilotraypath, XYUVmatrices) →
  ∃ surfA surfB pb0 pb1 pb2 pb3 back forth,
    surfaces self !! A = Some surfA ∧ surfaces self !! B = Some surfB ∧
    raybundles pilotraypath = [pb0; pb1; pb2; pb3] ∧
    bestfit_transfer (reduced_coordinates gen surfA pb2)
                     (reduced_coordinates gen surfB pb1) = Ok back ∧
    bestfit_transfer (reduced_coordinates gen surfB pb1)
                     (reduced_coordinates gen surfA pb2) = Ok forth ∧
    XYUVmatrices !! (A, B, 1) = Some back ∧
    XYUVmatrices !! (B, A, 1) = Some forth.
Proof.
  intros Hne. unfold calculateXYUV.
  pose proof (sequence_to_hitlist_there_and_back A B optsA optsB optsA' Hne) as Hh.
  destruct (sequence_to_hitlist _) as [hitlist optionshitlistdict].
  cbn in Hh. subst hitlist.
  destruct (seqtrace _ _ _ _ _) as [pilotraypaths|] eqn:Et; [|done]. cbn.
  unfold list_getitem.
  destruct (pilotraypaths !! pilotraypath_nr) as [path|] eqn:Ep; [|done]. cbn.
  apply seqtrace_path_lengths in Et.
  rewrite Forall_forall in Et.
  specialize (Et path ltac:(by eapply list_elem_of_lookup_2)).
  destruct path as [[|pb0 [|pb1 [|pb2 [|pb3 [|]]]]]]; try done.
  cbn [raybundles removelast tail zip zip_with].
  destruct (calculateXYUV_loop _ _ _ _) as [XYUV|] eqn:El; [|done]. cbn.
  intros [= <- <-].
  apply calculateXYUV_loop_cons in El
    as (surfA & surfB & t1 & i1 & HA & HB & Ht1 & Hi1 & El).
  apply calculateXYUV_loop_cons in El
    as (surfB' & surfA' & t2 & i2 & HB' & HA' & Ht2 & Hi2 & El).
  cbn in El. injection El as <-.
  rewrite HB in HB'. injection HB' as <-.
  rewrite HA in HA'. injection HA' as <-.
  exists surfA, surfB, pb0, pb1, pb2, pb3, i2, t2.
  repeat split; try done.
  - by rewrite lookup_insert_eq.
  - rewrite lookup_insert_ne by (intros [= ? ?]; by apply Hne).
    by rewrite lookup_insert_eq.
Qed.

End pilot_facts.

Section pilot_examples.
#[local] Existing Instance example_tree.
#[local] Existing Instance scalar_materials.
#[local] Existing Instance scalar_numerics.

(** The pilot trace of the example: the offset 1 grows to 2 at ["A"], to
    6 at ["B"] and to 12 at ["A"].  The forward fit of the first hit
    (A, B, 1) is the matrix 2; the mapping that is returned holds 1/3
    under that key. *)
Lemma calculateXYUV_there_and_back_example :
  calculateXYUV example_element scalar_seed seq_ABA air 0 "real"
    = Ok (scalar_path, scalar_XYUV) ∧
  bestfit_transfer (reduced_coordinates "real" surfA (scalar_bundle 1))
                   (reduced_coordinates "real" surfB (scalar_bundle 2)) = Ok (2 : Q) ∧
  scalar_XYUV !! ("A", "B", 1) = Some (1 # 3) ∧
  scalar_XYUV !! ("B", "A", 1) = Some (3 : Q).
Proof. repeat split; vm_compute; reflexivity. Qed.

Lemma C9_there_and_back_overwrites_forward_witness :
  ∃ surfA surfB pb0 pb1 pb2 pb3 back forth,
    surfaces example_element !! "A" = Some surfA ∧
    surfaces example_element !! "B" = Some surfB ∧
    raybundles scalar_path = [pb0; pb1; pb2; pb3] ∧
    bestfit_transfer (reduced_coordinates "real" surfA pb2)
                     (reduced_coordinates "real" surfB pb1) = Ok back ∧
    bestfit_transfer (reduced_coordinates "real" surfB pb1)
                     (reduced_coordinates "real" surfA pb2) = Ok forth ∧
    scalar_XYUV !! ("A", "B", 1) = Some back ∧
    scalar_XYUV !! ("B", "A", 1) = Some forth.
Proof.
  apply (C9_there_and_back_overwrites_forward (H1 := scalar_numerics)
           example_element "A" "B" ∅ ∅ ∅
           scalar_seed air 0 "real" scalar_path scalar_XYUV).
  - discriminate.
  - vm_compute. reflexivity.
Defined.

End pilot_examples.
(** ** The hit list and its way back to a sequence *)

Section hitlist_more_facts.

Lemma occurrences_app_le p l k : occurrences p l ≤ occurrences p (l ++ k).
Proof. unfold occurrences. rewrite filter_app, length_app. lia. Qed.

(** A hit generated after the transitions [seen] counts more occurrences
    of its pair than [seen] holds. *)
Lemma hits_from_gt seen todo sb se n :
  (sb, se, n) ∈ hits_from seen todo → occurrences (sb, se) seen < n.
Proof.
  revert seen. induction todo as [|[a b] todo IH]; intros seen; cbn.
  - by intros ?%elem_of_nil.
  - intros [[= -> -> ->]|Hin]%elem_of_cons.
    + rewrite occurrences_snoc_same. lia.
    + apply IH in Hin.
      pose proof (occurrences_app_le (sb, se) seen [(a, b)]). lia.
Qed.

Lemma hits_from_NoDup seen todo : NoDup (hits_from seen todo).
Proof.
  revert seen. induction todo as [|[a b] todo IH]; intros seen; cbn.
  - constructor.
  - constructor; [|apply IH].
    intros Hin%hits_from_gt. lia.
Qed.

(** The loop leaves alone the options of every key that is not among the
    hits it generates. *)
Lemma sequence_to_hitlist_loop_options_other pairs hitlist_dict hitlist
    optionshitlistdict seen key :
  (∀ p, default 0 (hitlist_dict !! p) = occurrences p seen) →
  key ∉ hits_from seen ((λ x, (x.1.1, x.2.1)) <$> pairs) →
  (sequence_to_hitlist_loop pairs hitlist_dict hitlist optionshitlistdict).2 !! key
  = optionshitlistdict !! key.
Proof.
  revert hitlist_dict hitlist optionshitlistdict seen.
  induction pairs as [|[[sb optsb] [se optse]] pairs IH];
    intros d hl od seen Hd Hkey; cbn; [done|].
  cbn in Hkey. apply not_elem_of_cons in Hkey as [Hne Hkey].
  rewrite (IH _ _ _ (seen ++ [(sb, se)])).
  - rewrite occurrences_snoc_same in Hne.
    rewrite lookup_insert_ne; [done|].
    rewrite Hd. by replace (occurrences (sb, se) seen + 1)
      with (S (occurrences (sb, se) seen)) by lia.
  - intros p. destruct (decide (p = (sb, se))) as [->|Hp].
    + rewrite lookup_insert_eq, occurrences_snoc_same, Hd. cbn. lia.
    + rewrite lookup_insert_ne by done. by rewrite occurrences_snoc_other.
  - done.
Qed.

(** The options recorded for the hit of the i-th transition are those of
    the two entries of that transition. *)
Lemma sequence_to_hitlist_loop_options pairs hitlist_dict hitlist
    optionshitlistdict seen i sb optsb se optse :
  (∀ p, default 0 (hitlist_dict !! p) = occurrences p seen) →
  pairs !! i = Some ((sb, optsb), (se, optse)) →
  (sequence_to_hitlist_loop pairs hitlist_dict hitlist optionshitlistdict).2
    !! (sb, se, occurrences (sb, se)
                  (seen ++ take (S i) ((λ x, (x.1.1, x.2.1)) <$> pairs)))
  = Some (optsb, optse).
Proof.
  revert hitlist_dict hitlist optionshitlistdict seen i.
  induction pairs as [|[[sb0 optsb0] [se0 optse0]] pairs IH];
    intros d hl od seen i Hd Hi; [done|].
  assert (Hd' : ∀ p, default 0 (<[(sb0, se0) := default 0 (d !! (sb0, se0)) + 1]> d !! p)
                     = occurrences p (seen ++ [(sb0, se0)])).
  { intros p. destruct (decide (p = (sb0, se0))) as [->|Hp].
    + rewrite lookup_insert_eq, occurrences_snoc_same, Hd. cbn. lia.
    + rewrite lookup_insert_ne by done. by rewrite occurrences_snoc_other. }
  destruct i as [|i]; cbn in Hi |- *.
  - injection Hi as -> -> -> ->.
    rewrite (sequence_to_hitlist_loop_options_other _ _ _ _ (seen ++ [(sb, se)]));
      [|done|].
    + rewrite take_0, Hd, occurrences_snoc_same.
      replace (occurrences (sb, se) seen + 1) with (S (occurrences (sb, se) seen)) by lia.
      by rewrite lookup_insert_eq.
    + rewrite take_0. intros Hin%hits_from_gt. lia.
  - rewrite <- (IH _ (hl ++ [(sb0, se0, default 0 (d !! (sb0, se0)) + 1)])
                  (<[(sb0, se0, default 0 (d !! (sb0, se0)) + 1) := (optsb0, optse0)]> od)
                  (seen ++ [(sb0, se0)]) i Hd' Hi).
    by rewrite <- app_assoc.
Qed.

(** The pieces of a list of consecutive pairs give the list back. *)
Lemma consecutive_rebuild {A} (l : list A) (P : list (A * A)) :
  P = zip (removelast l) (tail l) → 2 ≤ length l →
  (fst <$> P) ++ match last P with Some p => [p.2] | None => [] end = l.
Proof.
  intros ->. revert l. induction l as [|a l IH]; [cbn; lia|].
  destruct l as [|b l]; [cbn; lia|]. intros _.
  rewrite consecutive_cons. destruct l as [|c l]; [reflexivity|].
  specialize (IH ltac:(cbn; lia)).
  rewrite consecutive_cons in IH |- *.
  rewrite fmap_cons, <- app_comm_cons. cbn [fst]. f_equal.
  etrans; [|exact IH]. f_equal.
Qed.

(** The way back, on a hit list whose hits carry the keys of the pairs
    [P] and whose options are on record. *)
Lemma hitlist_to_sequence_loop_Ok `{LocalCoordinatesTree}
    (optionshitlistdict : gmap (string * string * nat) (options_dict * options_dict))
    (hitlist : list (string * string * nat))
    (P : list ((string * options_dict) * (string * options_dict)))
    (start len_hitlist : nat) (acc : list (string * bool * options_dict)) :
  Forall2 (λ h p, h.1.1 = p.1.1 ∧ h.1.2 = p.2.1 ∧
                  optionshitlistdict !! h = Some (p.1.2, p.2.2)) hitlist P →
  start + length hitlist = len_hitlist →
  hitlist_to_sequence_loop len_hitlist optionshitlistdict
    (zip (seq start (length hitlist)) hitlist) acc
  = Ok (acc ++ ((λ p, (p.1.1, true, p.1.2)) <$> P)
            ++ match last P with Some p => [(p.2.1, true, p.2.2)] | None => [] end).
Proof.
  intros HF. revert start acc.
  induction HF as [|[[sb se] n] [[kb ob] [ke oe]] hitlist P (Eb & Ee & Ho) HF IH];
    intros start acc Hlen; cbn in *.
  - by rewrite app_nil_r.
  - subst kb ke. unfold getitem. rewrite Ho. cbn.
    destruct (decide (start = len_hitlist - 1)) as [Elast|Hmore]; cbn.
    + assert (hitlist = []) as -> by (destruct hitlist; [done | cbn in Hlen; lia]).
      apply Forall2_nil_inv_l in HF as ->. cbn. by rewrite <- app_assoc.
    + rewrite IH by lia. f_equal. rewrite <- !app_assoc. cbn. do 2 f_equal.
      destruct P as [|p P]; [|done].
      apply Forall2_nil_inv_r in HF as ->. cbn in Hlen. lia.
Qed.

(** The hits and the recorded options of a sequence, entry by entry. *)
Lemma sequence_to_hitlist_entries (seq : list (string * options_dict)) :
  Forall2 (λ h p, h.1.1 = p.1.1 ∧ h.1.2 = p.2.1 ∧
                  (sequence_to_hitlist seq).2 !! h = Some (p.1.2, p.2.2))
          (sequence_to_hitlist seq).1 (zip (removelast seq) (tail seq)).
Proof.
  apply Forall2_same_length_lookup_2.
  - rewrite sequence_to_hitlist_hits, hits_from_length. unfold transitions.
    by rewrite !consecutive_length, length_fmap.
  - intros i [[sb se] n] [[kb ob] [ke oe]] Hh Hp.
    rewrite sequence_to_hitlist_hits in Hh.
    apply hits_from_lookup in Hh as [Ht ->].
    unfold transitions in Ht. rewrite consecutive_fmap, list_lookup_fmap, Hp in Ht.
    cbn in Ht. injection Ht as <- <-. cbn. split; [done|]. split; [done|].
    unfold sequence_to_hitlist, transitions. rewrite consecutive_fmap.
    by apply (sequence_to_hitlist_loop_options _ _ _ _ [] i kb ob ke oe).
Qed.

Lemma sequence_to_hitlist_lookup_keys (seq : list (string * options_dict)) i sb se n :
  (sequence_to_hitlist seq).1 !! i = Some (sb, se, n) →
  seq.*1 !! i = Some sb ∧ seq.*1 !! S i = Some se.
Proof.
  intros Hi.
  destruct (Forall2_lookup_l _ _ _ _ _ (sequence_to_hitlist_entries seq) Hi)
    as ([[kb ob] [ke oe]] & Hp & Eb & Ee & _).
  cbn in Eb, Ee. subst kb ke.
  apply consecutive_lookup in Hp as [Hb He].
  rewrite !list_lookup_fmap, Hb, He. done.
Qed.

(** X1.  [hitlist_to_sequence] undoes [sequence_to_hitlist] on every
    sequence of at least two entries: it returns the entries in their
    order, each with its key, the flag [True] and its own option
    dictionary, and it raises no [KeyError].  A sequence of fewer than two
    entries has no hit and comes back empty. *)
Theorem hitlist_to_sequence_of_sequence_to_hitlist `{LocalCoordinatesTree}
    (seq : list (string * options_dict)) :
  (2 ≤ length seq →
   hitlist_to_sequence (sequence_to_hitlist seq)
   = Ok ((λ e, (e.1, true, e.2)) <$> seq)) ∧
  (length seq < 2 → hitlist_to_sequence (sequence_to_hitlist seq) = Ok []).
Proof.
  split.
  - intros Hlen. unfold hitlist_to_sequence.
    pose proof (sequence_to_hitlist_entries seq) as HF.
    destruct (sequence_to_hitlist seq) as [hitlist optionshitlistdict]. cbn in HF.
    rewrite (hitlist_to_sequence_loop_Ok _ _ _ 0 (length hitlist) [] HF) by done.
    cbn [app]. f_equal.
    set (P := zip (removelast seq) (tail seq)).
    trans ((λ e : string * options_dict, (e.1, true, e.2))
             <$> ((fst <$> P) ++ match last P with Some p => [p.2] | None => [] end)).
    + rewrite fmap_app, <- list_fmap_compose. f_equal. by destruct (last P).
    + by rewrite (consecutive_rebuild seq P eq_refl Hlen).
  - intros Hlen.
    assert (seq = [] ∨ ∃ e, seq = [e]) as [->|[e ->]]; [|done..].
    destruct seq as [|e [|e' seq]]; [by left | right; by exists e | cbn in Hlen; lia].
Qed.

(** X2.  The hits of a hit list are pairwise different, the options
    mapping has exactly the hits as its keys, and under the i-th hit it
    holds the option dictionaries of the entries i and i+1 of the
    sequence. *)
Theorem sequence_to_hitlist_options (seq : list (string * options_dict)) :
  NoDup (sequence_to_hitlist seq).1 ∧
  (∀ key, is_Some ((sequence_to_hitlist seq).2 !! key)
          ↔ key ∈ (sequence_to_hitlist seq).1) ∧
  (∀ i sb se n,
     (sequence_to_hitlist seq).1 !! i = Some (sb, se, n) →
     ∃ optsb optse,
       seq !! i = Some (sb, optsb) ∧ seq !! S i = Some (se, optse) ∧
       (sequence_to_hitlist seq).2 !! (sb, se, n) = Some (optsb, optse)).
Proof.
  pose proof (sequence_to_hitlist_entries seq) as HF.
  assert (Hthird : ∀ i sb se n,
     (sequence_to_hitlist seq).1 !! i = Some (sb, se, n) →
     ∃ optsb optse,
       seq !! i = Some (sb, optsb) ∧ seq !! S i = Some (se, optse) ∧
       (sequence_to_hitlist seq).2 !! (sb, se, n) = Some (optsb, optse)).
  { intros i sb se n Hi.
    destruct (Forall2_lookup_l _ _ _ _ _ HF Hi)
      as ([[kb ob] [ke oe]] & Hp & Eb & Ee & Ho).
    cbn in Eb, Ee, Ho. subst kb ke.
    apply consecutive_lookup in Hp as [? ?]. eauto. }
  split; [|split; [|done]].
  - rewrite sequence_to_hitlist_hits. apply hits_from_NoDup.
  - intros key. split.
    + intros Hsome. destruct (decide (key ∈ (sequence_to_hitlist seq).1)) as [|Hn]; [done|].
      exfalso. rewrite sequence_to_hitlist_hits in Hn.
      unfold sequence_to_hitlist, transitions in Hsome, Hn.
      rewrite consecutive_fmap in Hn.
      rewrite (sequence_to_hitlist_loop_options_other _ _ _ _ [] key) in Hsome; [|done..].
      rewrite lookup_empty in Hsome. by destruct Hsome.
    + intros [i Hi]%list_elem_of_lookup. destruct key as [[sb se] n].
      destruct (Hthird i sb se n Hi) as (? & ? & _ & _ & ->). eauto.
Qed.

End hitlist_more_facts.
(** ** Building up an element *)

Section element_more_facts.
Context `{LocalCoordinatesTree}.

(** X3.  [changeMaterialsForSurface] on a registered key replaces the
    material pair of that key, which [getConnection] then returns, and
    touches nothing else; on a key that is not registered it does nothing
    and raises nothing, and [getConnection] still raises [KeyError]. *)
Theorem changeMaterialsForSurface_registered_only
    (self : OpticalElement) (key : string) (materialkeys : matkey * matkey) :
  (is_Some (surf_mat_connection self !! key) →
   ∃ self',
     changeMaterialsForSurface key materialkeys self = (Ok tt, self') ∧
     getConnection self' key = Ok materialkeys ∧
     (∀ key', key' ≠ key → getConnection self' key' = getConnection self key') ∧
     surfaces self' = surfaces self ∧ materials self' = materials self ∧
     logged self' = logged self) ∧
  (surf_mat_connection self !! key = None →
   changeMaterialsForSurface key materialkeys self = (Ok tt, self) ∧
   getConnection self key = Raise KeyError).
Proof.
  destruct materialkeys as [mn pn].
  unfold changeMaterialsForSurface, getConnection, getitem, mbind, method_bind,
    read, update; cbn.
  split.
  - intros Hsome. rewrite bool_decide_eq_true_2 by done. eexists. split; [done|].
    cbn. rewrite lookup_insert_eq. repeat split; try done.
    intros key' Hne. by rewrite lookup_insert_ne.
  - intros Hnone. rewrite bool_decide_eq_false_2.
    + by rewrite Hnone.
    + rewrite Hnone. by intros [? ?].
Qed.

(** X4.  [addMaterial] with a connected material stores the object, with
    the comment given, under a key that is free.  The comment is written
    into the object itself: an entry under another key that holds the
    same object shows the new comment as well, and the entries that hold
    other objects are unchanged.  Under a key that is taken the call
    leaves the materials as they are, logs one warning and raises
    nothing.  The surfaces and their connections are untouched in both
    cases. *)
Theorem addMaterial_first_registration_wins
    (self : OpticalElement) (key : matkey) (key_str : string)
    (material_object : Material) (comment : string) :
  mat_lc material_object ∈ returnConnectedChildren (rootcoordinatesystem self) →
  ∃ self',
    addMaterial key key_str material_object comment self = (Ok tt, self') ∧
    surfaces self' = surfaces self ∧
    surf_mat_connection self' = surf_mat_connection self ∧
    (materials self !! key = None →
       materials self' !! key = Some (set_comment material_object comment) ∧
       (∀ k m, k ≠ key → materials self !! k = Some m →
          (mat_id m = mat_id material_object →
             materials self' !! k = Some (set_comment m comment)) ∧
          (mat_id m ≠ mat_id material_object →
             materials self' !! k = Some m)) ∧
       dom (materials self') = {[key]} ∪ dom (materials self) ∧
       logged self' = logged self) ∧
    (is_Some (materials self !! key) →
       materials self' = materials self ∧
       ∃ msg, logged self' = logged self ++ [msg]).
Proof.
  intros Hc.
  unfold addMaterial, mbind, method_bind, read, update, warning; cbn.
  rewrite checkForRootConnection_true by done.
  destruct (materials self !! key) as [m|] eqn:Em.
  - rewrite bool_decide_eq_true_2 by done. cbn. eexists. split; [done|].
    cbn. split; [done|]. split; [done|]. split; [done|].
    intros _. split; [done|]. eauto.
  - rewrite bool_decide_eq_false_2 by (by intros [? ?]). cbn.
    eexists. split; [done|]. cbn. split; [done|]. split; [done|]. split.
    + intros _. split; [|split; [|split; [|done]]].
      * rewrite lookup_fmap, lookup_insert_eq. cbn.
        unfold assign_comment. by rewrite decide_True.
      * intros k m' Hne Hk.
        rewrite lookup_fmap, lookup_insert_ne, Hk by done. cbn.
        unfold assign_comment. split; intros Hid.
        -- by rewrite decide_True.
        -- by rewrite decide_False.
      * by rewrite dom_fmap_L, dom_insert_L.
    + by intros [? ?].
Qed.

(** One call keeps what holds of every element that the calls build. *)
Lemma run_call_invariant (c : construction_call) (self : OpticalElement) :
  dom (surfaces self) = dom (surf_mat_connection self) →
  (∀ k s, surfaces self !! k = Some s →
     surf_rootcoordinatesystem s ∈ returnConnectedChildren (rootcoordinatesystem self)) →
  (∀ k m, materials self !! k = Some m →
     mat_lc m ∈ returnConnectedChildren (rootcoordinatesystem self)) →
  let self' := (run_call c self).2 in
  rootcoordinatesystem self' = rootcoordinatesystem self ∧
  dom (surfaces self') = dom (surf_mat_connection self') ∧
  (∀ k s, surfaces self' !! k = Some s →
     surf_rootcoordinatesystem s ∈ returnConnectedChildren (rootcoordinatesystem self)) ∧
  (∀ k m, materials self' !! k = Some m →
     mat_lc m ∈ returnConnectedChildren (rootcoordinatesystem self)).
Proof.
  intros Hdom Hs Hm. destruct c as [key s [mn pn]|key key_str m comment|key [mn pn]]; cbn.
  - unfold addSurface, mbind, method_bind, read, update; cbn.
    unfold checkForRootConnection. case_bool_decide as Hc; cbn.
    + split; [done|]. split; [by rewrite !dom_insert_L, Hdom|]. split; [|done].
      intros k s'. destruct (decide (k = key)) as [->|Hne].
      * rewrite lookup_insert_eq. by intros [= <-].
      * rewrite lookup_insert_ne by done. apply Hs.
    + done.
  - unfold addMaterial, mbind, method_bind, read, update, warning; cbn.
    unfold checkForRootConnection. case_bool_decide as Hc; cbn; [|done].
    case_bool_decide as Ht; cbn; [done|].
    split; [done|]. split; [done|]. split; [done|].
    assert (Hlc : ∀ m0, mat_lc (assign_comment m comment m0) = mat_lc m0).
    { intros m0. unfold assign_comment. by destruct (decide _). }
    intros k m'. rewrite lookup_fmap.
    destruct (decide (key = k)) as [->|Hne].
    + rewrite lookup_insert_eq. cbn. intros [= <-]. by rewrite Hlc.
    + rewrite lookup_insert_ne by done.
      destruct (materials self !! k) as [m0|] eqn:Ek; [|done].
      cbn. intros [= <-]. rewrite Hlc. by eapply Hm.
  - unfold changeMaterialsForSurface, mbind, method_bind, read, update; cbn.
    case_bool_decide as Hc; cbn; [|done].
    split; [done|]. split; [|done].
    rewrite dom_insert_L, <- Hdom.
    assert (Hin : key ∈ dom (surfaces self))
      by (rewrite Hdom; by apply elem_of_dom).
    apply set_eq. intros k. rewrite elem_of_union, elem_of_singleton.
    split; [tauto|]. intros [->|?]; [done|done].
Qed.

(** X5.  Whatever calls of [addSurface], [addMaterial] and
    [changeMaterialsForSurface] are made on a new element, and whichever
    of them raise, the element keeps its root frame, has a material pair
    on record for exactly the keys that have a surface, and holds only
    surfaces and materials whose frames are connected to its root. *)
Theorem construction_keeps_element_consistent
    (lc : LocalCoordinates) (calls : list construction_call) :
  let self := after_calls calls (OpticalElement_p lc) in
  rootcoordinatesystem self = lc ∧
  dom (surfaces self) = dom (surf_mat_connection self) ∧
  (∀ k s, surfaces self !! k = Some s →
     surf_rootcoordinatesystem s ∈ returnConnectedChildren lc) ∧
  (∀ k m, materials self !! k = Some m →
     mat_lc m ∈ returnConnectedChildren lc).
Proof.
  cbn zeta.
  assert (Hgen : ∀ self0,
    rootcoordinatesystem self0 = lc →
    dom (surfaces self0) = dom (surf_mat_connection self0) →
    (∀ k s, surfaces self0 !! k = Some s →
       surf_rootcoordinatesystem s ∈ returnConnectedChildren lc) →
    (∀ k m, materials self0 !! k = Some m →
       mat_lc m ∈ returnConnectedChildren lc) →
    let self := after_calls calls self0 in
    rootcoordinatesystem self = lc ∧
    dom (surfaces self) = dom (surf_mat_connection self) ∧
    (∀ k s, surfaces self !! k = Some s →
       surf_rootcoordinatesystem s ∈ returnConnectedChildren lc) ∧
    (∀ k m, materials self !! k = Some m →
       mat_lc m ∈ returnConnectedChildren lc)).
  { induction calls as [|c calls IH]; intros self0 Hroot Hdom Hs Hm; cbn.
    - done.
    - rewrite <- Hroot in Hs, Hm.
      destruct (run_call_invariant c self0 Hdom Hs Hm) as (Hr' & Hd' & Hs' & Hm').
      rewrite Hroot in Hs', Hm', Hr'.
      by apply IH. }
  apply Hgen; cbn; try done.
Qed.

End element_more_facts.
(** ** More on the sequential trace *)

Section trace_more_facts.
Context `{MaterialInterface}.

Lemma seqtrace_body_unregistered self background_medium splitup state surfkey surfoptions :
  surfaces self !! surfkey = None ∨ surf_mat_connection self !! surfkey = None →
  seqtrace_body self background_medium splitup state (surfkey, surfoptions)
  = Raise KeyError.
Proof.
  intros Hun. destruct state as [cm rpaths]. unfold seqtrace_body, getitem.
  destruct (surfaces self !! surfkey) as [surf|]; [|done]. cbn.
  destruct Hun as [?| ->]; done.
Qed.

(** With deflections that never return an empty list, the loop over the
    sequence returns when all keys are registered and raises [KeyError]
    when one is not. *)
Lemma seqtrace_loop_outcome self background_medium splitup sequence
    current_material rpaths (n : nat) :
  (∀ m b s, refract m b s splitup ≠ []) →
  (∀ m b s, reflect m b s splitup ≠ []) →
  Forall (λ rp, length (raybundles rp) = S n) rpaths →
  match seqtrace_loop self background_medium splitup sequence
          (current_material, rpaths) with
  | Ok _ =>
      ∀ surfkey surfoptions, (surfkey, surfoptions) ∈ sequence →
        is_Some (surfaces self !! surfkey) ∧
        is_Some (surf_mat_connection self !! surfkey)
  | Raise e =>
      e = KeyError ∧
      ∃ surfkey surfoptions, (surfkey, surfoptions) ∈ sequence ∧
        (surfaces self !! surfkey = None ∨ surf_mat_connection self !! surfkey = None)
  end.
Proof.
  intros Hr Hl. revert current_material rpaths n.
  induction sequence as [|[surfkey surfoptions] sequence IH];
    intros cm rpaths n Hn; cbn [seqtrace_loop].
  - intros k o Hin. by apply elem_of_nil in Hin.
  - destruct (surfaces self !! surfkey) as [surf|] eqn:Es.
    2:{ rewrite seqtrace_body_unregistered by (by left). cbn.
        split; [done|]. exists surfkey, surfoptions. split; [by left | by left]. }
    destruct (surf_mat_connection self !! surfkey) as [conn|] eqn:Ec.
    2:{ rewrite seqtrace_body_unregistered by (by right). cbn.
        split; [done|]. exists surfkey, surfoptions. split; [by left | by right]. }
    destruct (seqtrace_body_total self background_medium splitup cm rpaths
                surfkey surfoptions ltac:(by rewrite Es) ltac:(by rewrite Ec) Hr Hl)
      as [[cm' rpaths'] Hb].
    { eapply Forall_impl; [exact Hn|]. intros rp Hrp. cbn in Hrp.
      by destruct (raybundles rp). }
    rewrite Hb. cbn.
    specialize (IH cm' rpaths' (S n)
                  (seqtrace_body_lengths _ _ _ _ _ _ _ _ _ Hn Hb)).
    destruct (seqtrace_loop _ _ _ _ _) as [st|e].
    + intros k o [[= -> ->]|Hin]%elem_of_cons; [by rewrite Es, Ec | by eapply IH].
    + destruct IH as (-> & k & o & Hin & Hk). split; [done|].
      exists k, o. split; [by right | done].
Qed.

(** X6.  When no deflection returns an empty list, the only exception that
    [seqtrace] lets escape is [KeyError], and it raises it exactly when
    the sequence names a key that has no surface or no material pair on
    record with the element. *)
Theorem seqtrace_raises_exactly_on_unregistered_key
    (self : OpticalElement) (raybundle : RayBundle)
    (sequence : list (string * options_dict)) (background_medium : Material)
    (splitup : bool) :
  (∀ m b s, refract m b s splitup ≠ []) →
  (∀ m b s, reflect m b s splitup ≠ []) →
  (∀ e, seqtrace self raybundle sequence background_medium splitup = Raise e →
        e = KeyError) ∧
  (seqtrace self raybundle sequence background_medium splitup = Raise KeyError ↔
   ∃ surfkey surfoptions, (surfkey, surfoptions) ∈ sequence ∧
     (surfaces self !! surfkey = None ∨ surf_mat_connection self !! surfkey = None)).
Proof.
  intros Hr Hl.
  pose proof (seqtrace_loop_outcome self background_medium splitup sequence
                background_medium [RayPath_init raybundle] 0 Hr Hl
                ltac:(by repeat constructor)) as Hout.
  unfold seqtrace.
  destruct (seqtrace_loop _ _ _ _ _) as [st|e]; cbn.
  - split; [done|]. split; [done|].
    intros (k & o & Hin & Hk). destruct (Hout k o Hin) as [[? Hs] [? Hc]].
    destruct Hk; congruence.
  - destruct Hout as [-> Hex]. split; [by intros ? [= <-]|]. done.
Qed.

(** The branch paths of a list of paths whose deflections all return [k]
    bundles. *)
Lemma branches_length (deflection : RayBundle → list RayBundle) (k : nat)
    (readied rpaths1 : list RayPath) :
  (∀ b, length (deflection b) = k) →
  Forall2 (λ rp rp', ∃ b rb0 rbs,
             last (raybundles rp) = Some b ∧ deflection b = rb0 :: rbs ∧
             rp' = appendRayBundle rp rb0) readied rpaths1 →
  length rpaths1 + length (mjoin (branches deflection <$> readied))
  = k * length readied.
Proof.
  intros Hk. induction 1 as [|rp rp' readied rpaths1 (b & rb0 & rbs & Hb & Hd & _) _ IH].
  - cbn. lia.
  - rewrite fmap_cons.
    change (mjoin (branches deflection rp :: (branches deflection <$> readied)))
      with (branches deflection rp ++ mjoin (branches deflection <$> readied)).
    rewrite length_app. unfold branches at 1. rewrite Hb, length_fmap.
    specialize (Hk b). rewrite Hd in Hk |- *. cbn [length tail] in Hk |- *.
    set (x := length (mjoin (branches deflection <$> readied))) in *.
    nia.
Qed.

Lemma seqtrace_loop_count self background_medium splitup sequence
    current_material rpaths current_material' rpaths' (k : nat) :
  (∀ m b s, length (refract m b s splitup) = k) →
  (∀ m b s, length (reflect m b s splitup) = k) →
  seqtrace_loop self background_medium splitup sequence (current_material, rpaths)
    = Ok (current_material', rpaths') →
  length rpaths' = k ^ length sequence * length rpaths.
Proof.
  intros Hr Hl. revert current_material rpaths.
  induction sequence as [|[surfkey surfoptions] sequence IH];
    intros cm rpaths; cbn [seqtrace_loop].
  - intros [= <- <-]. cbn. lia.
  - destruct (seqtrace_body _ _ _ _ _) as [[cm1 rpaths1]|] eqn:Eb; [|done]. cbn.
    intros E. apply IH in E. rewrite E. cbn [length Nat.pow].
    apply seqtrace_body_Ok in Eb
      as (surf & conn & readied & r1 & rn & _ & _ & _ & Hp & Hd & ->).
    apply mapM_result_Ok in Hp. apply deflect_loop_Ok in Hd as [HF ->].
    cbn [app]. rewrite length_app.
    rewrite (branches_length _ k readied r1); [|  |exact HF].
    + rewrite <- (Forall2_length _ _ _ Hp). lia.
    + intros b. unfold deflection_at. by destruct (negb _).
Qed.

(** X7.  When every deflection returns exactly [k] bundles, a run of
    [seqtrace] that returns gives [k] to the power of the number of
    sequence entries many paths. *)
Theorem seqtrace_number_of_paths
    (self : OpticalElement) (raybundle : RayBundle)
    (sequence : list (string * options_dict)) (background_medium : Material)
    (splitup : bool) (k : nat) (rpaths : list RayPath) :
  (∀ m b s, length (refract m b s splitup) = k) →
  (∀ m b s, length (reflect m b s splitup) = k) →
  seqtrace self raybundle sequence background_medium splitup = Ok rpaths →
  length rpaths = k ^ length sequence.
Proof.
  intros Hr Hl. unfold seqtrace.
  destruct (seqtrace_loop _ _ _ _ _) as [[cm rpaths']|] eqn:E; [|done].
  cbn. intros [= <-].
  apply (seqtrace_loop_count _ _ _ _ _ _ _ _ k Hr Hl) in E. cbn in E. lia.
Qed.

(** A path of at least two bundles keeps its first bundle through a
    sequence entry, and so do the branch paths copied from it. *)
Lemma seqtrace_body_keeps_head self background_medium splitup current_material rpaths
    entry current_material' rpaths' (first : RayBundle) :
  Forall (λ rp, head (raybundles rp) = Some first ∧ 2 ≤ length (raybundles rp)) rpaths →
  seqtrace_body self background_medium splitup (current_material, rpaths) entry
    = Ok (current_material', rpaths') →
  Forall (λ rp, head (raybundles rp) = Some first ∧ 2 ≤ length (raybundles rp)) rpaths'.
Proof.
  intros Hh E. destruct entry as [surfkey surfoptions].
  apply seqtrace_body_Ok in E
    as (surf & conn & readied & r1 & rn & _ & _ & _ & Hp & Hd & ->).
  apply mapM_result_Ok in Hp. apply deflect_loop_Ok in Hd as [HF ->].
  assert (Hr : Forall (λ rp, head (raybundles rp) = Some first ∧
                             2 ≤ length (raybundles rp)) readied).
  { apply Forall_forall. intros r [i Hi]%list_elem_of_lookup.
    destruct (Forall2_lookup_r _ _ _ _ _ Hp Hi) as (rp & Hrp & Hpp).
    apply propagate_path_Ok in Hpp as (front & b & E1 & E2).
    rewrite Forall_forall in Hh.
    destruct (Hh rp ltac:(by eapply list_elem_of_lookup_2)) as [Hhd Hlen].
    rewrite E1 in Hhd, Hlen. rewrite E2. rewrite length_app in Hlen |- *. cbn in *.
    destruct front as [|f front]; [cbn in Hlen; lia|]. done. }
  assert (Happ : ∀ r rb, head (raybundles r) = Some first ∧ 2 ≤ length (raybundles r) →
            head (raybundles (appendRayBundle r rb)) = Some first ∧
            2 ≤ length (raybundles (appendRayBundle r rb))).
  { intros r rb [Hhd Hlen]. cbn. rewrite length_app.
    destruct (raybundles r); [done|]. split; [done | cbn; lia]. }
  rewrite Forall_forall in Hr.
  apply Forall_app. split; apply Forall_forall.
  - intros r' [i Hi]%list_elem_of_lookup.
    destruct (Forall2_lookup_r _ _ _ _ _ HF Hi) as (r & Hri & b & rb0 & rbs & _ & _ & ->).
    apply Happ, Hr. by eapply list_elem_of_lookup_2.
  - intros r' Hin. cbn in Hin.
    apply list_elem_of_join in Hin as (l & Hin & Hl).
    apply list_elem_of_fmap in Hl as (r & -> & Hr').
    unfold branches in Hin. destruct (last (raybundles r)); [|by apply elem_of_nil in Hin].
    apply list_elem_of_fmap in Hin as (rb & -> & _).
    unfold deepcopy. by apply Happ, Hr.
Qed.

Lemma seqtrace_loop_keeps_head self background_medium splitup sequence
    current_material rpaths current_material' rpaths' (first : RayBundle) :
  Forall (λ rp, head (raybundles rp) = Some first ∧ 2 ≤ length (raybundles rp)) rpaths →
  seqtrace_loop self background_medium splitup sequence (current_material, rpaths)
    = Ok (current_material', rpaths') →
  Forall (λ rp, head (raybundles rp) = Some first ∧ 2 ≤ length (raybundles rp)) rpaths'.
Proof.
  revert current_material rpaths.
  induction sequence as [|entry sequence IH]; intros cm rpaths Hh; cbn [seqtrace_loop].
  - by intros [= <- <-].
  - destruct (seqtrace_body _ _ _ _ _) as [[cm1 rpaths1]|] eqn:Eb; [|done]. cbn.
    apply IH. by eapply seqtrace_body_keeps_head.
Qed.

(** X8.  All paths that [seqtrace] returns for a sequence that is not
    empty begin with one and the same bundle: the seed bundle as
    [propagate] of the background medium has brought it to the first
    surface.  Branch paths differ from their origin only behind it. *)
Theorem seqtrace_paths_share_first_bundle
    (self : OpticalElement) (raybundle : RayBundle)
    (surfkey : string) (surfoptions : options_dict)
    (sequence : list (string * options_dict)) (background_medium : Material)
    (splitup : bool) (rpaths : list RayPath) :
  seqtrace self raybundle ((surfkey, surfoptions) :: sequence) background_medium splitup
    = Ok rpaths →
  ∃ current_surface,
    surfaces self !! surfkey = Some current_surface ∧
    Forall (λ rp, head (raybundles rp)
                  = Some (propagate background_medium raybundle current_surface)) rpaths.
Proof.
  unfold seqtrace. cbn [seqtrace_loop].
  destruct (seqtrace_body _ _ _ _ _) as [[cm1 rpaths1]|] eqn:Eb; [|done]. cbn.
  destruct (seqtrace_loop _ _ _ _ _) as [[cm2 rpaths2]|] eqn:El; [|done]. cbn.
  intros [= <-].
  pose proof Eb as Eb'.
  apply seqtrace_body_Ok in Eb'
    as (surf & conn & readied & r1 & rn & Hs & _ & _ & Hp & Hd & ->).
  exists surf. split; [done|].
  apply mapM_result_Ok in Hp.
  apply Forall2_cons_inv_l in Hp as (r & ? & Hr1 & ->%Forall2_nil_inv_l & ->).
  apply propagate_path_Ok in Hr1 as (front & b & Erp & Er).
  cbn in Erp. destruct front as [|? front]; [|by destruct front].
  cbn in Erp, Er. injection Erp as <-.
  apply deflect_loop_Ok in Hd as [HF ->].
  apply Forall2_cons_inv_l in HF as (r' & ? & (b' & rb0 & rbs & Hb' & Hdb & ->)
                                       & ->%Forall2_nil_inv_l & ->).
  eapply Forall_impl.
  - eapply (seqtrace_loop_keeps_head _ _ _ _ _ _ _ _
              (propagate background_medium raybundle surf)); [|exact El].
    apply Forall_app. split.
    + repeat constructor; cbn; rewrite Er; [done | cbn; lia].
    + cbn. rewrite app_nil_r. unfold branches. rewrite Hb'.
      apply Forall_fmap, Forall_forall. intros rb _. cbn. unfold deepcopy.
      rewrite Er. split; [done | cbn; lia].
  - by intros rp [? _].
Qed.

End trace_more_facts.
(** ** More on the pilot-ray transfer matrices *)

Section pilot_more_facts.
Context `{PilotNumerics}.

(** A key that no remaining hit writes, forwards or reversed, keeps its
    entry. *)
Lemma calculateXYUV_loop_untouched self gen hits XYUVmatrices result_ key :
  calculateXYUV_loop self gen hits XYUVmatrices = Ok result_ →
  Forall (λ t, t.2 ≠ key ∧ (t.2.1.2, t.2.1.1, t.2.2) ≠ key) hits →
  result_ !! key = XYUVmatrices !! key.
Proof.
  revert XYUVmatrices.
  induction hits as [|[[pb1 pb2] [[s1 s2] n]] hits IH]; intros M E HF.
  - cbn in E. by injection E as <-.
  - apply Forall_cons in HF as [[Hk1 Hk2] HF]. cbn in Hk1, Hk2.
    apply calculateXYUV_loop_cons in E as (? & ? & tr & inv & _ & _ & _ & _ & E).
    rewrite (IH _ E HF). by rewrite !lookup_insert_ne.
Qed.

(** Entries are written and overwritten, never removed. *)
Lemma calculateXYUV_loop_keeps_keys self gen hits XYUVmatrices result_ key :
  calculateXYUV_loop self gen hits XYUVmatrices = Ok result_ →
  is_Some (XYUVmatrices !! key) → is_Some (result_ !! key).
Proof.
  revert XYUVmatrices.
  induction hits as [|[[pb1 pb2] [[s1 s2] n]] hits IH]; intros M E HS.
  - cbn in E. by injection E as <-.
  - apply calculateXYUV_loop_cons in E as (? & ? & tr & inv & _ & _ & _ & _ & E).
    apply (IH _ E). rewrite !lookup_insert_is_Some. destruct HS; eauto 6.
    destruct (decide ((s2, s1, n) = key)); [by left|right].
    split; [done|]. destruct (decide ((s1, s2, n) = key)); [by left|right; eauto].
Qed.

Lemma calculateXYUV_loop_dom self gen hits XYUVmatrices result_ key :
  calculateXYUV_loop self gen hits XYUVmatrices = Ok result_ →
  is_Some (result_ !! key) ↔
  is_Some (XYUVmatrices !! key) ∨
  ∃ t, t ∈ hits ∧ (t.2 = key ∨ (t.2.1.2, t.2.1.1, t.2.2) = key).
Proof.
  revert XYUVmatrices.
  induction hits as [|[[pb1 pb2] [[s1 s2] n]] hits IH]; intros M E.
  - cbn in E. injection E as <-. split; [by left|].
    intros [?|(t & Hin & _)]; [done | by apply elem_of_nil in Hin].
  - apply calculateXYUV_loop_cons in E as (? & ? & tr & inv & _ & _ & _ & _ & E).
    rewrite (IH _ E), !lookup_insert_is_Some. split.
    + intros [[Hk|[_ [Hk|[_ HM]]]]|(t & Hin & Ht)].
      * right. eexists. split; [by left|]. by right.
      * right. eexists. split; [by left|]. by left.
      * by left.
      * right. exists t. split; [by right | done].
    + intros [HM|(t & [->|Hin]%elem_of_cons & Ht)].
      * left. destruct (decide ((s2, s1, n) = key)); [by left|right].
        split; [done|]. destruct (decide ((s1, s2, n) = key)); [by left|right; eauto].
      * cbn in Ht. left. destruct Ht as [Ht|Ht].
        -- destruct (decide ((s2, s1, n) = key)); [by left|right].
           split; [done|]. by left.
        -- by left.
      * right. eauto.
Qed.

(** What the loop leaves under the two keys of a hit that no later hit
    writes. *)
Lemma calculateXYUV_loop_lookup self gen hits XYUVmatrices result_
    i pb1 pb2 s1 s2 n :
  calculateXYUV_loop self gen hits XYUVmatrices = Ok result_ →
  hits !! i = Some (pb1, pb2, (s1, s2, n)) →
  ∃ surf1 surf2 transfer invtransfer,
    surfaces self !! s1 = Some surf1 ∧
    surfaces self !! s2 = Some surf2 ∧
    bestfit_transfer (reduced_coordinates gen surf1 pb1)
                     (reduced_coordinates gen surf2 pb2) = Ok transfer ∧
    bestfit_transfer (reduced_coordinates gen surf2 pb2)
                     (reduced_coordinates gen surf1 pb1) = Ok invtransfer ∧
    (Forall (λ t, t.2 ≠ (s2, s1, n) ∧ (t.2.1.2, t.2.1.1, t.2.2) ≠ (s2, s1, n))
            (drop (S i) hits) →
     result_ !! (s2, s1, n) = Some invtransfer) ∧
    (s1 ≠ s2 →
     Forall (λ t, t.2 ≠ (s1, s2, n) ∧ (t.2.1.2, t.2.1.1, t.2.2) ≠ (s1, s2, n))
            (drop (S i) hits) →
     result_ !! (s1, s2, n) = Some transfer).
Proof.
  revert XYUVmatrices i.
  induction hits as [|[[pb1' pb2'] [[s1' s2'] n']] hits IH]; intros M i E Hi; [done|].
  apply calculateXYUV_loop_cons in E as (surf1 & surf2 & tr & inv & Hs1 & Hs2 & Ht & Hin & E).
  destruct i as [|i].
  - cbn in Hi. injection Hi as -> -> -> -> ->.
    exists surf1, surf2, tr, inv. repeat split; try done.
    + intros HF. cbn in HF. rewrite (calculateXYUV_loop_untouched _ _ _ _ _ _ E HF).
      by rewrite lookup_insert_eq.
    + intros Hne HF. cbn in HF. rewrite (calculateXYUV_loop_untouched _ _ _ _ _ _ E HF).
      rewrite lookup_insert_ne by (intros [= ? ?]; by apply Hne).
      by rewrite lookup_insert_eq.
  - cbn in Hi. apply (IH _ i E Hi).
Qed.

(** X9.  When [calculateXYUV] returns, the pilot path it returns stores
    one bundle more than the sequence has entries, and the keys of the
    mapping are exactly the hits of the sequence and the hits with their
    two surfaces swapped.  A later look-up of a hit of the sequence, as
    [para_seqtrace] makes it, finds an entry. *)
Theorem calculateXYUV_keys_are_the_hits
    (self : OpticalElement) (pilotinitbundle : RayBundle)
    (sequence : list (string * options_dict)) (background_medium : Material)
    (pilotraypath_nr : nat) (gen : string)
    (pilotraypath : RayPath) (XYUVmatrices : gmap (string * string * nat) array) :
  calculateXYUV self pilotinitbundle sequence background_medium pilotraypath_nr gen
    = Ok (pilotraypath, XYUVmatrices) →
  length (raybundles pilotraypath) = 1 + length sequence ∧
  ∀ s1 s2 n,
    is_Some (XYUVmatrices !! (s1, s2, n)) ↔
    (s1, s2, n) ∈ (sequence_to_hitlist sequence).1 ∨
    (s2, s1, n) ∈ (sequence_to_hitlist sequence).1.
Proof.
  unfold calculateXYUV.
  pose proof (C2len := consecutive_length sequence).
  assert (Hlen : length (sequence_to_hitlist sequence).1 = length sequence - 1).
  { rewrite sequence_to_hitlist_hits, hits_from_length. unfold transitions.
    by rewrite consecutive_length, length_fmap. }
  destruct (sequence_to_hitlist sequence) as [hitlist optionshitlistdict].
  cbn [fst] in *.
  destruct (seqtrace _ _ _ _ _) as [pilotraypaths|] eqn:Et; [|done]. cbn.
  unfold list_getitem.
  destruct (pilotraypaths !! pilotraypath_nr) as [path|] eqn:Ep; [|done]. cbn.
  apply seqtrace_path_lengths in Et. rewrite Forall_forall in Et.
  specialize (Et path ltac:(by eapply list_elem_of_lookup_2)).
  destruct (calculateXYUV_loop _ _ _ _) as [XYUV|] eqn:El; [|done]. cbn.
  intros [= <- <-]. split; [done|].
  intros s1 s2 n.
  rewrite (calculateXYUV_loop_dom _ _ _ _ _ _ El), lookup_empty.
  assert (Hsnd : (zip (zip (removelast (raybundles path)) (tail (raybundles path)))
                      hitlist).*2 = hitlist).
  { apply snd_zip. rewrite consecutive_length. lia. }
  split.
  - intros [[? ?]|([pbs [[a b] m]] & Hin & Ht)]; [done|].
    apply (list_elem_of_fmap_2 snd) in Hin. rewrite Hsnd in Hin. cbn in Hin, Ht.
    destruct Ht as [[= -> -> ->]|[= -> -> ->]]; [by left | by right].
  - intros Hin. right.
    assert (∀ h, h ∈ hitlist → ∃ t, t ∈ zip (zip (removelast (raybundles path))
                                               (tail (raybundles path))) hitlist ∧ t.2 = h)
      as Hex.
    { intros h Hh. rewrite <- Hsnd in Hh.
      apply list_elem_of_fmap in Hh as (t & -> & Ht). eauto. }
    destruct Hin as [Hin|Hin]; destruct (Hex _ Hin) as (t & Ht & Et');
      exists t; (split; [done|]); rewrite Et'; cbn; auto.
Qed.

(** X10.  For a sequence that visits no surface twice, every hit keeps
    what the loop has written for it: the returned mapping holds under
    the key of the hit the fit from the bundle at the start surface to the
    bundle at the end surface, and under the key with the surfaces swapped
    the fit in the reverse direction. *)
Theorem calculateXYUV_on_distinct_surfaces
    (self : OpticalElement) (pilotinitbundle : RayBundle)
    (sequence : list (string * options_dict)) (background_medium : Material)
    (pilotraypath_nr : nat) (gen : string)
    (pilotraypath : RayPath) (XYUVmatrices : gmap (string * string * nat) array) :
  NoDup sequence.*1 →
  calculateXYUV self pilotinitbundle sequence background_medium pilotraypath_nr gen
    = Ok (pilotraypath, XYUVmatrices) →
  ∀ i s1 s2 n,
    (sequence_to_hitlist sequence).1 !! i = Some (s1, s2, n) →
    ∃ surf1 surf2 pb1 pb2 transfer invtransfer,
      surfaces self !! s1 = Some surf1 ∧
      surfaces self !! s2 = Some surf2 ∧
      raybundles pilotraypath !! i = Some pb1 ∧
      raybundles pilotraypath !! S i = Some pb2 ∧
      bestfit_transfer (reduced_coordinates gen surf1 pb1)
                       (reduced_coordinates gen surf2 pb2) = Ok transfer ∧
      bestfit_transfer (reduced_coordinates gen surf2 pb2)
                       (reduced_coordinates gen surf1 pb1) = Ok invtransfer ∧
      XYUVmatrices !! (s1, s2, n) = Some transfer ∧
      XYUVmatrices !! (s2, s1, n) = Some invtransfer.
Proof.
  intros Hnd. unfold calculateXYUV.
  pose proof (sequence_to_hitlist_lookup_keys sequence) as Hkeys.
  assert (Hlen : length (sequence_to_hitlist sequence).1 = length sequence - 1).
  { rewrite sequence_to_hitlist_hits, hits_from_length. unfold transitions.
    by rewrite consecutive_length, length_fmap. }
  destruct (sequence_to_hitlist sequence) as [hitlist optionshitlistdict].
  cbn [fst] in *.
  destruct (seqtrace _ _ _ _ _) as [pilotraypaths|] eqn:Et; [|done]. cbn.
  unfold list_getitem.
  destruct (pilotraypaths !! pilotraypath_nr) as [path|] eqn:Ep; [|done]. cbn.
  apply seqtrace_path_lengths in Et. rewrite Forall_forall in Et.
  specialize (Et path ltac:(by eapply list_elem_of_lookup_2)).
  destruct (calculateXYUV_loop _ _ _ _) as [XYUV|] eqn:El; [|done]. cbn.
  intros [= <- <-] i s1 s2 n Hi.
  set (pairs := zip (removelast (raybundles path)) (tail (raybundles path))) in *.
  assert (Hpl : length pairs = length sequence).
  { unfold pairs. rewrite consecutive_length. lia. }
  destruct (lookup_lt_is_Some_2 pairs i) as [[pb1 pb2] Hp].
  { apply lookup_lt_Some in Hi. lia. }
  assert (Ht : zip pairs hitlist !! i = Some (pb1, pb2, (s1, s2, n))).
  { rewrite lookup_zip_with, Hp. cbn. by rewrite Hi. }
  destruct (calculateXYUV_loop_lookup _ _ _ _ _ _ _ _ _ _ _ El Ht)
    as (surf1 & surf2 & tr & inv & Hs1 & Hs2 & Htr & Hinv & Hrev & Hfwd).
  apply consecutive_lookup in Hp as [Hp1 Hp2].
  destruct (Hkeys _ _ _ _ Hi) as [Hk1 Hk2].
  assert (Hne : s1 ≠ s2).
  { intros ->. pose proof (NoDup_lookup _ _ _ _ Hnd Hk1 Hk2). lia. }
  assert (Hlater : ∀ j t, drop (S i) (zip pairs hitlist) !! j = Some t →
            ∃ a b, sequence.*1 !! (S i + j) = Some a ∧
                   sequence.*1 !! S (S i + j) = Some b ∧
                   t.2.1.1 = a ∧ t.2.1.2 = b).
  { intros j [pbs [[a b] m]] Hj. rewrite lookup_drop in Hj.
    apply lookup_zip_with_Some in Hj as (x & h & Heq & _ & Eh).
    injection Heq as _ <-.
    destruct (Hkeys _ _ _ _ Eh) as [Ha Hb]. by exists a, b. }
  exists surf1, surf2, pb1, pb2, tr, inv. repeat split; try done.
  - apply Hfwd; [done|]. apply Forall_lookup. intros j t Hj.
    destruct (Hlater j t Hj) as (a & b & Ha & Hb & Ea & Eb).
    destruct t as [pbs [[a' b'] m]]. cbn in *. subst a' b'. split.
    + intros [= -> -> ->]. pose proof (NoDup_lookup _ _ _ _ Hnd Hk1 Ha). lia.
    + intros [= -> -> ->]. pose proof (NoDup_lookup _ _ _ _ Hnd Hk1 Hb). lia.
  - apply Hrev. apply Forall_lookup. intros j t Hj.
    destruct (Hlater j t Hj) as (a & b & Ha & Hb & Ea & Eb).
    destruct t as [pbs [[a' b'] m]]. cbn in *. subst a' b'. split.
    + intros [= -> -> ->]. pose proof (NoDup_lookup _ _ _ _ Hnd Hk1 Hb). lia.
    + intros [= -> -> ->]. pose proof (NoDup_lookup _ _ _ _ Hnd Hk1 Ha). lia.
Qed.

End pilot_more_facts.
(** ** Closed-form intersections *)

Section conic_facts.
Local Open Scope R_scope.

Lemma np_ge_false (a b : R) : np_ge a b = false ↔ a < b.
Proof. unfold np_ge. destruct (Rge_dec a b); split; (done || lra). Qed.

Lemma np_ge_true (a b : R) : np_ge a b = true ↔ b <= a.
Proof. unfold np_ge. destruct (Rge_dec a b); split; (done || lra). Qed.

Lemma np_gt_false (a b : R) : np_gt a b = false ↔ a <= b.
Proof. unfold np_gt. destruct (Rgt_dec a b); split; (done || lra). Qed.

Lemma np_gt_true (a b : R) : np_gt a b = true ↔ b < a.
Proof. unfold np_gt. destruct (Rgt_dec a b); split; (done || lra). Qed.

(** A mask built ray by ray relates to the rays ray by ray. *)
Lemma Forall2_zip_with_mask (f : vec3 → vec3 → bool) (r0 rayDir : list vec3) :
  Forall2 (λ od flag, flag = f od.1 od.2) (zip r0 rayDir) (zip_with f r0 rayDir).
Proof.
  revert rayDir. induction r0 as [|o r0 IH]; intros [|d rayDir]; cbn;
    constructor; auto.
Qed.

(** The flags of [Conic.intersect]: false exactly on a negative
    discriminant. *)
Lemma Conic_validIndices_spec (self : Conic) (r0 rayDir : list vec3) :
  Forall2 (λ od flag, (flag = false ↔ Conic_square self od.1 od.2 < 0) ∧
                      (flag = true ↔ 0 <= Conic_square self od.1 od.2))
          (zip r0 rayDir) (Conic_validIndices self r0 rayDir).
Proof.
  eapply Forall2_impl; [apply Forall2_zip_with_mask|].
  intros [o d] flag ->. cbn. split; [apply np_ge_false | apply np_ge_true].
Qed.

(** The flags of [Cylinder.intersect]: false on a negative and on a zero
    discriminant. *)
Lemma Cylinder_validIndices_spec (self : Conic) (r0 rayDir : list vec3) :
  Forall2 (λ od flag, (flag = false ↔ Cylinder_square self od.1 od.2 <= 0) ∧
                      (flag = true ↔ 0 < Cylinder_square self od.1 od.2))
          (zip r0 rayDir) (Cylinder_validIndices self r0 rayDir).
Proof.
  eapply Forall2_impl; [apply Forall2_zip_with_mask|].
  intros [o d] flag ->. cbn. split; [apply np_gt_false | apply np_gt_true].
Qed.

(** ** C4 *)

(** C4.  For a [Conic] the validity flag of a ray is false exactly when
    the discriminant F^2 + H*G is negative, and true when it is not
    negative.  For a [Cylinder] the flag is false also on the
    discriminant zero: the ray along +z through (0, 1, 0) touches the
    cylinder of radius 1 at the path length 1, in the point (0, 1, 1);
    its discriminant is 0 and its flag is false. *)
Theorem C4_conic_flags_and_cylinder_tangent_ray :
  (∀ (self : Conic) (r0 rayDir : list vec3),
     Forall2 (λ od flag, (flag = false ↔ Conic_square self od.1 od.2 < 0) ∧
                         (flag = true ↔ 0 <= Conic_square self od.1 od.2))
             (zip r0 rayDir) (Conic_validIndices self r0 rayDir)) ∧
  (∀ (self : Conic) (r0 rayDir : list vec3),
     Forall2 (λ od flag, flag = false ↔ Cylinder_square self od.1 od.2 <= 0)
             (zip r0 rayDir) (Cylinder_validIndices self r0 rayDir)) ∧
  Cylinder_square unit_cylinder ray_origin_tangent ray_dir_tangent = 0 ∧
  Cylinder_t unit_cylinder ray_origin_tangent ray_dir_tangent = 1 ∧
  ray_at ray_origin_tangent ray_dir_tangent 1 = mkvec3 0 1 1 ∧
  Cylinder_validIndices unit_cylinder [ray_origin_tangent] [ray_dir_tangent] = [false].
Proof.
  split; [apply Conic_validIndices_spec|].
  split.
  { intros self r0 rayDir. eapply Forall2_impl; [apply Cylinder_validIndices_spec|].
    by intros od flag [? _]. }
  assert (Hsq : Cylinder_square unit_cylinder ray_origin_tangent ray_dir_tangent = 0).
  { unfold Cylinder_square, Cylinder_F, Cylinder_G, Cylinder_H. cbn. ring. }
  split; [done|]. split; [|split].
  - unfold Cylinder_t. rewrite Hsq, sqrt_0.
    unfold Cylinder_F, Cylinder_G. cbn. field.
  - unfold ray_at. cbn. f_equal; ring.
  - cbn. f_equal. apply np_gt_false. rewrite Hsq. lra.
Qed.

(** ** C5 *)

(** C5.  For a [Conic] of curvature 0 and a ray whose local direction has
    a positive z component, the path length is [-origin.z / direction.z];
    the ray is flagged valid and the point it is taken to lies in the
    plane z = 0. *)
Theorem C5_flat_conic_is_plane (self : Conic) (r0 rayDir : vec3) :
  curvature self = 0 →
  0 < c2 rayDir →
  Conic_t self r0 rayDir = - c2 r0 / c2 rayDir ∧
  Conic_validIndices self [r0] [rayDir] = [true] ∧
  c2 (ray_at r0 rayDir (Conic_t self r0 rayDir)) = 0.
Proof.
  intros Hc Hd.
  assert (HF : Conic_F self r0 rayDir = c2 rayDir)
    by (unfold Conic_F; rewrite Hc; cbn; ring).
  assert (HG : Conic_G self r0 rayDir = - 2 * c2 r0)
    by (unfold Conic_G; rewrite Hc; cbn; ring).
  assert (Hsq : Conic_square self r0 rayDir = (c2 rayDir) ^ 2).
  { unfold Conic_square. rewrite HF, HG. unfold Conic_H. rewrite Hc. ring. }
  assert (Ht : Conic_t self r0 rayDir = - c2 r0 / c2 rayDir).
  { unfold Conic_t. rewrite Hsq, HF, HG, sqrt_pow2 by lra. field. lra. }
  split; [done|]. split.
  - cbn. f_equal. apply np_ge_true. rewrite Hsq. nra.
  - rewrite Ht. cbn. field. lra.
Qed.

Lemma C5_flat_conic_is_plane_witness :
  Conic_t flat_conic ray_origin_axis ray_dir_axis
    = - c2 ray_origin_axis / c2 ray_dir_axis ∧
  Conic_validIndices flat_conic [ray_origin_axis] [ray_dir_axis] = [true] ∧
  c2 (ray_at ray_origin_axis ray_dir_axis
        (Conic_t flat_conic ray_origin_axis ray_dir_axis)) = 0.
Proof.
  apply (C5_flat_conic_is_plane flat_conic ray_origin_axis ray_dir_axis).
  - reflexivity.
  - simpl. lra.
Defined.

End conic_facts.

(** ** Iterative intersection of the free shapes *)

Section freeshape_facts.
Context `{RayBundleAccess} `{RootFinder}.
Local Open Scope R_scope.

(** The mask of [ExplicitShape.intersect]. *)
Lemma ExplicitShape_validIndices_spec (r0 : list vec3) :
  length (ExplicitShape_validIndices r0) = length r0 ∧
  Forall (λ flag, flag = true) (ExplicitShape_validIndices r0).
Proof.
  unfold ExplicitShape_validIndices. split; [by rewrite length_map|].
  apply Forall_forall. by intros flag (? & -> & _)%list_elem_of_fmap.
Qed.

(** The mask of [ImplicitShape.intersect] for a bundle that has a ray. *)
Lemma ImplicitShape_validIndices_spec (r0 : list vec3) :
  r0 ≠ [] →
  ∃ validIndices,
    ImplicitShape_validIndices r0 = Ok validIndices ∧
    length validIndices = length r0 ∧
    Forall (λ flag, flag = true) validIndices.
Proof.
  intros Hne. unfold ImplicitShape_validIndices.
  destruct r0 as [|o r0]; [done|]. cbn [map length].
  rewrite decide_True by lia. eexists. split; [done|].
  cbn. split; [by rewrite length_map|].
  constructor; [done|]. apply Forall_forall.
  by intros flag (? & -> & _)%list_elem_of_fmap.
Qed.

(** ** C6 *)

(** C6, where the code departs from it.  [ExplicitShape.intersect] and
    [ImplicitShape.intersect] flag every ray of the bundle valid,
    whatever the root finder has returned for it, and the iteration
    count configured in the shape has no influence on what they return:
    it is never handed to the root finder.  So a ray for which no solve
    can converge is flagged valid: the ray in the plane z = 0 along +x
    never meets the explicit surface z = 1 (the residual is -1 at every
    path length), and no ray meets the implicit surface
    x^2 + y^2 + z^2 + 1 = 0 (the residual is at least 1 everywhere); the
    flag of such a ray is [True] with every root finder. *)
Theorem C6_freeshape_intersect_flags_every_ray_valid :
  (∀ (self : ExplicitShape) (raybundle : Bundle),
     ∃ globalinter validIndices,
       ExplicitShape_intersect self raybundle
       = bundle_append raybundle globalinter (bundle_k_last raybundle)
           (bundle_Efield_last raybundle) validIndices ∧
       length validIndices = length (bundle_x_last raybundle) ∧
       Forall (λ flag, flag = true) validIndices) ∧
  (∀ (self : ImplicitShape) (raybundle : Bundle),
     bundle_o raybundle ≠ [] →
     ∃ intersection t normal validIndices,
       ImplicitShape_intersect self raybundle
       = Ok (intersection, t, normal, validIndices) ∧
       length validIndices = length (bundle_o raybundle) ∧
       Forall (λ flag, flag = true) validIndices) ∧
  (∀ (n : nat) (self : ExplicitShape) (raybundle : Bundle),
     ExplicitShape_intersect (with_iterations n self) raybundle
     = ExplicitShape_intersect self raybundle) ∧
  (∀ (n : nat) (self : ImplicitShape) (raybundle : Bundle),
     ImplicitShape_intersect (with_implicit_iterations n self) raybundle
     = ImplicitShape_intersect self raybundle) ∧
  (∀ t, Fwrapper_ray plane_at_one t ray_origin_parallel ray_dir_parallel = -1) ∧
  tol plane_at_one < 1 ∧
  (∀ raybundle : Bundle,
     getLocalRayBundleForIntersect (explicit_lc plane_at_one) raybundle
       = ([ray_origin_parallel], [ray_dir_parallel]) →
     ∃ globalinter,
       ExplicitShape_intersect plane_at_one raybundle
       = bundle_append raybundle globalinter (bundle_k_last raybundle)
           (bundle_Efield_last raybundle) [true]) ∧
  (∀ t r0 rayDir, 1 <= ImplicitShape_Fwrapper_ray pointless_sphere t r0 rayDir) ∧
  implicit_tol pointless_sphere < 1 ∧
  (∀ (raybundle : Bundle) (r0 : vec3),
     bundle_o raybundle = [r0] →
     ∃ intersection t normal,
       ImplicitShape_intersect pointless_sphere raybundle
       = Ok (intersection, t, normal, [true])).
Proof.
  split; [|split; [|split; [done|split; [done|]]]].
  - intros self raybundle. unfold ExplicitShape_intersect.
    unfold getLocalRayBundleForIntersect. eexists _, _. split; [done|].
    destruct (ExplicitShape_validIndices_spec
                (map (lc_returnGlobalToLocalPoints (explicit_lc self))
                   (bundle_x_last raybundle))) as [Hlen Hall].
    split; [|done]. by rewrite Hlen, length_map.
  - intros self raybundle Hne. unfold ImplicitShape_intersect.
    destruct (ImplicitShape_validIndices_spec _ Hne) as (v & -> & Hlen & Hall).
    cbn. by eexists _, _, _, _.
  - split; [|split; [|split; [|split; [|split]]]].
    + intros t. unfold Fwrapper_ray. cbn. ring.
    + cbn. lra.
    + intros raybundle Hrays. unfold ExplicitShape_intersect. rewrite Hrays.
      by eexists.
    + intros t r0 rayDir. unfold ImplicitShape_Fwrapper_ray.
      cbn [implicit_F pointless_sphere].
      set (x := c0 r0 + t * c0 rayDir). set (y := c1 r0 + t * c1 rayDir).
      set (z := c2 r0 + t * c2 rayDir).
      pose proof (pow2_ge_0 x). pose proof (pow2_ge_0 y). pose proof (pow2_ge_0 z).
      lra.
    + cbn. lra.
    + intros raybundle r0 Hr0. unfold ImplicitShape_intersect. rewrite Hr0.
      cbn. by eexists _, _, _.
Qed.

End freeshape_facts.

Section freeshape_examples.
Local Open Scope R_scope.

Lemma C6_freeshape_intersect_flags_every_ray_valid_witness :
  (∃ globalinter,
     @ExplicitShape_intersect example_bundles example_finder plane_at_one parallel_bundle
     = @bundle_append example_bundles parallel_bundle globalinter
         (@bundle_k_last example_bundles parallel_bundle)
         (@bundle_Efield_last example_bundles parallel_bundle) [true]) ∧
  (∃ intersection t normal,
     @ImplicitShape_intersect example_bundles example_finder pointless_sphere
       parallel_bundle
     = Ok (intersection, t, normal, [true])).
Proof.
  destruct (@C6_freeshape_intersect_flags_every_ray_valid example_bundles example_finder)
    as (_ & _ & _ & _ & _ & _ & Hexplicit & _ & _ & Himplicit).
  split.
  - apply (Hexplicit parallel_bundle). reflexivity.
  - apply (Himplicit parallel_bundle ray_origin_parallel). reflexivity.
Defined.

End freeshape_examples.
(** ** More on the conic shapes *)

Section conic_more_facts.
Local Open Scope R_scope.

(** The path length of [Conic.intersect] solves the quadratic
    [H t^2 + 2 F t - G = 0]. *)
Lemma Conic_t_root (self : Conic) (r0 rayDir : vec3) :
  0 <= Conic_square self r0 rayDir →
  Conic_F self r0 rayDir + sqrt (Conic_square self r0 rayDir) ≠ 0 →
  Conic_H self r0 rayDir * (Conic_t self r0 rayDir)^2
  + 2 * Conic_F self r0 rayDir * Conic_t self r0 rayDir
  - Conic_G self r0 rayDir = 0.
Proof.
  intros Hsq HD. unfold Conic_t.
  pose proof (sqrt_sqrt _ Hsq) as Hs. unfold Conic_square in *.
  set (F := Conic_F self r0 rayDir) in *.
  set (G := Conic_G self r0 rayDir) in *.
  set (H := Conic_H self r0 rayDir) in *.
  set (s := sqrt (F ^ 2 + H * G)) in *.
  assert (E : H * G = (s - F) * (F + s)) by nra.
  assert (Hid : H * (G / (F + s)) ^ 2 + 2 * F * (G / (F + s)) - G
                = G * (H * G - (s - F) * (F + s)) / (F + s) ^ 2) by (field; done).
  rewrite Hid, E. field. done.
Qed.

(** X11.  [Conic.intersect] takes a ray to the surface: for a ray with a
    direction of length 1, a discriminant that is not negative and a
    divisor [F + sqrt(F^2 + H G)] that is not zero, the point
    [r0 + rayDir * t] satisfies the equation of the conic. *)
Theorem Conic_intersect_lands_on_conic (self : Conic) (r0 rayDir : vec3) :
  (c0 rayDir)^2 + (c1 rayDir)^2 + (c2 rayDir)^2 = 1 →
  0 <= Conic_square self r0 rayDir →
  Conic_F self r0 rayDir + sqrt (Conic_square self r0 rayDir) ≠ 0 →
  on_conic self (ray_at r0 rayDir (Conic_t self r0 rayDir)).
Proof.
  intros Hunit Hsq HD.
  pose proof (Conic_t_root self r0 rayDir Hsq HD) as Hroot.
  generalize dependent (Conic_t self r0 rayDir). intros t Hroot. clear Hsq HD.
  destruct r0 as [x0 y0 z0], rayDir as [dx dy dz].
  unfold on_conic, ray_at, Conic_F, Conic_G, Conic_H in *.
  cbn [c0 c1 c2] in *.
  generalize dependent (curvature self). generalize dependent (conic self).
  intros cc c Hroot.
  assert (Hdx : dx ^ 2 + dy ^ 2 = 1 - dz ^ 2) by lra.
  assert (Hexp : - (1 / 2) * (1 + cc) * c * (z0 + dz * t) ^ 2 + (z0 + dz * t)
           - 1 / 2 * c * ((x0 + dx * t) ^ 2 + (y0 + dy * t) ^ 2)
    = - (1 / 2) * ((c * (x0 ^ 2 + y0 ^ 2 + z0 ^ 2 * (1 + cc)) - 2 * z0)
            - 2 * (dz - c * (dx * x0 + dy * y0 + dz * z0 * (1 + cc))) * t
            + c * ((dx ^ 2 + dy ^ 2) + (1 + cc) * dz ^ 2) * t ^ 2)) by field.
  rewrite Hexp, Hdx. nra.
Qed.

Lemma flat_conic_axis_ray_conditions :
  0 <= Conic_square flat_conic ray_origin_axis ray_dir_axis ∧
  Conic_F flat_conic ray_origin_axis ray_dir_axis
    + sqrt (Conic_square flat_conic ray_origin_axis ray_dir_axis) ≠ 0.
Proof.
  assert (Hsq : Conic_square flat_conic ray_origin_axis ray_dir_axis = 1).
  { unfold Conic_square, Conic_F, Conic_G, Conic_H. cbn. ring. }
  rewrite Hsq, sqrt_1. unfold Conic_F. cbn. split; lra.
Qed.

(** X12.  A ray that starts on the surface stays where it is: its path
    length is 0 and the point it is taken to is its start point (the case
    of the FIXME note in [Conic.intersect]). *)
Theorem Conic_intersect_from_the_surface (self : Conic) (r0 rayDir : vec3) :
  on_conic self r0 →
  Conic_F self r0 rayDir + sqrt (Conic_square self r0 rayDir) ≠ 0 →
  Conic_G self r0 rayDir = 0 ∧
  Conic_t self r0 rayDir = 0 ∧
  ray_at r0 rayDir (Conic_t self r0 rayDir) = r0.
Proof.
  intros Hon HD.
  assert (HG : Conic_G self r0 rayDir = 0).
  { unfold on_conic in Hon. unfold Conic_G. cbn. lra. }
  assert (Ht : Conic_t self r0 rayDir = 0).
  { unfold Conic_t. rewrite HG. field. done. }
  split; [done|]. split; [done|].
  rewrite Ht. unfold ray_at. destruct r0 as [x0 y0 z0]. cbn. f_equal; ring.
Qed.

(** The sag where it is a number. *)
Lemma conic_function_Some (self : Conic) (rsquared z : R) :
  conic_function self rsquared = Some z ↔
  0 < 1 - (1 + conic self) * (curvature self)^2 * rsquared ∧
  z = curvature self * rsquared
      / (1 + sqrt (1 - (1 + conic self) * (curvature self)^2 * rsquared)).
Proof.
  unfold conic_function, np_le.
  destruct (Rle_dec _ 0) as [Hle|Hgt]; cbn.
  - split; [done | intros [? _]; lra].
  - split; [intros [= <-]; split; [lra | done] | by intros [_ ->]].
Qed.

Lemma conic_function_None (self : Conic) (rsquared : R) :
  conic_function self rsquared = None ↔
  1 <= (1 + conic self) * (curvature self)^2 * rsquared.
Proof.
  unfold conic_function, np_le.
  destruct (Rle_dec _ 0) as [Hle|Hgt]; cbn; split; (done || lra).
Qed.

(** Where [Conic.conic_function] is a number it solves the equation of
    the section. *)
Lemma conic_function_on_section (self : Conic) (rsquared z : R) :
  conic_function self rsquared = Some z →
  - (1 / 2) * (1 + conic self) * curvature self * z^2 + z
  - (1 / 2) * curvature self * rsquared = 0.
Proof.
  intros [Hq ->]%conic_function_Some.
  set (c := curvature self) in *. set (cc := conic self) in *.
  set (q := 1 - (1 + cc) * c ^ 2 * rsquared) in *.
  pose proof (sqrt_sqrt q ltac:(lra)) as Hs.
  pose proof (sqrt_pos q) as Hs0.
  set (s := sqrt q) in *.
  assert (Hr : (1 + cc) * c ^ 2 * rsquared = (1 - s) * (1 + s)) by (unfold q in *; nra).
  assert (Hid : - (1 / 2) * (1 + cc) * c * (c * rsquared / (1 + s)) ^ 2
                + c * rsquared / (1 + s)
                - 1 / 2 * c * rsquared
                = c * rsquared
                  * (- (1 / 2) * ((1 + cc) * c ^ 2 * rsquared)
                     + (1 + s) - 1 / 2 * (1 + s) ^ 2) / (1 + s) ^ 2)
    by (field; lra).
  rewrite Hid, Hr. field. lra.
Qed.

(** The sag at the vertex is 0. *)
Lemma Conic_getSag_vertex (self : Conic) : Conic_getSag self 0 0 = Some 0.
Proof.
  apply conic_function_Some.
  replace (0 ^ 2 + 0 ^ 2) with 0 by ring.
  rewrite Rmult_0_r, Rminus_0_r, sqrt_1. split; [lra | field].
Qed.

(** X13.  [Conic.getSag] is not a number exactly where
    [(1+cc) c^2 (x^2+y^2) >= 1]; where it is a number, the point
    (x, y, sag) satisfies the equation of the conic; the sag of the vertex
    is 0. *)
Theorem Conic_getSag_on_conic (self : Conic) (x y : R) :
  (Conic_getSag self x y = None ↔
     1 <= (1 + conic self) * (curvature self)^2 * (x^2 + y^2)) ∧
  (∀ z, Conic_getSag self x y = Some z → on_conic self (mkvec3 x y z)) ∧
  Conic_getSag self 0 0 = Some 0.
Proof.
  split; [apply conic_function_None|]. split.
  - intros z Hz. apply (conic_function_on_section self (x ^ 2 + y ^ 2) z Hz).
  - apply Conic_getSag_vertex.
Qed.


(** The third component of the gradient is the root term of the sag. *)
Lemma Conic_getGrad_third (self : Conic) (x y z : R) :
  Conic_getSag self x y = Some z →
  1 - curvature self * z * (1 + conic self)
  = sqrt (1 - (1 + conic self) * (curvature self)^2 * (x^2 + y^2)) ∧
  0 < sqrt (1 - (1 + conic self) * (curvature self)^2 * (x^2 + y^2)).
Proof.
  intros [Hq ->]%conic_function_Some.
  set (c := curvature self) in *. set (cc := conic self) in *.
  set (q := 1 - (1 + cc) * c ^ 2 * (x ^ 2 + y ^ 2)) in *.
  pose proof (sqrt_sqrt q ltac:(lra)) as Hs.
  pose proof (sqrt_lt_R0 q Hq) as Hs0.
  set (s := sqrt q) in *. split; [|done].
  assert (Hr : (1 + cc) * c ^ 2 * (x ^ 2 + y ^ 2) = (1 - s) * (1 + s)) by (unfold q in *; nra).
  assert (Hid : 1 - c * (c * (x ^ 2 + y ^ 2) / (1 + s)) * (1 + cc)
                = 1 - ((1 + cc) * c ^ 2 * (x ^ 2 + y ^ 2)) / (1 + s)) by (field; lra).
  rewrite Hid, Hr. field. lra.
Qed.


(** X16.  Wherever the sag is a number, the normal of a conic has length 1
    and a positive z component; it is not a number exactly where the sag
    is not; at the vertex it is the unit vector along +z. *)
Theorem Conic_getNormal_unit (self : Conic) (x y : R) :
  (Conic_getNormal self x y = None ↔ Conic_getSag self x y = None) ∧
  (∀ n, Conic_getNormal self x y = Some n →
        (c0 n)^2 + (c1 n)^2 + (c2 n)^2 = 1 ∧ 0 < c2 n) ∧
  Conic_getNormal self 0 0 = Some (mkvec3 0 0 1).
Proof.
  split; [|split].
  - unfold Conic_getNormal, Conic_getGrad.
    destruct (Conic_getSag self x y); cbn; done.
  - intros n. unfold Conic_getNormal, Conic_getGrad.
    destruct (Conic_getSag self x y) as [z|] eqn:Hsag;
      cbn [fmap option_fmap option_map mbind option_bind]; [|done].
    destruct (Conic_getGrad_third self x y z Hsag) as [-> Hs0].
    set (s := sqrt _) in *.
    set (gx := - curvature self * x). set (gy := - curvature self * y).
    assert (Hpos : 0 < gx ^ 2 + gy ^ 2 + s ^ 2) by nra.
    pose proof (sqrt_sqrt _ (Rlt_le _ _ Hpos)) as Ha.
    pose proof (sqrt_lt_R0 _ Hpos) as Ha0.
    set (a := sqrt (gx ^ 2 + gy ^ 2 + s ^ 2)) in *.
    intros [= <-]. cbn [c0 c1 c2]. split.
    + assert (Hid : (gx / a) ^ 2 + (gy / a) ^ 2 + (s / a) ^ 2
                    = (gx ^ 2 + gy ^ 2 + s ^ 2) / (a * a)) by (field; lra).
      rewrite Hid, Ha. field. lra.
    + apply Rdiv_lt_0_compat; done.
  - unfold Conic_getNormal, Conic_getGrad.
    destruct (Conic_getSag_on_conic self 0 0) as (_ & _ & ->).
    cbn [fmap option_fmap option_map mbind option_bind].
    replace ((- curvature self * 0) ^ 2 + (- curvature self * 0) ^ 2
             + (1 - curvature self * 0 * (1 + conic self)) ^ 2) with 1 by ring.
    rewrite sqrt_1. do 2 f_equal; field.
Qed.

(** X17.  An [Asphere] without polynomial coefficients has the sag of the
    [Conic] of the same curvature and conic constant wherever the term
    under the root is positive. *)
Theorem Asphere_without_coefficients_is_conic (curv cc x y : R) (lc : LocalFrame) :
  0 < 1 - (1 + cc) * curv^2 * (x^2 + y^2) →
  Asphere_F {| asphere_curv := curv; asphere_cc := cc; asphere_acoeffs := [] |} x y
  = Conic_getSag {| curvature := curv; conic := cc; conic_lc := lc |} x y ∧
  is_Some (Asphere_F {| asphere_curv := curv; asphere_cc := cc;
                        asphere_acoeffs := [] |} x y).
Proof.
  intros Hq.
  assert (E : Asphere_F {| asphere_curv := curv; asphere_cc := cc; asphere_acoeffs := [] |} x y
              = Some (curv * (x ^ 2 + y ^ 2)
                      / (1 + sqrt (1 - (1 + cc) * curv ^ 2 * (x ^ 2 + y ^ 2))))).
  { unfold Asphere_F, Asphere_sqrtfun, np_sqrt.
    cbn [asphere_curv asphere_cc asphere_acoeffs length seq zip zip_with Asphere_F_loop].
    replace (1 - curv ^ 2 * (1 + cc) * (x ^ 2 + y ^ 2))
      with (1 - (1 + cc) * curv ^ 2 * (x ^ 2 + y ^ 2)) by ring.
    destruct (Rle_dec 0 _) as [_|Hn]; [done|lra]. }
  rewrite E. split; [|eauto].
  symmetry. by apply conic_function_Some.
Qed.

End conic_more_facts.

(** ** Gradients and slopes of the sag *)

Section gradient_facts.
Local Open Scope R_scope.

(** Two functions that agree have the same slopes. *)
Lemma derivable_pt_lim_eq (f g : R → R) (t l l' : R) :
  (∀ t', f t' = g t') → l = l' → derivable_pt_lim g t l' → derivable_pt_lim f t l.
Proof.
  intros Hfg -> Hg eps Heps. destruct (Hg eps Heps) as [d Hd].
  exists d. intros h Hh Hlt. rewrite !Hfg. by apply Hd.
Qed.

(** Two functions that agree near [t] have the same slope at [t]. *)
Lemma derivable_pt_lim_near (f g : R → R) (t l d : R) :
  0 < d → (∀ t', Rabs (t' - t) < d → f t' = g t') →
  derivable_pt_lim g t l → derivable_pt_lim f t l.
Proof.
  intros Hd Hfg Hg eps Heps. destruct (Hg eps Heps) as [[d' Hd'] H].
  assert (Hmin : 0 < Rmin d d') by (by apply Rmin_pos).
  exists (mkposreal _ Hmin). intros h Hh Hlt. cbn in Hlt, H.
  rewrite (Hfg (t + h)), (Hfg t).
  - apply H; [done|]. eapply Rlt_le_trans; [done|apply Rmin_r].
  - rewrite Rminus_diag, Rabs_R0. done.
  - replace (t + h - t) with h by ring.
    eapply Rlt_le_trans; [done|apply Rmin_l].
Qed.

(** A function with a slope at [t] that is positive at [t] is positive
    near [t]. *)
Lemma positive_near (u : R → R) (t l : R) :
  derivable_pt_lim u t l → 0 < u t →
  ∃ d, 0 < d ∧ ∀ t', Rabs (t' - t) < d → 0 < u t'.
Proof.
  intros Hu Hpos.
  pose proof (derivable_continuous_pt u t (exist _ l Hu)) as Hc.
  destruct (Hc (u t) Hpos) as (d & Hd & H).
  exists d. split; [lra|]. intros t' Ht'.
  destruct (Req_dec t t') as [<-|Hne]; [done|].
  specialize (H t'). cbn in H. unfold Rdist in H.
  assert (Hlt : Rabs (u t' - u t) < u t).
  { apply H. split; [|done]. split; done. }
  apply Rabs_def2 in Hlt. lra.
Qed.

(** The slope of a power of a function. *)
Lemma derivable_pt_lim_pow_of (u : R → R) (t l : R) (n : nat) :
  derivable_pt_lim u t l →
  derivable_pt_lim (λ t', u t' ^ S n) t (INR (S n) * u t ^ n * l).
Proof.
  intros Hu.
  apply (derivable_pt_lim_comp u (λ r, r ^ S n) t l (INR (S n) * u t ^ n) Hu).
  apply (derivable_pt_lim_pow (u t) (S n)).
Qed.

(** The slope of a linear function. *)
Lemma linear_slope (a k t : R) : derivable_pt_lim (λ t', a - k * t') t (- k).
Proof.
  apply (derivable_pt_lim_eq _ (fct_cte a - mult_real_fct k Ranalysis1.id)%F
           _ _ (0 - k * 1)); [done|ring|].
  apply derivable_pt_lim_minus; [apply derivable_pt_lim_const|].
  apply derivable_pt_lim_scal, derivable_pt_lim_id.
Qed.

(** The slope of the conic part of a sag as a function of the squared
    radius. *)
Lemma conic_part_slope (c k r : R) :
  0 < 1 - k * r →
  derivable_pt_lim (λ r', c * r' / (1 + sqrt (1 - k * r'))) r
    (c / (2 * sqrt (1 - k * r))).
Proof.
  intros Hq.
  pose proof (sqrt_lt_R0 _ Hq) as Hs0.
  pose proof (sqrt_sqrt (1 - k * r) ltac:(lra)) as Hs.
  assert (Hnum : derivable_pt_lim (λ r', c * r') r c).
  { apply (derivable_pt_lim_eq _ (mult_real_fct c Ranalysis1.id) _ _ (c * 1));
      [done|ring|]. apply derivable_pt_lim_scal, derivable_pt_lim_id. }
  pose proof (linear_slope 1 k r) as Hin.
  assert (Hden : derivable_pt_lim (λ r', 1 + sqrt (1 - k * r')) r
                   (0 + / (2 * sqrt (1 - k * r)) * - k)).
  { apply (derivable_pt_lim_plus (fct_cte 1) (λ r', sqrt (1 - k * r')));
      [apply derivable_pt_lim_const|].
    apply (derivable_pt_lim_comp (λ r', 1 - k * r') sqrt); [done|].
    by apply derivable_pt_lim_sqrt. }
  eapply derivable_pt_lim_eq;
    [| |apply (derivable_pt_lim_div _ _ _ _ _ Hnum Hden); lra].
  - done.
  - unfold Rsqr. set (s := sqrt (1 - k * r)) in *.
    assert (E : k * r = (1 - s) * (1 + s)) by nra.
    transitivity ((c * (1 + s) + c * (k * r) / (2 * s)) / ((1 + s) * (1 + s)));
      [rewrite E|]; field; lra.
Qed.

(** What the loop of [Asphere.gradF] adds to the two components. *)
Lemma Asphere_gradF_loop_value (x y r2 : R) (enumerated : list (nat * R)) (res : R * R) :
  Asphere_gradF_loop x y r2 enumerated res
  = (res.1 - 2 * x * asphere_polynomial_slope r2 enumerated,
     res.2 - 2 * y * asphere_polynomial_slope r2 enumerated).
Proof.
  revert res. induction enumerated as [|[n an] rest IH]; intros [res0 res1].
  - cbn. f_equal; ring.
  - cbn [Asphere_gradF_loop asphere_polynomial_slope]. rewrite IH.
    cbn [fst snd]. f_equal; ring.
Qed.

(** The slope of the loop of [Asphere.F] as a function of the squared
    radius. *)
Lemma Asphere_F_loop_slope (enumerated : list (nat * R)) :
  ∀ (f : R → R) (r l : R),
    derivable_pt_lim f r l →
    derivable_pt_lim (λ r', Asphere_F_loop r' enumerated (f r')) r
      (l + asphere_polynomial_slope r enumerated).
Proof.
  induction enumerated as [|[n an] rest IH]; intros f r l Hf.
  - cbn. by rewrite Rplus_0_r.
  - cbn [Asphere_F_loop asphere_polynomial_slope].
    replace (l + (INR (n + 1) * an * r ^ n + asphere_polynomial_slope r rest))
      with (l + an * (INR (S n) * r ^ n * 1) + asphere_polynomial_slope r rest)
      by (rewrite Nat.add_1_r; ring).
    apply (IH (λ r', f r' + an * r' ^ (n + 1))).
    apply (derivable_pt_lim_plus f (λ r', an * r' ^ (n + 1))); [done|].
    apply (derivable_pt_lim_scal (λ r', r' ^ (n + 1)) an).
    rewrite Nat.add_1_r.
    apply (derivable_pt_lim_pow_of Ranalysis1.id), derivable_pt_lim_id.
Qed.

(** [Asphere.F] as a function of the squared radius, and its slope. *)
Lemma Asphere_F_radial_slope (self : Asphere) (r : R) :
  0 < 1 - (asphere_curv self)^2 * (1 + asphere_cc self) * r →
  derivable_pt_lim
    (λ r', sag_value (sq ← Asphere_sqrtfun self r';
                      Some (Asphere_F_loop r'
                              (zip (seq 0 (length (asphere_acoeffs self)))
                                   (asphere_acoeffs self))
                              (asphere_curv self * r' / (1 + sq))))) r
    (asphere_curv self
       / (2 * sqrt (1 - (asphere_curv self)^2 * (1 + asphere_cc self) * r))
     + asphere_polynomial_slope r
         (zip (seq 0 (length (asphere_acoeffs self))) (asphere_acoeffs self))).
Proof.
  intros Hq.
  set (k := (asphere_curv self)^2 * (1 + asphere_cc self)) in *.
  set (enumerated := zip _ _).
  pose proof (linear_slope 1 k r) as Hu.
  destruct (positive_near _ _ _ Hu Hq) as (d & Hd & Hnear).
  apply (derivable_pt_lim_near _
           (λ r', Asphere_F_loop r' enumerated
                    (asphere_curv self * r' / (1 + sqrt (1 - k * r')))) _ _ d Hd).
  - intros r' Hr'. specialize (Hnear r' Hr'). cbn beta in Hnear.
    unfold Asphere_sqrtfun, np_sqrt. fold k.
    destruct (Rle_dec 0 _) as [_|Hn]; [done|lra].
  - apply Asphere_F_loop_slope. apply conic_part_slope. done.
Qed.

(** The slopes of the squared radius in x and in y. *)
Lemma squared_radius_slope_x (x y : R) :
  derivable_pt_lim (λ x', x' ^ 2 + y ^ 2) x (2 * x).
Proof.
  apply (derivable_pt_lim_eq _ ((λ x', x' ^ 2) + fct_cte (y ^ 2))%F _ _
           (INR 2 * x ^ 1 * 1 + 0)); [done|cbn; ring|].
  apply derivable_pt_lim_plus; [|apply derivable_pt_lim_const].
  apply (derivable_pt_lim_pow_of Ranalysis1.id), derivable_pt_lim_id.
Qed.

Lemma squared_radius_slope_y (x y : R) :
  derivable_pt_lim (λ y', x ^ 2 + y' ^ 2) y (2 * y).
Proof.
  apply (derivable_pt_lim_eq _ (fct_cte (x ^ 2) + (λ y', y' ^ 2))%F _ _
           (0 + INR 2 * y ^ 1 * 1)); [done|cbn; ring|].
  apply derivable_pt_lim_plus; [apply derivable_pt_lim_const|].
  apply (derivable_pt_lim_pow_of Ranalysis1.id), derivable_pt_lim_id.
Qed.

(** X18.  [Asphere.gradF] is the gradient of [z - F(x, y)]: where the term
    under the root is positive, its third component is 1 and the first two
    are minus the slopes of [Asphere.F] in x and in y. *)
Theorem Asphere_gradF_is_gradient (self : Asphere) (x y z : R) :
  0 < 1 - (asphere_curv self)^2 * (1 + asphere_cc self) * (x^2 + y^2) →
  ∃ gx gy,
    Asphere_gradF self x y z = Some (mkvec3 gx gy 1) ∧
    derivable_pt_lim (λ x', sag_value (Asphere_F self x' y)) x (- gx) ∧
    derivable_pt_lim (λ y', sag_value (Asphere_F self x y')) y (- gy).
Proof.
  intros Hq.
  pose proof (sqrt_lt_R0 _ Hq) as Hs0.
  pose proof (Asphere_F_radial_slope self _ Hq) as Hr.
  unfold Asphere_gradF, Asphere_sqrtfun, np_sqrt, np_divide.
  destruct (Rle_dec 0 _) as [_|Hn]; [|lra]. cbn [mbind option_bind].
  destruct (Req_EM_T _ 0) as [E0|_]; [lra|]. cbn [mbind option_bind].
  rewrite Asphere_gradF_loop_value. cbn [fst snd].
  eexists _, _. split; [done|].
  set (s := sqrt _) in *. set (S' := asphere_polynomial_slope _ _) in *.
  pose proof (squared_radius_slope_x x y) as Hx2.
  pose proof (squared_radius_slope_y x y) as Hy2.
  split.
  - eapply derivable_pt_lim_eq;
      [| |exact (derivable_pt_lim_comp _ _ _ _ _ Hx2 Hr)]; [done|].
    field. lra.
  - eapply derivable_pt_lim_eq;
      [| |exact (derivable_pt_lim_comp _ _ _ _ _ Hy2 Hr)]; [done|].
    field. lra.
Qed.

(** [Conic.conic_function] and its slope. *)
Lemma conic_function_slope (self : Conic) (r : R) :
  0 < 1 - (1 + conic self) * (curvature self)^2 * r →
  derivable_pt_lim (λ r', sag_value (conic_function self r')) r
    (curvature self / (2 * sqrt (1 - (1 + conic self) * (curvature self)^2 * r))).
Proof.
  intros Hq. set (k := (1 + conic self) * (curvature self)^2) in *.
  destruct (positive_near _ _ _ (linear_slope 1 k r) Hq) as (d & Hd & Hnear).
  apply (derivable_pt_lim_near _
           (λ r', curvature self * r' / (1 + sqrt (1 - k * r'))) _ _ d Hd).
  - intros r' Hr'. specialize (Hnear r' Hr'). cbn beta in Hnear.
    by rewrite (proj2 (conic_function_Some self r' _) (conj Hnear eq_refl)).
  - by apply conic_part_slope.
Qed.

(** X19.  [Conic.getGrad] is normal to the surface of [Conic.getSag]: where
    the term under the root is positive, the third component of the
    gradient is positive and the slopes of the sag in x and in y are minus
    the first and minus the second component over the third. *)
Theorem Conic_getGrad_is_normal_to_sag (self : Conic) (x y : R) :
  0 < 1 - (1 + conic self) * (curvature self)^2 * (x^2 + y^2) →
  ∃ gx gy gz,
    Conic_getGrad self x y = (gx, gy, Some gz) ∧ 0 < gz ∧
    derivable_pt_lim (λ x', sag_value (Conic_getSag self x' y)) x (- gx / gz) ∧
    derivable_pt_lim (λ y', sag_value (Conic_getSag self x y')) y (- gy / gz).
Proof.
  intros Hq.
  pose proof (conic_function_slope self _ Hq) as Hr.
  destruct (Conic_getSag self x y) as [z|] eqn:Ez;
    [|apply conic_function_None in Ez; lra].
  destruct (Conic_getGrad_third self x y z Ez) as [E3 Hs0].
  unfold Conic_getGrad. rewrite Ez. cbn [fmap option_fmap option_map].
  rewrite E3. eexists _, _, _. split; [done|]. split; [done|].
  set (s := sqrt _) in *.
  split.
  - eapply derivable_pt_lim_eq;
      [| |exact (derivable_pt_lim_comp _ _ _ _ _ (squared_radius_slope_x x y) Hr)];
      [done|].
    field. lra.
  - eapply derivable_pt_lim_eq;
      [| |exact (derivable_pt_lim_comp _ _ _ _ _ (squared_radius_slope_y x y) Hr)];
      [done|].
    field. lra.
Qed.

(** The slope of a power, with the power 0 as [np.where] treats it in
    [XYPolynomials.gradF]. *)
Lemma power_slope (t : R) (n : nat) :
  derivable_pt_lim (λ t', t' ^ n) t
    (INR n * np_where (bool_decide (1 ≤ n)%nat) (t ^ (n - 1)) 0).
Proof.
  destruct n as [|n].
  - cbn [pow INR]. rewrite Rmult_0_l. apply (derivable_pt_lim_const 1).
  - rewrite bool_decide_eq_true_2 by lia. unfold np_where.
    replace (S n - 1)%nat with (Init.Nat.pred (S n)) by lia.
    apply derivable_pt_lim_pow.
Qed.

(** The two loops of [XYPolynomials] in x. *)
Lemma XYPolynomials_loops_slope_x (normradius y : R) (coeffs : list (nat * nat * R)) :
  normradius ≠ 0 →
  ∀ (f : R → R) (x g0 g1 : R),
    derivable_pt_lim f x (- g0) →
    ∃ gx gy,
      XYPolynomials_gradF_loop normradius x y coeffs (g0, g1) = Some (gx, gy) ∧
      derivable_pt_lim
        (λ x', sag_value (XYPolynomials_F_loop normradius x' y coeffs (f x'))) x (- gx).
Proof.
  intros Hn. induction coeffs as [|[[xpow ypow] coefficient] rest IH];
    intros f x g0 g1 Hf.
  - eexists _, _. split; [done|]. exact Hf.
  - cbn [XYPolynomials_gradF_loop XYPolynomials_F_loop]. unfold py_divide.
    destruct (Req_EM_T _ 0) as [E0|_]; [by apply pow_nonzero in E0|].
    cbn [mbind option_bind fst snd].
    apply IH.
    apply (derivable_pt_lim_eq _
             (f + mult_real_fct (y ^ ypow * coefficient * (1 / normradius ^ (xpow + ypow)))
                    (λ x', x' ^ xpow))%F _ _
             (- g0 + (y ^ ypow * coefficient * (1 / normradius ^ (xpow + ypow)))
                     * (INR xpow * np_where (bool_decide (1 ≤ xpow)%nat)
                                     (x ^ (xpow - 1)) 0))).
    + intros x'. unfold plus_fct, mult_real_fct. ring.
    + ring.
    + apply derivable_pt_lim_plus; [done|].
      apply derivable_pt_lim_scal, power_slope.
Qed.

(** The two loops of [XYPolynomials] in y. *)
Lemma XYPolynomials_loops_slope_y (normradius x : R) (coeffs : list (nat * nat * R)) :
  normradius ≠ 0 →
  ∀ (f : R → R) (y g0 g1 : R),
    derivable_pt_lim f y (- g1) →
    ∃ gx gy,
      XYPolynomials_gradF_loop normradius x y coeffs (g0, g1) = Some (gx, gy) ∧
      derivable_pt_lim
        (λ y', sag_value (XYPolynomials_F_loop normradius x y' coeffs (f y'))) y (- gy).
Proof.
  intros Hn. induction coeffs as [|[[xpow ypow] coefficient] rest IH];
    intros f y g0 g1 Hf.
  - eexists _, _. split; [done|]. exact Hf.
  - cbn [XYPolynomials_gradF_loop XYPolynomials_F_loop]. unfold py_divide.
    destruct (Req_EM_T _ 0) as [E0|_]; [by apply pow_nonzero in E0|].
    cbn [mbind option_bind fst snd].
    apply IH.
    apply (derivable_pt_lim_eq _
             (f + mult_real_fct (x ^ xpow * coefficient * (1 / normradius ^ (xpow + ypow)))
                    (λ y', y' ^ ypow))%F _ _
             (- g1 + (x ^ xpow * coefficient * (1 / normradius ^ (xpow + ypow)))
                     * (INR ypow * np_where (bool_decide (1 ≤ ypow)%nat)
                                     (y ^ (ypow - 1)) 0))).
    + intros y'. unfold plus_fct, mult_real_fct. ring.
    + ring.
    + apply derivable_pt_lim_plus; [done|].
      apply derivable_pt_lim_scal, power_slope.
Qed.

(** With a norm radius that is not 0 the loop of [XYPolynomials.F] ends
    with a number. *)
Lemma XYPolynomials_F_loop_Some (normradius x y : R) (coeffs : list (nat * nat * R)) :
  normradius ≠ 0 →
  ∀ res, is_Some (XYPolynomials_F_loop normradius x y coeffs res).
Proof.
  intros Hn. induction coeffs as [|[[xpow ypow] coefficient] rest IH]; intros res.
  - by eexists.
  - cbn [XYPolynomials_F_loop]. unfold py_divide.
    destruct (Req_EM_T _ 0) as [E0|_]; [by apply pow_nonzero in E0|].
    apply IH.
Qed.

(** X20.  [XYPolynomials.gradF] is the gradient of [z - F(x, y)]: for a
    norm radius that is not 0 the sag is a number everywhere, the third
    component of the gradient is 1 and the first two are minus the slopes
    of [XYPolynomials.F] in x and in y. *)
Theorem XYPolynomials_gradF_is_gradient (self : XYPolynomials) (x y z : R) :
  xy_normradius self ≠ 0 →
  is_Some (XYPolynomials_F self x y) ∧
  ∃ gx gy,
    XYPolynomials_gradF self x y z = Some (mkvec3 gx gy 1) ∧
    derivable_pt_lim (λ x', sag_value (XYPolynomials_F self x' y)) x (- gx) ∧
    derivable_pt_lim (λ y', sag_value (XYPolynomials_F self x y')) y (- gy).
Proof.
  intros Hn.
  assert (H0 : ∀ t, derivable_pt_lim (λ _ : R, 0) t (- 0)).
  { intros t. rewrite Ropp_0. apply (derivable_pt_lim_const 0). }
  destruct (XYPolynomials_loops_slope_x _ y (xy_coeffs self) Hn _ x 0 0 (H0 x))
    as (gx & gy & Eg & Hx).
  destruct (XYPolynomials_loops_slope_y _ x (xy_coeffs self) Hn _ y 0 0 (H0 y))
    as (gx' & gy' & Eg' & Hy).
  rewrite Eg in Eg'. injection Eg' as <- <-.
  split.
  - by apply XYPolynomials_F_loop_Some.
  - exists gx, gy. unfold XYPolynomials_gradF. rewrite Eg. done.
Qed.

(** The slope of a quotient [N / (1 + sqrt Q)]. *)
Lemma root_quotient_slope (N Q : R → R) (t n q : R) :
  derivable_pt_lim N t n → derivable_pt_lim Q t q → 0 < Q t →
  derivable_pt_lim (λ t', N t' / (1 + sqrt (Q t'))) t
    ((n * (1 + sqrt (Q t)) - q / (2 * sqrt (Q t)) * N t) / (1 + sqrt (Q t))^2).
Proof.
  intros HN HQ Hpos.
  pose proof (sqrt_lt_R0 _ Hpos) as Hs0.
  assert (Hden : derivable_pt_lim (λ t', 1 + sqrt (Q t')) t
                   (0 + / (2 * sqrt (Q t)) * q)).
  { apply (derivable_pt_lim_plus (fct_cte 1) (λ t', sqrt (Q t')));
      [apply derivable_pt_lim_const|].
    apply (derivable_pt_lim_comp Q sqrt); [done|].
    by apply derivable_pt_lim_sqrt. }
  eapply derivable_pt_lim_eq;
    [| |apply (derivable_pt_lim_div _ _ _ _ _ HN Hden); lra].
  - done.
  - unfold Rsqr. field. lra.
Qed.

(** The slope of [a + k t^2]. *)
Lemma quadratic_slope (a k t : R) :
  derivable_pt_lim (λ t', a + k * t' ^ 2) t (2 * k * t).
Proof.
  apply (derivable_pt_lim_eq _ (fct_cte a + mult_real_fct k (λ t', t' ^ 2))%F _ _
           (0 + k * (INR 2 * t ^ 1 * 1))); [done|cbn; ring|].
  apply derivable_pt_lim_plus; [apply derivable_pt_lim_const|].
  apply derivable_pt_lim_scal.
  apply (derivable_pt_lim_pow_of Ranalysis1.id), derivable_pt_lim_id.
Qed.

(** The two loops of [Biconic] in x. *)
Lemma Biconic_loops_slope_x (y : R) (enumerated : list (nat * (R * R))) :
  ∀ (f : R → R) (x g0 g1 : R),
    derivable_pt_lim f x (- g0) →
    derivable_pt_lim
      (λ x', Biconic_F_loop (x' ^ 2 + y ^ 2) (x' ^ 2 - y ^ 2) enumerated (f x')) x
      (- (Biconic_gradF_loop x y (x ^ 2 + y ^ 2) (x ^ 2 - y ^ 2) enumerated (g0, g1)).1).
Proof.
  induction enumerated as [|[n [an bn]] rest IH]; intros f x g0 g1 Hf.
  - exact Hf.
  - cbn [Biconic_F_loop Biconic_gradF_loop fst snd]. apply IH.
    rewrite Nat.add_1_r.
    apply (derivable_pt_lim_eq _
             (f + mult_real_fct an
                    (λ x', ((y ^ 2 + bn * y ^ 2) + (1 - bn) * x' ^ 2) ^ S n))%F _ _
             (- g0 + an * (INR (S n) * ((y ^ 2 + bn * y ^ 2) + (1 - bn) * x ^ 2) ^ n
                           * (2 * (1 - bn) * x)))).
    + intros x'. unfold plus_fct, mult_real_fct.
      by replace (x' ^ 2 + y ^ 2 - bn * (x' ^ 2 - y ^ 2))
        with (y ^ 2 + bn * y ^ 2 + (1 - bn) * x' ^ 2) by ring.
    + replace (- bn * (x ^ 2 - y ^ 2) + (x ^ 2 + y ^ 2))
        with (y ^ 2 + bn * y ^ 2 + (1 - bn) * x ^ 2) by ring. ring.
    + apply derivable_pt_lim_plus; [done|].
      apply derivable_pt_lim_scal.
      apply (derivable_pt_lim_pow_of
               (λ x', y ^ 2 + bn * y ^ 2 + (1 - bn) * x' ^ 2) x (2 * (1 - bn) * x) n).
      apply quadratic_slope.
Qed.

(** The two loops of [Biconic] in y. *)
Lemma Biconic_loops_slope_y (x : R) (enumerated : list (nat * (R * R))) :
  ∀ (f : R → R) (y g0 g1 : R),
    derivable_pt_lim f y (- g1) →
    derivable_pt_lim
      (λ y', Biconic_F_loop (x ^ 2 + y' ^ 2) (x ^ 2 - y' ^ 2) enumerated (f y')) y
      (- (Biconic_gradF_loop x y (x ^ 2 + y ^ 2) (x ^ 2 - y ^ 2) enumerated (g0, g1)).2).
Proof.
  induction enumerated as [|[n [an bn]] rest IH]; intros f y g0 g1 Hf.
  - exact Hf.
  - cbn [Biconic_F_loop Biconic_gradF_loop fst snd]. apply IH.
    rewrite Nat.add_1_r.
    apply (derivable_pt_lim_eq _
             (f + mult_real_fct an
                    (λ y', ((x ^ 2 - bn * x ^ 2) + (1 + bn) * y' ^ 2) ^ S n))%F _ _
             (- g1 + an * (INR (S n) * ((x ^ 2 - bn * x ^ 2) + (1 + bn) * y ^ 2) ^ n
                           * (2 * (1 + bn) * y)))).
    + intros y'. unfold plus_fct, mult_real_fct.
      by replace (x ^ 2 + y' ^ 2 - bn * (x ^ 2 - y' ^ 2))
        with (x ^ 2 - bn * x ^ 2 + (1 + bn) * y' ^ 2) by ring.
    + replace (- bn * (x ^ 2 - y ^ 2) + (x ^ 2 + y ^ 2))
        with (x ^ 2 - bn * x ^ 2 + (1 + bn) * y ^ 2) by ring. ring.
    + apply derivable_pt_lim_plus; [done|].
      apply derivable_pt_lim_scal.
      apply (derivable_pt_lim_pow_of
               (λ y', x ^ 2 - bn * x ^ 2 + (1 + bn) * y' ^ 2) y (2 * (1 + bn) * y) n).
      apply quadratic_slope.
Qed.

(** X21.  [Biconic.gradF] is the gradient of [z - F(x, y)]: where the term
    under the root is positive, its third component is 1 and the first two
    are minus the slopes of [Biconic.F] in x and in y. *)
Theorem Biconic_gradF_is_gradient (self : Biconic) (x y z : R) :
  0 < 1 - (biconic_curvx self)^2 * (1 + biconic_ccx self) * x^2
        - (biconic_curvy self)^2 * (1 + biconic_ccy self) * y^2 →
  ∃ gx gy,
    Biconic_gradF self x y z = Some (mkvec3 gx gy 1) ∧
    derivable_pt_lim (λ x', sag_value (Biconic_F self x' y)) x (- gx) ∧
    derivable_pt_lim (λ y', sag_value (Biconic_F self x y')) y (- gy).
Proof.
  intros Hq.
  pose proof (sqrt_lt_R0 _ Hq) as Hs0.
  set (cx := biconic_curvx self) in *. set (cy := biconic_curvy self) in *.
  set (ccx := biconic_ccx self) in *. set (ccy := biconic_ccy self) in *.
  set (enumerated := zip (seq 0 (length (biconic_coeffs self))) (biconic_coeffs self)).
  (* the term under the root and the numerator, in x and in y *)
  assert (HQx : derivable_pt_lim
                  (λ x', 1 - cx ^ 2 * (1 + ccx) * x' ^ 2 - cy ^ 2 * (1 + ccy) * y ^ 2) x
                  (2 * (- (cx ^ 2 * (1 + ccx))) * x)).
  { eapply derivable_pt_lim_eq;
      [| |apply (quadratic_slope (1 - cy ^ 2 * (1 + ccy) * y ^ 2)
                   (- (cx ^ 2 * (1 + ccx))) x)]; [intros; cbn beta; ring|done]. }
  assert (HQy : derivable_pt_lim
                  (λ y', 1 - cx ^ 2 * (1 + ccx) * x ^ 2 - cy ^ 2 * (1 + ccy) * y' ^ 2) y
                  (2 * (- (cy ^ 2 * (1 + ccy))) * y)).
  { eapply derivable_pt_lim_eq;
      [| |apply (quadratic_slope (1 - cx ^ 2 * (1 + ccx) * x ^ 2)
                   (- (cy ^ 2 * (1 + ccy))) y)]; [intros; cbn beta; ring|done]. }
  assert (HNx : derivable_pt_lim (λ x', cx * x' ^ 2 + cy * y ^ 2) x (2 * cx * x)).
  { eapply derivable_pt_lim_eq;
      [| |apply (quadratic_slope (cy * y ^ 2) cx x)]; [intros; cbn beta; ring|done]. }
  assert (HNy : derivable_pt_lim (λ y', cx * x ^ 2 + cy * y' ^ 2) y (2 * cy * y)).
  { apply quadratic_slope. }
  destruct (positive_near _ _ _ HQx Hq) as (dx & Hdx & Hnearx).
  destruct (positive_near _ _ _ HQy Hq) as (dy & Hdy & Hneary).
  unfold Biconic_gradF, Biconic_sqrtfun, np_sqrt, np_divide.
  fold cx cy ccx ccy enumerated.
  destruct (Rle_dec 0 _) as [_|Hn]; [|lra]. cbn [mbind option_bind].
  set (s := sqrt _) in *.
  destruct (Req_EM_T _ 0) as [E0|_]; [nra|]. cbn [mbind option_bind].
  eexists _, _. split; [done|]. split.
  - apply (derivable_pt_lim_near _
             (λ x', Biconic_F_loop (x' ^ 2 + y ^ 2) (x' ^ 2 - y ^ 2) enumerated
                      ((cx * x' ^ 2 + cy * y ^ 2)
                       / (1 + sqrt (1 - cx ^ 2 * (1 + ccx) * x' ^ 2
                                      - cy ^ 2 * (1 + ccy) * y ^ 2)))) _ _ dx Hdx).
    + intros x' Hx'. specialize (Hnearx x' Hx'). cbn beta in Hnearx.
      unfold Biconic_F, Biconic_sqrtfun, np_sqrt. fold cx cy ccx ccy enumerated.
      destruct (Rle_dec 0 _) as [_|Hn]; [done|lra].
    + apply Biconic_loops_slope_x.
      eapply derivable_pt_lim_eq;
        [| |apply (root_quotient_slope _ _ _ _ _ HNx HQx Hq)]; [done|].
      fold s. field. lra.
  - apply (derivable_pt_lim_near _
             (λ y', Biconic_F_loop (x ^ 2 + y' ^ 2) (x ^ 2 - y' ^ 2) enumerated
                      ((cx * x ^ 2 + cy * y' ^ 2)
                       / (1 + sqrt (1 - cx ^ 2 * (1 + ccx) * x ^ 2
                                      - cy ^ 2 * (1 + ccy) * y' ^ 2)))) _ _ dy Hdy).
    + intros y' Hy'. specialize (Hneary y' Hy'). cbn beta in Hneary.
      unfold Biconic_F, Biconic_sqrtfun, np_sqrt. fold cx cy ccx ccy enumerated.
      destruct (Rle_dec 0 _) as [_|Hn]; [done|lra].
    + apply Biconic_loops_slope_y.
      eapply derivable_pt_lim_eq;
        [| |apply (root_quotient_slope _ _ _ _ _ HNy HQy Hq)]; [done|].
      fold s. field. lra.
Qed.
End gradient_facts.

(** ** The Hessian of the XY polynomials *)

Section hessian_facts.
Local Open Scope R_scope.

(** The slope of the power that [XYPolynomials.gradF] takes with
    [np.where]. *)
Lemma lowered_power_slope (t : R) (n : nat) :
  derivable_pt_lim (λ t', np_where (bool_decide (1 ≤ n)%nat) (t' ^ (n - 1)) 0) t
    ((INR n - 1) * np_where (bool_decide (2 ≤ n)%nat) (t ^ (n - 2)) 0).
Proof.
  destruct n as [|n].
  - cbn. rewrite Rmult_0_r. apply (derivable_pt_lim_const 0).
  - rewrite bool_decide_eq_true_2 by lia. unfold np_where at 1.
    replace (INR (S n) - 1) with (INR (S n - 1)) by (rewrite S_INR; cbn; rewrite Nat.sub_0_r; ring).
    replace (bool_decide (2 ≤ S n)%nat) with (bool_decide (1 ≤ S n - 1)%nat)
      by (apply bool_decide_ext; lia).
    replace (S n - 2)%nat with (S n - 1 - 1)%nat by lia.
    apply power_slope.
Qed.

(** The loops of [XYPolynomials.gradF] and [XYPolynomials.hessF] in x. *)
Lemma XYPolynomials_hess_loops_slope_x (normradius y : R) (coeffs : list (nat * nat * R)) :
  normradius ≠ 0 →
  ∀ (a0 a1 : R → R) (x h00 h01 h11 : R),
    derivable_pt_lim a0 x h00 → derivable_pt_lim a1 x h01 →
    ∃ hxx hxy hyy,
      XYPolynomials_hessF_loop normradius x y coeffs (h00, h01, h11)
        = Some (hxx, hxy, hyy) ∧
      derivable_pt_lim
        (λ x', from_option fst 0
                 (XYPolynomials_gradF_loop normradius x' y coeffs (a0 x', a1 x'))) x hxx ∧
      derivable_pt_lim
        (λ x', from_option snd 0
                 (XYPolynomials_gradF_loop normradius x' y coeffs (a0 x', a1 x'))) x hxy.
Proof.
  intros Hn. induction coeffs as [|[[xpow ypow] coefficient] rest IH];
    intros a0 a1 x h00 h01 h11 H0 H1.
  - eexists _, _, _. split; [done|]. split; [exact H0|exact H1].
  - cbn [XYPolynomials_gradF_loop XYPolynomials_hessF_loop]. unfold py_divide.
    destruct (Req_EM_T _ 0) as [E0|_]; [by apply pow_nonzero in E0|].
    cbn [mbind option_bind fst snd].
    set (N := 1 / normradius ^ (xpow + ypow)).
    apply (IH (λ x', a0 x' + - INR xpow
                               * np_where (bool_decide (1 ≤ xpow)%nat) (x' ^ (xpow - 1)) 0
                               * y ^ ypow * coefficient * N)
              (λ x', a1 x' + - INR ypow * x' ^ xpow
                               * np_where (bool_decide (1 ≤ ypow)%nat) (y ^ (ypow - 1)) 0
                               * coefficient * N)).
    + apply (derivable_pt_lim_eq _
               (a0 + mult_real_fct (- INR xpow * y ^ ypow * coefficient * N)
                       (λ x', np_where (bool_decide (1 ≤ xpow)%nat) (x' ^ (xpow - 1)) 0))%F
               _ _
               (h00 + (- INR xpow * y ^ ypow * coefficient * N)
                      * ((INR xpow - 1)
                         * np_where (bool_decide (2 ≤ xpow)%nat) (x ^ (xpow - 2)) 0))).
      * intros x'. unfold plus_fct, mult_real_fct. ring.
      * ring.
      * apply derivable_pt_lim_plus; [done|].
        apply derivable_pt_lim_scal, lowered_power_slope.
    + apply (derivable_pt_lim_eq _
               (a1 + mult_real_fct
                       (- INR ypow
                        * np_where (bool_decide (1 ≤ ypow)%nat) (y ^ (ypow - 1)) 0
                        * coefficient * N)
                       (λ x', x' ^ xpow))%F
               _ _
               (h01 + (- INR ypow
                       * np_where (bool_decide (1 ≤ ypow)%nat) (y ^ (ypow - 1)) 0
                       * coefficient * N)
                      * (INR xpow
                         * np_where (bool_decide (1 ≤ xpow)%nat) (x ^ (xpow - 1)) 0))).
      * intros x'. unfold plus_fct, mult_real_fct. ring.
      * ring.
      * apply derivable_pt_lim_plus; [done|].
        apply derivable_pt_lim_scal, power_slope.
Qed.

(** The loops of [XYPolynomials.gradF] and [XYPolynomials.hessF] in y. *)
Lemma XYPolynomials_hess_loops_slope_y (normradius x : R) (coeffs : list (nat * nat * R)) :
  normradius ≠ 0 →
  ∀ (a0 a1 : R → R) (y h00 h01 h11 : R),
    derivable_pt_lim a0 y h01 → derivable_pt_lim a1 y h11 →
    ∃ hxx hxy hyy,
      XYPolynomials_hessF_loop normradius x y coeffs (h00, h01, h11)
        = Some (hxx, hxy, hyy) ∧
      derivable_pt_lim
        (λ y', from_option fst 0
                 (XYPolynomials_gradF_loop normradius x y' coeffs (a0 y', a1 y'))) y hxy ∧
      derivable_pt_lim
        (λ y', from_option snd 0
                 (XYPolynomials_gradF_loop normradius x y' coeffs (a0 y', a1 y'))) y hyy.
Proof.
  intros Hn. induction coeffs as [|[[xpow ypow] coefficient] rest IH];
    intros a0 a1 y h00 h01 h11 H0 H1.
  - eexists _, _, _. split; [done|]. split; [exact H0|exact H1].
  - cbn [XYPolynomials_gradF_loop XYPolynomials_hessF_loop]. unfold py_divide.
    destruct (Req_EM_T _ 0) as [E0|_]; [by apply pow_nonzero in E0|].
    cbn [mbind option_bind fst snd].
    set (N := 1 / normradius ^ (xpow + ypow)).
    apply (IH (λ y', a0 y' + - INR xpow
                               * np_where (bool_decide (1 ≤ xpow)%nat) (x ^ (xpow - 1)) 0
                               * y' ^ ypow * coefficient * N)
              (λ y', a1 y' + - INR ypow * x ^ xpow
                               * np_where (bool_decide (1 ≤ ypow)%nat) (y' ^ (ypow - 1)) 0
                               * coefficient * N)).
    + apply (derivable_pt_lim_eq _
               (a0 + mult_real_fct
                       (- INR xpow
                        * np_where (bool_decide (1 ≤ xpow)%nat) (x ^ (xpow - 1)) 0
                        * coefficient * N)
                       (λ y', y' ^ ypow))%F
               _ _
               (h01 + (- INR xpow
                       * np_where (bool_decide (1 ≤ xpow)%nat) (x ^ (xpow - 1)) 0
                       * coefficient * N)
                      * (INR ypow
                         * np_where (bool_decide (1 ≤ ypow)%nat) (y ^ (ypow - 1)) 0))).
      * intros y'. unfold plus_fct, mult_real_fct. ring.
      * ring.
      * apply derivable_pt_lim_plus; [done|].
        apply derivable_pt_lim_scal, power_slope.
    + apply (derivable_pt_lim_eq _
               (a1 + mult_real_fct (- INR ypow * x ^ xpow * coefficient * N)
                       (λ y', np_where (bool_decide (1 ≤ ypow)%nat) (y' ^ (ypow - 1)) 0))%F
               _ _
               (h11 + (- INR ypow * x ^ xpow * coefficient * N)
                      * ((INR ypow - 1)
                         * np_where (bool_decide (2 ≤ ypow)%nat) (y ^ (ypow - 2)) 0))).
      * intros y'. unfold plus_fct, mult_real_fct. ring.
      * ring.
      * apply derivable_pt_lim_plus; [done|].
        apply derivable_pt_lim_scal, lowered_power_slope.
Qed.

(** X22.  [XYPolynomials.hessF] holds the slopes of
    [XYPolynomials.gradF]: for a norm radius that is not 0 the matrix is
    symmetric, its third row and column are 0, and its entries [0, 0],
    [0, 1] and [1, 1] are the slope in x of the first component of the
    gradient, the slope in y of the first (and in x of the second), and
    the slope in y of the second. *)
Theorem XYPolynomials_hessF_is_hessian (self : XYPolynomials) (x y z : R) :
  xy_normradius self ≠ 0 →
  ∃ hxx hxy hyy,
    XYPolynomials_hessF self x y z
      = Some (mkvec3 hxx hxy 0, mkvec3 hxy hyy 0, mkvec3 0 0 0) ∧
    derivable_pt_lim (λ x', from_option c0 0 (XYPolynomials_gradF self x' y z)) x hxx ∧
    derivable_pt_lim (λ y', from_option c0 0 (XYPolynomials_gradF self x y' z)) y hxy ∧
    derivable_pt_lim (λ x', from_option c1 0 (XYPolynomials_gradF self x' y z)) x hxy ∧
    derivable_pt_lim (λ y', from_option c1 0 (XYPolynomials_gradF self x y' z)) y hyy.
Proof.
  intros Hn.
  assert (H0 : ∀ t, derivable_pt_lim (λ _ : R, 0) t 0).
  { intros t. apply (derivable_pt_lim_const 0). }
  destruct (XYPolynomials_hess_loops_slope_x _ y (xy_coeffs self) Hn _ _ x 0 0 0
              (H0 x) (H0 x)) as (hxx & hxy & hyy & Eh & Hxx & Hxy).
  destruct (XYPolynomials_hess_loops_slope_y _ x (xy_coeffs self) Hn _ _ y 0 0 0
              (H0 y) (H0 y)) as (hxx' & hxy' & hyy' & Eh' & Hyx & Hyy).
  rewrite Eh in Eh'. injection Eh' as <- <- <-.
  exists hxx, hxy, hyy. unfold XYPolynomials_hessF. rewrite Eh.
  split; [done|].
  assert (Ec0 : ∀ x' y', from_option c0 0 (XYPolynomials_gradF self x' y' z)
                 = from_option fst 0
                     (XYPolynomials_gradF_loop (xy_normradius self) x' y'
                        (xy_coeffs self) (0, 0))).
  { intros x' y'. unfold XYPolynomials_gradF. by destruct (XYPolynomials_gradF_loop _ _ _ _ _). }
  assert (Ec1 : ∀ x' y', from_option c1 0 (XYPolynomials_gradF self x' y' z)
                 = from_option snd 0
                     (XYPolynomials_gradF_loop (xy_normradius self) x' y'
                        (xy_coeffs self) (0, 0))).
  { intros x' y'. unfold XYPolynomials_gradF. by destruct (XYPolynomials_gradF_loop _ _ _ _ _). }
  repeat split.
  - eapply derivable_pt_lim_eq; [intros; apply Ec0|done|exact Hxx].
  - eapply derivable_pt_lim_eq; [intros; apply Ec0|done|exact Hyx].
  - eapply derivable_pt_lim_eq; [intros; apply Ec1|done|exact Hxy].
  - eapply derivable_pt_lim_eq; [intros; apply Ec1|done|exact Hyy].
Qed.
End hessian_facts.
(** ** Zernike indices *)

Section zernike_facts.
Local Open Scope Z_scope.

(** What [all_from] has checked holds of every integer of the range. *)
Lemma all_from_spec (f : Z → bool) (count : nat) :
  ∀ start, all_from f start count = true →
           ∀ j, start ≤ j < start + Z.of_nat count → f j = true.
Proof.
  induction count as [|k IH]; intros start Hall j Hj; [lia|].
  cbn [all_from] in Hall. apply andb_prop in Hall as [Hstart Hrest].
  destruct (decide (j = start)) as [->|Hne]; [done|].
  apply (IH (start + 1) Hrest). lia.
Qed.

Lemma index_ok_spec jtonm nmtoj side (j : Z) :
  index_ok jtonm nmtoj side j = true →
  ∃ n m, jtonm j = Ok (n, m) ∧ side (n, m) = true ∧ nmtoj (n, m) = Ok j ∧
         0 ≤ n ∧ - n ≤ m ≤ n ∧ (n - m) `mod` 2 = 0.
Proof.
  unfold index_ok, double_index_ok.
  destruct (jtonm j) as [[n m]|]; [|done]. cbn [fst snd].
  destruct (nmtoj (n, m)) as [j'|] eqn:En.
  - rewrite !andb_true_iff, !bool_decide_eq_true.
    intros [[[[? ?] ?] ?] ->]. by exists n, m.
  - rewrite andb_false_r. done.
Qed.

Lemma pair_ok_spec jtonm nmtoj side (n m : Z) :
  pair_ok jtonm nmtoj side n m = true →
  side (n, m) = true ∧
  ∃ j, nmtoj (n, m) = Ok j ∧ 1 ≤ j ∧ jtonm j = Ok (n, m).
Proof.
  unfold pair_ok. rewrite andb_true_iff. intros [Hside Hrest].
  split; [done|]. revert Hrest.
  destruct (nmtoj (n, m)) as [j|]; [|done].
  destruct (jtonm j) as [nm|] eqn:Ej.
  - rewrite andb_true_iff, !bool_decide_eq_true. intros [? ->]. by exists j.
  - rewrite andb_false_r. done.
Qed.

(** With an accurate [pow], [ZernikeFringe.nmtoj] is the conversion with
    the rounded product wherever the square it takes is a float. *)
Lemma ZernikeFringe_nmtoj_accurate `{CMathLibrary} (n_m_pair : Z * Z) :
  accurate_pow →
  fringe_square_is_float n_m_pair = true →
  ZernikeFringe_nmtoj n_m_pair = @ZernikeFringe_nmtoj rounding_library n_m_pair.
Proof.
  intros Hpow. destruct n_m_pair as [n m].
  unfold fringe_square_is_float, ZernikeFringe_nmtoj. cbn [fst snd].
  destruct (int_truediv_2 (n + Z.abs m)) as [half|]; [|done].
  intros Hsq. cbn [mbind result_bind]. unfold float_square.
  by rewrite (Hpow _ Hsq).
Qed.

(** The single indices 1 to 4000 in both orderings, by evaluation of the
    conversions. *)
Lemma zernike_indices_checked :
  all_from single_index_ok 1 (Z.to_nat 4000) = true.
Proof. vm_compute. reflexivity. Qed.

Lemma zernike_index_checked (j : Z) :
  1 ≤ j ≤ 4000 →
  index_ok ZernikeFringe_jtonm (@ZernikeFringe_nmtoj rounding_library)
    fringe_square_is_float j = true ∧
  index_ok ZernikeANSI_jtonm ZernikeANSI_nmtoj (λ _, true) j = true.
Proof.
  intros Hj. apply andb_prop.
  apply (all_from_spec _ _ _ zernike_indices_checked j). lia.
Qed.

(** ** C10 *)




End zernike_facts.

(** ** More on the Zernike indices *)

Section zernike_more_facts.
Local Open Scope Z_scope.

(** The double indices of the orders 0 to 60 in both orderings, by
    evaluation of the conversions. *)
Lemma zernike_orders_checked :
  all_from order_ok 0 (Z.to_nat 61) = true.
Proof. vm_compute. reflexivity. Qed.

(** X23.  For every [j] from 1 to 4000 the double index that [jtonm]
    returns is a valid one, in both orderings: [n >= 0], [|m| <= n] and
    [n - m] even. *)
Theorem zernike_jtonm_valid_double_index (j : Z) :
  1 ≤ j ≤ 4000 →
  (∃ n m, ZernikeFringe_jtonm j = Ok (n, m) ∧
          0 ≤ n ∧ - n ≤ m ≤ n ∧ (n - m) `mod` 2 = 0) ∧
  (∃ n m, ZernikeANSI_jtonm j = Ok (n, m) ∧
          0 ≤ n ∧ - n ≤ m ≤ n ∧ (n - m) `mod` 2 = 0).
Proof.
  intros Hj. destruct (zernike_index_checked j Hj) as [HF HA].
  apply index_ok_spec in HF as (n & m & Ej & _ & _ & Hn).
  apply index_ok_spec in HA as (n' & m' & Ej' & _ & _ & Hn').
  split; [by exists n, m | by exists n', m'].
Qed.

(** X24.  On the valid double indices of the orders 0 to 60 the
    conversions are inverse to each other the other way round as well:
    [nmtoj] gives a single index from 1 on, and [jtonm] takes it back to
    the pair, in both orderings; with any C library whose [pow] is
    accurate. *)
Theorem zernike_nmtoj_jtonm_roundtrip `{CMathLibrary} (n m : Z) :
  accurate_pow →
  0 ≤ n ≤ 60 → - n ≤ m ≤ n → (n - m) `mod` 2 = 0 →
  (∃ j, ZernikeFringe_nmtoj (n, m) = Ok j ∧ 1 ≤ j ∧
        ZernikeFringe_jtonm j = Ok (n, m)) ∧
  (∃ j, ZernikeANSI_nmtoj (n, m) = Ok j ∧ 1 ≤ j ∧
        ZernikeANSI_jtonm j = Ok (n, m)).
Proof.
  intros Hpow Hn Hm Hpar.
  pose proof (all_from_spec _ _ _ zernike_orders_checked n ltac:(lia)) as Horder.
  unfold order_ok in Horder.
  pose proof (all_from_spec _ _ _ Horder m ltac:(lia)) as Hpair.
  cbn beta in Hpair. rewrite bool_decide_eq_true_2 in Hpair by done.
  cbn [negb orb] in Hpair. apply andb_prop in Hpair as [HF HA].
  apply pair_ok_spec in HF as [Hsq HF]. apply pair_ok_spec in HA as [_ HA].
  split; [|done].
  by rewrite (ZernikeFringe_nmtoj_accurate _ Hpow Hsq).
Qed.

End zernike_more_facts.

(** ** The further properties on the worked examples *)

Section more_element_examples.
#[local] Existing Instance example_tree.

Lemma hitlist_to_sequence_of_sequence_to_hitlist_witness :
  hitlist_to_sequence (sequence_to_hitlist seq_ABA)
  = Ok ((λ e, (e.1, true, e.2)) <$> seq_ABA) ∧
  hitlist_to_sequence (sequence_to_hitlist [("A", ∅)]) = Ok [].
Proof.
  split.
  - apply (hitlist_to_sequence_of_sequence_to_hitlist seq_ABA). vm_compute. lia.
  - apply (hitlist_to_sequence_of_sequence_to_hitlist [("A", ∅)]). vm_compute. lia.
Defined.

Lemma sequence_to_hitlist_options_witness :
  ∃ optsb optse,
    seq_ABA !! 1 = Some ("B", optsb) ∧ seq_ABA !! 2 = Some ("A", optse) ∧
    (sequence_to_hitlist seq_ABA).2 !! ("B", "A", 1) = Some (optsb, optse).
Proof.
  apply (proj2 (proj2 (sequence_to_hitlist_options seq_ABA)) 1 "B" "A" 1).
  vm_compute. reflexivity.
Defined.

Lemma changeMaterialsForSurface_registered_only_witness :
  (∃ self',
     changeMaterialsForSurface "A" (Some "glass", None) example_element = (Ok tt, self') ∧
     getConnection self' "A" = Ok (Some "glass", None) ∧
     (∀ key', key' ≠ "A" → getConnection self' key' = getConnection example_element key') ∧
     surfaces self' = surfaces example_element ∧
     materials self' = materials example_element ∧
     logged self' = logged example_element) ∧
  (changeMaterialsForSurface "Z" (None, None) example_element = (Ok tt, example_element) ∧
   getConnection example_element "Z" = Raise KeyError).
Proof.
  split.
  - apply (changeMaterialsForSurface_registered_only example_element "A").
    vm_compute. eauto.
  - apply (changeMaterialsForSurface_registered_only example_element "Z").
    vm_compute. reflexivity.
Defined.

Lemma addMaterial_first_registration_wins_witness :
  (∃ self',
     addMaterial (Some "flint") "flint" glass "shared" example_element = (Ok tt, self') ∧
     materials self' !! Some "flint" = Some (set_comment glass "shared") ∧
     materials self' !! Some "glass" = Some (set_comment glass "shared") ∧
     dom (materials self') = {[Some "flint"]} ∪ dom (materials example_element) ∧
     logged self' = logged example_element) ∧
  (∃ self',
     addMaterial (Some "glass") "glass" glass_twin "twin" example_element = (Ok tt, self') ∧
     materials self' = materials example_element ∧
     ∃ msg, logged self' = logged example_element ++ [msg]).
Proof.
  split.
  - destruct (addMaterial_first_registration_wins example_element (Some "flint") "flint"
                glass "shared" ltac:(compute_done))
      as (self' & E & _ & _ & Hfree & _).
    destruct (Hfree ltac:(vm_compute; reflexivity)) as (Hkey & Hother & Hdom & Hlog).
    exists self'. split; [exact E|]. split; [exact Hkey|]. split; [|by split].
    apply (Hother (Some "glass") glass); [discriminate|vm_compute; reflexivity|reflexivity].
  - destruct (addMaterial_first_registration_wins example_element (Some "glass") "glass"
                glass_twin "twin" ltac:(compute_done))
      as (self' & E & _ & _ & _ & Htaken).
    destruct (Htaken ltac:(vm_compute; eauto)) as [Hm Hlog].
    exists self'. by split.
Defined.

Lemma construction_keeps_element_consistent_witness :
  let self := after_calls example_calls (OpticalElement_p 0%nat) in
  rootcoordinatesystem self = 0%nat ∧
  dom (surfaces self) = dom (surf_mat_connection self) ∧
  (∀ k s, surfaces self !! k = Some s →
     surf_rootcoordinatesystem s ∈ returnConnectedChildren 0%nat) ∧
  (∀ k m, materials self !! k = Some m →
     mat_lc m ∈ returnConnectedChildren 0%nat).
Proof. exact (construction_keeps_element_consistent 0%nat example_calls). Defined.

End more_element_examples.

Section more_trace_examples.
#[local] Existing Instance example_tree.
#[local] Existing Instance example_materials.

Lemma seqtrace_raises_exactly_on_unregistered_key_witness :
  (∀ e, seqtrace example_element example_seed seq_AZ air true = Raise e → e = KeyError) ∧
  (seqtrace example_element example_seed seq_AZ air true = Raise KeyError ↔
   ∃ surfkey surfoptions, (surfkey, surfoptions) ∈ seq_AZ ∧
     (surfaces example_element !! surfkey = None ∨
      surf_mat_connection example_element !! surfkey = None)).
Proof.
  apply (seqtrace_raises_exactly_on_unregistered_key example_element example_seed
           seq_AZ air true).
  - intros m b s. discriminate.
  - intros m b s. discriminate.
Defined.

Lemma seqtrace_number_of_paths_witness :
  length example_split_paths = 2 ^ length seq_AB.
Proof.
  apply (seqtrace_number_of_paths example_element example_seed seq_AB air true 2).
  - intros m b s. reflexivity.
  - intros m b s. reflexivity.
  - vm_compute. reflexivity.
Defined.

Lemma seqtrace_paths_share_first_bundle_witness :
  ∃ current_surface,
    surfaces example_element !! "A" = Some current_surface ∧
    Forall (λ rp, head (raybundles rp)
                  = Some (propagate air example_seed current_surface))
           example_split_paths.
Proof.
  apply (seqtrace_paths_share_first_bundle example_element example_seed "A" ∅
           [("B", ∅)] air true).
  vm_compute. reflexivity.
Defined.

End more_trace_examples.

Section more_pilot_examples.
#[local] Existing Instance example_tree.
#[local] Existing Instance scalar_materials.
#[local] Existing Instance scalar_numerics.

Lemma calculateXYUV_keys_are_the_hits_witness :
  length (raybundles scalar_path) = 1 + length seq_ABA ∧
  ∀ s1 s2 n,
    is_Some (scalar_XYUV !! (s1, s2, n)) ↔
    (s1, s2, n) ∈ (sequence_to_hitlist seq_ABA).1 ∨
    (s2, s1, n) ∈ (sequence_to_hitlist seq_ABA).1.
Proof.
  apply (calculateXYUV_keys_are_the_hits (H1 := scalar_numerics) example_element
           scalar_seed seq_ABA air 0 "real" scalar_path scalar_XYUV).
  vm_compute. reflexivity.
Defined.

Lemma calculateXYUV_on_distinct_surfaces_witness :
  ∃ surf1 surf2 pb1 pb2 transfer invtransfer,
    surfaces example_element !! "A" = Some surf1 ∧
    surfaces example_element !! "B" = Some surf2 ∧
    raybundles scalar_path_AB !! 0 = Some pb1 ∧
    raybundles scalar_path_AB !! 1 = Some pb2 ∧
    bestfit_transfer (reduced_coordinates "real" surf1 pb1)
                     (reduced_coordinates "real" surf2 pb2) = Ok transfer ∧
    bestfit_transfer (reduced_coordinates "real" surf2 pb2)
                     (reduced_coordinates "real" surf1 pb1) = Ok invtransfer ∧
    scalar_XYUV_AB !! ("A", "B", 1) = Some transfer ∧
    scalar_XYUV_AB !! ("B", "A", 1) = Some invtransfer.
Proof.
  apply (calculateXYUV_on_distinct_surfaces (H1 := scalar_numerics) example_element
           scalar_seed seq_AB air 0 "real" scalar_path_AB scalar_XYUV_AB).
  - compute_done.
  - vm_compute. reflexivity.
  - vm_compute. reflexivity.
Defined.

End more_pilot_examples.

Section more_shape_examples.
Local Open Scope R_scope.

Lemma Conic_intersect_lands_on_conic_witness :
  on_conic flat_conic
    (ray_at ray_origin_axis ray_dir_axis
       (Conic_t flat_conic ray_origin_axis ray_dir_axis)).
Proof.
  apply (Conic_intersect_lands_on_conic flat_conic ray_origin_axis ray_dir_axis).
  - cbn. ring.
  - apply flat_conic_axis_ray_conditions.
  - apply flat_conic_axis_ray_conditions.
Defined.

Lemma Conic_intersect_from_the_surface_witness :
  Conic_G sphere_radius_two (mkvec3 0 0 0) ray_dir_axis = 0 ∧
  Conic_t sphere_radius_two (mkvec3 0 0 0) ray_dir_axis = 0 ∧
  ray_at (mkvec3 0 0 0) ray_dir_axis
    (Conic_t sphere_radius_two (mkvec3 0 0 0) ray_dir_axis) = mkvec3 0 0 0.
Proof.
  apply (Conic_intersect_from_the_surface sphere_radius_two (mkvec3 0 0 0) ray_dir_axis).
  - unfold on_conic. cbn. field.
  - assert (Hsq : Conic_square sphere_radius_two (mkvec3 0 0 0) ray_dir_axis = 1).
    { unfold Conic_square, Conic_F, Conic_G, Conic_H. cbn. field. }
    rewrite Hsq, sqrt_1. unfold Conic_F. cbn. lra.
Defined.

Lemma Conic_getSag_on_conic_witness :
  Conic_getSag sphere_radius_two 2 0 = None ∧
  on_conic sphere_radius_two (mkvec3 0 0 0).
Proof.
  split.
  - apply (proj1 (Conic_getSag_on_conic sphere_radius_two 2 0)). cbn. lra.
  - apply (proj1 (proj2 (Conic_getSag_on_conic sphere_radius_two 0 0)) 0).
    apply Conic_getSag_vertex.
Defined.


Lemma Conic_getNormal_unit_witness :
  Conic_getNormal sphere_radius_two 2 0 = None ∧
  (c0 (mkvec3 0 0 1))^2 + (c1 (mkvec3 0 0 1))^2 + (c2 (mkvec3 0 0 1))^2 = 1 ∧
  0 < c2 (mkvec3 0 0 1).
Proof.
  split.
  - apply (proj1 (Conic_getNormal_unit sphere_radius_two 2 0)).
    apply conic_function_None. cbn. lra.
  - apply (proj1 (proj2 (Conic_getNormal_unit sphere_radius_two 0 0))).
    apply (proj2 (proj2 (Conic_getNormal_unit sphere_radius_two 0 0))).
Defined.

Lemma Asphere_without_coefficients_is_conic_witness :
  Asphere_F {| asphere_curv := 1 / 2; asphere_cc := 0; asphere_acoeffs := [] |} 1 0
  = Conic_getSag sphere_radius_two 1 0 ∧
  is_Some (Asphere_F {| asphere_curv := 1 / 2; asphere_cc := 0;
                        asphere_acoeffs := [] |} 1 0).
Proof.
  apply (Asphere_without_coefficients_is_conic (1 / 2) 0 1 0 identity_frame). lra.
Defined.


Lemma Asphere_gradF_is_gradient_witness :
  ∃ gx gy,
    Asphere_gradF example_asphere 1 0 0 = Some (mkvec3 gx gy 1) ∧
    derivable_pt_lim (λ x', sag_value (Asphere_F example_asphere x' 0)) 1 (- gx) ∧
    derivable_pt_lim (λ y', sag_value (Asphere_F example_asphere 1 y')) 0 (- gy).
Proof. apply (Asphere_gradF_is_gradient example_asphere 1 0 0). cbn. lra. Defined.

Lemma Conic_getGrad_is_normal_to_sag_witness :
  ∃ gx gy gz,
    Conic_getGrad sphere_radius_two 1 0 = (gx, gy, Some gz) ∧ 0 < gz ∧
    derivable_pt_lim (λ x', sag_value (Conic_getSag sphere_radius_two x' 0)) 1
      (- gx / gz) ∧
    derivable_pt_lim (λ y', sag_value (Conic_getSag sphere_radius_two 1 y')) 0
      (- gy / gz).
Proof. apply (Conic_getGrad_is_normal_to_sag sphere_radius_two 1 0). cbn. lra. Defined.

Lemma XYPolynomials_gradF_is_gradient_witness :
  is_Some (XYPolynomials_F example_xypolynomial 1 1) ∧
  ∃ gx gy,
    XYPolynomials_gradF example_xypolynomial 1 1 0 = Some (mkvec3 gx gy 1) ∧
    derivable_pt_lim (λ x', sag_value (XYPolynomials_F example_xypolynomial x' 1)) 1
      (- gx) ∧
    derivable_pt_lim (λ y', sag_value (XYPolynomials_F example_xypolynomial 1 y')) 1
      (- gy).
Proof. apply (XYPolynomials_gradF_is_gradient example_xypolynomial 1 1 0). cbn. lra. Defined.

Lemma XYPolynomials_hessF_is_hessian_witness :
  ∃ hxx hxy hyy,
    XYPolynomials_hessF example_xypolynomial 1 1 0
      = Some (mkvec3 hxx hxy 0, mkvec3 hxy hyy 0, mkvec3 0 0 0) ∧
    derivable_pt_lim
      (λ x', from_option c0 0 (XYPolynomials_gradF example_xypolynomial x' 1 0)) 1 hxx ∧
    derivable_pt_lim
      (λ y', from_option c0 0 (XYPolynomials_gradF example_xypolynomial 1 y' 0)) 1 hxy ∧
    derivable_pt_lim
      (λ x', from_option c1 0 (XYPolynomials_gradF example_xypolynomial x' 1 0)) 1 hxy ∧
    derivable_pt_lim
      (λ y', from_option c1 0 (XYPolynomials_gradF example_xypolynomial 1 y' 0)) 1 hyy.
Proof. apply (XYPolynomials_hessF_is_hessian example_xypolynomial 1 1 0). cbn. lra. Defined.

Lemma Biconic_gradF_is_gradient_witness :
  ∃ gx gy,
    Biconic_gradF example_biconic 1 1 0 = Some (mkvec3 gx gy 1) ∧
    derivable_pt_lim (λ x', sag_value (Biconic_F example_biconic x' 1)) 1 (- gx) ∧
    derivable_pt_lim (λ y', sag_value (Biconic_F example_biconic 1 y')) 1 (- gy).
Proof. apply (Biconic_gradF_is_gradient example_biconic 1 1 0). cbn. lra. Defined.

End more_shape_examples.

Section more_zernike_examples.
Local Open Scope Z_scope.

Lemma zernike_jtonm_valid_double_index_witness :
  (∃ n m, ZernikeFringe_jtonm 7 = Ok (n, m) ∧
          0 ≤ n ∧ - n ≤ m ≤ n ∧ (n - m) `mod` 2 = 0) ∧
  (∃ n m, ZernikeANSI_jtonm 7 = Ok (n, m) ∧
          0 ≤ n ∧ - n ≤ m ≤ n ∧ (n - m) `mod` 2 = 0).
Proof. apply (zernike_jtonm_valid_double_index 7). lia. Defined.

Lemma zernike_nmtoj_jtonm_roundtrip_witness :
  (∃ j, @ZernikeFringe_nmtoj rounding_library (3, 1) = Ok j ∧ 1 ≤ j ∧
        ZernikeFringe_jtonm j = Ok (3, 1)) ∧
  (∃ j, ZernikeANSI_nmtoj (3, 1) = Ok j ∧ 1 ≤ j ∧
        ZernikeANSI_jtonm j = Ok (3, 1)).
Proof.
  apply (@zernike_nmtoj_jtonm_roundtrip rounding_library 3 1).
  - intros x _. reflexivity.
  - lia.
  - lia.
  - reflexivity.
Defined.

End more_zernike_examples.
